(** * fastann: randomized k-d forest (nn_kdtree.hpp)

    A shallow embedding of [fastann::nn_kdtree] and of
    [nn_kdtree_internal::kdtree_node], followed by the properties of the
    build and of the best-bin-first search.

    Conventions of the embedding.
    - The three numeric types [Float], [DiscFloat] and [DistFloat] of the
      template are exact rationals ([Q]): no rounding, no overflow. The
      threshold and the variance estimates of [choose_split] are thus
      the exact ones, where the code rounds them; the properties of the
      build are stated for whatever dimension and threshold a split is
      given, and none rests on the value of a mean or of a variance.
    - [unsigned] and [size_t] values are [nat]; array sizes are taken to be
      below 2^32, so the only places where unsigned arithmetic can wrap are
      the two subtractions [nrand-1] and [ncur_inds-1], which are written
      out.
    - A pointer-and-length pair ([unsigned* inds, unsigned N]) is a list
      whose length is [N]; the function returns the rearranged range.
    - A read or write outside an array, a [top()] on an empty queue and
      running out of recursion fuel are the three ways a run can fail. *)

From Stdlib Require Import List Arith PeanoNat ZArith Lia Bool QArith Lqa Permutation Sorted.
Import ListNotations.

Local Open Scope nat_scope.

(** ** Outcomes *)

Inductive fault : Type :=
| OutOfFuel
| OutOfBounds
| EmptyQueue.

Inductive result (A : Type) : Type :=
| Ok (a : A)
| Fail (f : fault).

Arguments Ok {A} a.
Arguments Fail {A} f.

Definition bind {A B : Type} (r : result A) (k : A -> result B) : result B :=
  match r with
  | Ok a => k a
  | Fail f => Fail f
  end.

Notation "x <- r ;; k" := (bind r (fun x => k))
  (at level 61, r at next level, right associativity).
Notation "' p <- r ;; k" := (bind r (fun x => let 'p := x in k))
  (at level 61, p pattern, r at next level, right associativity).

(** ** Constants of [nn_kdtree_internal] *)

Definition leaf_max_points : nat := 14.
Definition varest_max_points : nat := 128.
Definition varest_max_randsz : nat := 5.

(** ** Numbers and arrays *)

Definition Qltb (x y : Q) : bool := negb (Qle_bool y x).

(** [pnts[i]] on the flat point array. *)
Definition at_ (pnts : list Q) (i : nat) : Q := nth i pnts 0%Q.

Fixpoint list_set {A : Type} (l : list A) (i : nat) (x : A) : list A :=
  match l, i with
  | [], _ => []
  | _ :: t, O => x :: t
  | h :: t, S j => h :: list_set t j x
  end.

(** [std::swap(inds[l], inds[r])]. *)
Definition swap (inds : list nat) (l r : nat) : list nat :=
  let a := nth l inds 0 in
  let b := nth r inds 0 in
  list_set (list_set inds l b) r a.

(** ** The random stream

    [randomkit.h] is not among the sources. The build only calls
    [rk_seed] and [rk_interval]; the stream is a parameter with the one
    law the build relies on: a draw lies in [[0, max]]. *)

Class RandomKit : Type := {
  rk_state : Type;
  rk_seed : nat -> rk_state;
  rk_interval : nat -> rk_state -> nat * rk_state;
  rk_interval_le : forall max st, fst (rk_interval max st) <= max
}.

(** ** Tree nodes

    [left_ == 0 iff this node is a leaf]: the union of the source is a
    two-constructor type. A leaf keeps [indices_]; [num_points_] is the
    length of the list. *)

Inductive kdtree_node : Type :=
| Leaf (indices_ : list nat)
| Internal (left_ right_ : kdtree_node) (disc_ : Q) (disc_dim_ : nat).

Definition is_leaf (n : kdtree_node) : bool :=
  match n with
  | Leaf _ => true
  | Internal _ _ _ _ => false
  end.

(** The point identifiers below a node, leaves left to right. *)
Fixpoint node_points (n : kdtree_node) : list nat :=
  match n with
  | Leaf inds => inds
  | Internal l r _ _ => node_points l ++ node_points r
  end.

Fixpoint node_count (n : kdtree_node) : nat :=
  match n with
  | Leaf _ => 1
  | Internal l r _ _ => S (node_count l + node_count r)
  end.

(** ** choose_split *)

Definition Qsum (l : list Q) : Q := fold_left Qplus l 0%Q.

(** The sample of one dimension: [pnts[inds[n]*D + d]] for [n < count]. *)
Definition sample (pnts : list Q) (inds : list nat) (D d count : nat) : list Q :=
  map (fun n => at_ pnts (nth n inds 0 * D + d)) (seq 0 count).

Definition sum_x (pnts : list Q) (inds : list nat) (D d count : nat) : Q :=
  Qsum (sample pnts inds D d count).

Definition sum_xx (pnts : list Q) (inds : list nat) (D d count : nat) : Q :=
  Qsum (map (fun x => x * x)%Q (sample pnts inds D d count)).

Definition variance (pnts : list Q) (inds : list nat) (D d count : nat) : Q :=
  if count <=? 1 then 0%Q
  else ((sum_xx pnts inds D d count
         - (1 / inject_Z (Z.of_nat count)) * sum_x pnts inds D d count
           * sum_x pnts inds D d count)
        / inject_Z (Z.of_nat (count - 1)))%Q.

(** [operator<] of [std::pair<DiscFloat, unsigned>], and [std::greater]. *)
Definition pair_lt (a b : Q * nat) : bool :=
  Qltb (fst a) (fst b) || (negb (Qltb (fst b) (fst a)) && (snd a <? snd b)).

Definition pair_greater (a b : Q * nat) : bool := pair_lt b a.

Fixpoint insert_by {A : Type} (before : A -> A -> bool) (x : A) (l : list A) : list A :=
  match l with
  | [] => [x]
  | y :: t => if before y x then y :: insert_by before x t else x :: l
  end.

Fixpoint sort_by {A : Type} (before : A -> A -> bool) (l : list A) : list A :=
  match l with
  | [] => []
  | x :: t => insert_by before x (sort_by before t)
  end.

(** [std::partial_sort(first, first + k, last, comp)]: the first [k]
    places receive the [k] least elements in order. What the library
    leaves in the other places is not specified; both callers read the
    first [k] places only. Neither is the order of elements that compare
    equal: the model keeps them in the order of the input, and what is
    proved of search results is stated by distances, not by which of
    two equally distant points comes first. *)
Definition partial_sort {A : Type} (before : A -> A -> bool) (k : nat) (l : list A) : list A :=
  firstn k (sort_by before l).

Section Build.

Context {RK : RandomKit}.

Definition choose_split (pnts : list Q) (inds : list nat) (D : nat) (state : rk_state)
  : result (nat * Q * rk_state) :=
  let N := length inds in
  let count := Nat.min N varest_max_points in
  let var_dim := map (fun d => (variance pnts inds D d count, d)) (seq 0 D) in
  let nrand := Nat.min varest_max_randsz D in
  let top := partial_sort pair_greater nrand var_dim in
  (* nrand - 1 is an unsigned subtraction *)
  let max := if nrand =? 0 then 2 ^ 32 - 1 else nrand - 1 in
  let '(r, state') := rk_interval max state in
  match nth_error top r with
  | None => Fail OutOfBounds
  | Some vd =>
      let randd := snd vd in
      Ok (randd, (sum_x pnts inds D randd count / inject_Z (Z.of_nat count))%Q, state')
  end.

(** The partition loop of [split_points]; it runs [r - l] times. *)
Fixpoint partition_loop (n : nat) (pnts : list Q) (D disc_dim : nat) (disc : Q)
    (inds : list nat) (l r : nat) : list nat * nat :=
  match n with
  | O => (inds, l)
  | S n' =>
      if Qltb (at_ pnts (nth l inds 0 * D + disc_dim)) disc
      then partition_loop n' pnts D disc_dim disc inds (S l) r
      else partition_loop n' pnts D disc_dim disc (swap inds l (r - 1)) l (r - 1)
  end.

(** The size of the left share once the partition has run. *)
Definition left_share (N l : nat) : nat :=
  if (l =? 0) || (l =? N) then N / 2 else l.

Definition split_points
    (new_node : list nat -> rk_state -> result (kdtree_node * list nat * rk_state))
    (pnts : list Q) (inds : list nat) (D : nat) (state : rk_state)
  : result (kdtree_node * list nat * rk_state) :=
  let N := length inds in
  '(disc_dim, disc, state1) <- choose_split pnts inds D state ;;
  let '(inds1, l0) := partition_loop N pnts D disc_dim disc inds 0 N in
  let l := left_share N l0 in
  '(lft, indsl, state2) <- new_node (firstn l inds1) state1 ;;
  '(rgt, indsr, state3) <- new_node (skipn l inds1) state2 ;;
  Ok (Internal lft rgt disc disc_dim, indsl ++ indsr, state3).

(** The constructor [kdtree_node(pnts, inds, N, D, state)]. It and
    [split_points] call each other; [fuel] bounds the nesting. *)
Fixpoint kdtree_node_ctor (fuel : nat) (pnts : list Q) (D : nat)
    (inds : list nat) (state : rk_state)
  : result (kdtree_node * list nat * rk_state) :=
  if leaf_max_points <? length inds then
    match fuel with
    | O => Fail OutOfFuel
    | S fuel' => split_points (kdtree_node_ctor fuel' pnts D) pnts inds D state
    end
  else Ok (Leaf inds, inds, state).

(** [new node_type(pnts, &inds[0], N, D, &state_)]. *)
Definition new_node_type (pnts : list Q) (D : nat) (inds : list nat) (state : rk_state)
  : result (kdtree_node * list nat * rk_state) :=
  kdtree_node_ctor (length inds) pnts D inds state.

(** The loop [for (t = 0; t < ntrees; ++t) trees_.push_back(...)]: every
    iteration is handed the one array [inds], as the previous one left
    it. *)
Fixpoint create_trees (ntrees : nat) (pnts : list Q) (D : nat)
    (inds : list nat) (state : rk_state)
  : result (list kdtree_node * list nat * rk_state) :=
  match ntrees with
  | O => Ok ([], inds, state)
  | S n =>
      '(tree, inds1, state1) <- new_node_type pnts D inds state ;;
      '(trees, inds2, state2) <- create_trees n pnts D inds1 state1 ;;
      Ok (tree :: trees, inds2, state2)
  end.

Record nn_kdtree : Type := {
  trees_ : list kdtree_node;
  N_ : nat;
  D_ : nat;
  pnts_ : list Q;
  state_ : rk_state
}.

Definition nn_kdtree_ctor (pnts : list Q) (N D ntrees seed : nat) : result nn_kdtree :=
  '(trees, _, state) <- create_trees ntrees pnts D (seq 0 N) (rk_seed seed) ;;
  Ok {| trees_ := trees; N_ := N; D_ := D; pnts_ := pnts; state_ := state |}.

End Build.

(** ** The distance primitive *)

(** Modelled from the spec: [dist_l2_funcs.hpp] is not among the sources.
    [dist.func(qu, &pnts[off], 1, D, &dsq)] is the squared Euclidean
    distance between the query and the [D] values at [pnts + off]. *)
Definition dist_l2 (qu pnts : list Q) (off D : nat) : Q :=
  Qsum (map (fun d => ((at_ qu d - at_ pnts (off + d)) * (at_ qu d - at_ pnts (off + d)))%Q)
            (seq 0 D)).

(** ** The frontier queue

    [BPQ] is a [std::priority_queue] under [std::greater] of
    (bound, node pointer) pairs: [top()] is the least pair. Pairs with
    equal bounds are ordered by the addresses of their nodes; [ptr_lt]
    stands for that order and is left open. *)

Definition entry : Type := Q * kdtree_node.
Definition BPQ : Type := list entry.

Section Search.

Variable ptr_lt : kdtree_node -> kdtree_node -> bool.

Definition entry_lt (a b : entry) : bool :=
  Qltb (fst a) (fst b) || (negb (Qltb (fst b) (fst a)) && ptr_lt (snd a) (snd b)).

Definition bpq_push (e : entry) (q : BPQ) : BPQ := e :: q.

(** [pr = pri_branch.top(); pri_branch.pop();] in one step; [None] on an
    empty queue. *)
Fixpoint bpq_pop (q : BPQ) : option (entry * BPQ) :=
  match q with
  | [] => None
  | e :: t =>
      match bpq_pop t with
      | None => Some (e, [])
      | Some (m, t') => if entry_lt m e then Some (m, e :: t') else Some (e, t)
      end
  end.

(** ** kdtree_node::search *)

(** The loop [while (!cur->is_leaf())]: follows the nearer child, pushes
    the other one, and yields the indices of the leaf it stops at. *)
Fixpoint descend (cur : kdtree_node) (qu : list Q) (mindsq : Q) (pri_branch : BPQ)
  : BPQ * list nat :=
  match cur with
  | Leaf cur_inds => (pri_branch, cur_inds)
  | Internal l r disc disc_dim =>
      let diff := (at_ qu disc_dim - disc)%Q in
      if Qltb diff 0
      then descend l qu mindsq (bpq_push ((mindsq + diff * diff)%Q, r) pri_branch)
      else descend r qu mindsq (bpq_push ((mindsq + diff * diff)%Q, l) pri_branch)
  end.

(** The [for] loop over the leaf up to [ncur_inds-1], then the statement
    for the last index, which scores it and leaves [seen] as it is. With
    [ncur_inds = 0] the unsigned bound wraps and the loop reads past
    [indices_]. The indices of a built tree are below [N]; outside
    [seen] a read yields [false] and a write does nothing. *)
Fixpoint scan_leaf (cur_inds : list nat) (qu pnts : list Q) (D : nat)
    (nns : list (nat * Q)) (seen : list bool) : result (list (nat * Q) * list bool) :=
  match cur_inds with
  | [] => Fail OutOfBounds
  | [i] =>
      if nth i seen false then Ok (nns, seen)
      else Ok (nns ++ [(i, dist_l2 qu pnts (i * D) D)], seen)
  | i :: rest =>
      if nth i seen false then scan_leaf rest qu pnts D nns seen
      else scan_leaf rest qu pnts D
             (nns ++ [(i, dist_l2 qu pnts (i * D) D)]) (list_set seen i true)
  end.

Definition kdtree_node_search (this : kdtree_node) (qu : list Q) (pri_branch : BPQ)
    (nns : list (nat * Q)) (seen : list bool) (pnts : list Q) (D : nat) (mindsq : Q)
  : result (BPQ * list (nat * Q) * list bool) :=
  let '(pri_branch', cur_inds) := descend this qu mindsq pri_branch in
  '(nns', seen') <- scan_leaf cur_inds qu pnts D nns seen ;;
  Ok (pri_branch', nns', seen').

(** ** nn_kdtree::search *)

(** [second_cmp_functor]. *)
Definition second_cmp (lhs rhs : nat * Q) : bool := Qltb (snd lhs) (snd rhs).

(** "Search each tree at least once." *)
Fixpoint search_each_tree (trees : list kdtree_node) (qu : list Q) (pri_branch : BPQ)
    (nns : list (nat * Q)) (seen : list bool) (pnts : list Q) (D : nat)
  : result (BPQ * list (nat * Q) * list bool) :=
  match trees with
  | [] => Ok (pri_branch, nns, seen)
  | t :: rest =>
      '(pri_branch', nns', seen') <-
         kdtree_node_search t qu pri_branch nns seen pnts D 0%Q ;;
      search_each_tree rest qu pri_branch' nns' seen' pnts D
  end.

(** "Continue search until we've performed enough distances": the loop
    [while (nns.size() < nchecks)]. *)
Fixpoint drain (fuel : nat) (qu : list Q) (pri_branch : BPQ) (nns : list (nat * Q))
    (seen : list bool) (pnts : list Q) (D nchecks : nat)
  : result (BPQ * list (nat * Q) * list bool) :=
  match fuel with
  | O => Fail OutOfFuel
  | S fuel' =>
      if length nns <? nchecks then
        match bpq_pop pri_branch with
        | None => Fail EmptyQueue
        | Some (pr, pri_branch') =>
            '(pri_branch'', nns', seen') <-
               kdtree_node_search (snd pr) qu pri_branch' nns seen pnts D (fst pr) ;;
            drain fuel' qu pri_branch'' nns' seen' pnts D nchecks
        end
      else Ok (pri_branch, nns, seen)
  end.

(** Every pop removes a node from the frontier and the descent below it
    pushes fewer nodes than it had: the number of nodes under the queue,
    plus one, is fuel enough. *)
Definition bpq_weight (q : BPQ) : nat := list_sum (map (fun e => node_count (snd e)) q).

Definition raise_nchecks (numnn nchecks : nat) : nat :=
  if nchecks <? numnn then numnn else nchecks.

(** The search up to the end of the [while] loop: the queue, the
    candidate list [nns] and the [seen] marks. *)
Definition search_candidates {RK : RandomKit} (index : nn_kdtree) (qu : list Q)
    (numnn nchecks : nat) : result (BPQ * list (nat * Q) * list bool) :=
  let nchecks := raise_nchecks numnn nchecks in
  let pri_branch : BPQ := [] in
  let nns : list (nat * Q) := [] in
  let seen := repeat false (N_ index) in
  '(pri_branch, nns, seen) <-
     search_each_tree (trees_ index) qu pri_branch nns seen (pnts_ index) (D_ index) ;;
  drain (S (bpq_weight pri_branch)) qu pri_branch nns seen (pnts_ index) (D_ index) nchecks.

Definition nn_kdtree_search {RK : RandomKit} (index : nn_kdtree) (qu : list Q)
    (numnn nchecks : nat) : result (list (nat * Q)) :=
  '(_, nns, _) <- search_candidates index qu numnn nchecks ;;
  let sorted := partial_sort second_cmp numnn nns in
  Ok (firstn (Nat.min numnn (raise_nchecks numnn nchecks)) sorted).

End Search.

(** ** A concrete stream and a concrete address order, to run examples *)

(** Modelled from the spec: a "deterministic random stream" with
    [seed(value)] and [next_in_range(max) -> integer in [0, max]]. The
    state is a counter and a draw is the state reduced into the range. *)
Definition counter_interval (max st : nat) : nat * nat := (st mod (S max), S st).

#[local] Instance counter_rk : RandomKit.
Proof.
  refine {| rk_state := nat;
            rk_seed := fun seed => seed;
            rk_interval := counter_interval |}.
  intros max st. unfold counter_interval. simpl fst.
  pose proof (Nat.mod_upper_bound st (S max)). lia.
Defined.

Definition no_order (a b : kdtree_node) : bool := false.

(** ** Predicates used in the statements *)

(** The coordinate the loop compares: [pnts[i*D + disc_dim]]. *)
Definition coord (pnts : list Q) (D d i : nat) : Q := at_ pnts (i * D + d).

(** Which side of the threshold the partition loop sends a point to. *)
Definition goes_left (pnts : list Q) (D disc_dim : nat) (disc : Q) (i : nat) : Prop :=
  Qltb (coord pnts D disc_dim i) disc = true.
Definition goes_right (pnts : list Q) (D disc_dim : nat) (disc : Q) (i : nat) : Prop :=
  Qltb (coord pnts D disc_dim i) disc = false.

Inductive subnode : kdtree_node -> kdtree_node -> Prop :=
| subnode_here : forall n, subnode n n
| subnode_left : forall s l r disc d, subnode s l -> subnode s (Internal l r disc d)
| subnode_right : forall s l r disc d, subnode s r -> subnode s (Internal l r disc d).

(** The partition rule at one node: left of the threshold is below it,
    right of it is not. *)
Definition split_holds (pnts : list Q) (D : nat) (n : kdtree_node) : Prop :=
  match n with
  | Leaf _ => True
  | Internal l r disc d =>
      Forall (fun p => (coord pnts D d p < disc)%Q) (node_points l)
      /\ Forall (fun p => (disc <= coord pnts D d p)%Q) (node_points r)
  end.

(** The node has points on both sides of its threshold, so the partition
    loop ended with [0 < l < N]. *)
Definition two_sided (pnts : list Q) (D : nat) (n : kdtree_node) : Prop :=
  match n with
  | Leaf _ => True
  | Internal l r disc d =>
      Exists (fun p => (coord pnts D d p < disc)%Q) (node_points l ++ node_points r)
      /\ Exists (fun p => (disc <= coord pnts D d p)%Q) (node_points l ++ node_points r)
  end.

(** Every leaf below the node holds between 1 and [leaf_max_points]
    identifiers. *)
Fixpoint leaves_ok (n : kdtree_node) : Prop :=
  match n with
  | Leaf inds => 1 <= length inds <= leaf_max_points
  | Internal l r _ _ => leaves_ok l /\ leaves_ok r
  end.

(** The identifiers of a candidate list, and the points under a queue. *)
Definition ids (nns : list (nat * Q)) : list nat := map fst nns.

Definition frontier_points (q : BPQ) : list nat :=
  concat (map (fun e : entry => node_points (snd e)) q).

(** The candidate entry of point [i]. *)
Definition scored (qu pnts : list Q) (D i : nat) : nat * Q :=
  (i, dist_l2 qu pnts (i * D) D).

(** [seen] marks only points that are in the candidate list. *)
Definition seen_scored (nns : list (nat * Q)) (seen : list bool) : Prop :=
  forall i, nth i seen false = true -> In i (ids nns).

(** The state of one search call between two calls of
    [kdtree_node::search]: marks only on scored points, proper leaves
    under the queue, and candidates that carry their own distance. *)
Definition search_inv (qu pnts : list Q) (D : nat)
    (pq : BPQ) (nns : list (nat * Q)) (seen : list bool) : Prop :=
  seen_scored nns seen
  /\ Forall (fun e : entry => leaves_ok (snd e)) pq
  /\ nns = map (scored qu pnts D) (ids nns).

(** Every point of [pts] is scored or still under the queue. *)
Definition covered (pts : list nat) (pq : BPQ) (nns : list (nat * Q)) : Prop :=
  forall p, In p pts -> In p (ids nns) \/ In p (frontier_points pq).

(** Ascending by distance, and equal distances place by place. *)
Definition by_distance (a b : nat * Q) : Prop := (snd a <= snd b)%Q.

Definition same_distance (a b : nat * Q) : Prop := (snd a == snd b)%Q.

(** The exhaustive search the spec compares with: every point of
    [0, N) is scored, the list is sorted by distance, [k] are kept. *)
Definition brute_force (qu pnts : list Q) (N D k : nat) : list (nat * Q) :=
  firstn k (sort_by second_cmp (map (scored qu pnts D) (seq 0 N))).

(** [res] is an exact answer for [k] neighbours among the [N] points:
    [k] distinct points with their distances, nearest first, none of
    the points left out being nearer than one returned, and the
    distances are those of the exhaustive search. *)
Definition exact_knn (qu pnts : list Q) (N D k : nat) (res : list (nat * Q)) : Prop :=
  length res = k
  /\ NoDup (ids res)
  /\ StronglySorted by_distance res
  /\ (forall e, In e res -> fst e < N /\ e = scored qu pnts D (fst e))
  /\ (forall j e, j < N -> ~ In j (ids res) -> In e res ->
                  (snd e <= dist_l2 qu pnts (j * D) D)%Q)
  /\ Forall2 same_distance res (brute_force qu pnts N D k).


(** Every internal node below [n] splits on a dimension below [D] and
    obeys the partition rule. *)
Fixpoint splits_hold (pnts : list Q) (D : nat) (n : kdtree_node) : Prop :=
  match n with
  | Leaf _ => True
  | Internal l r _ d =>
      d < D /\ split_holds pnts D n /\ splits_hold pnts D l /\ splits_hold pnts D r
  end.

(** [n] is a node of one of the trees of the index. *)
Definition index_node {RK : RandomKit} (index : nn_kdtree) (n : kdtree_node) : Prop :=
  exists T, In T (trees_ index) /\ subnode n T.

(** ** Example inputs *)

Definition points_of (l : list Z) : list Q := map inject_Z l.

(** Two points on a line. *)
Definition two_points : list Q := points_of [0; 1]%Z.

(** One point on a line. *)
Definition one_point : list Q := points_of [0]%Z.

(** Fifteen copies of one point. *)
Definition fifteen_equal : list Q := points_of (repeat 5%Z 15).

(** Sixteen points on a line: one far to the left, fifteen in a row. *)
Definition sixteen_points : list Q :=
  points_of [-100; 10; 11; 12; 13; 14; 15; 16; 17; 18; 19; 20; 21; 22; 23; 24]%Z.

(** Thirty points in a row, 0 to 29. *)
Definition thirty_points : list Q := points_of (map Z.of_nat (seq 0 30)).

(** The indexes the examples use: the forest built over the example
    points with the counter stream, seed 42. *)
Definition index_or_empty (r : result nn_kdtree) : nn_kdtree :=
  match r with
  | Ok index => index
  | Fail _ => {| trees_ := []; N_ := 0; D_ := 0; pnts_ := []; state_ := rk_seed 0 |}
  end.

Definition one_point_index : nn_kdtree :=
  Eval vm_compute in index_or_empty (nn_kdtree_ctor one_point 1 1 1 42).

Definition two_points_index : nn_kdtree :=
  Eval vm_compute in index_or_empty (nn_kdtree_ctor two_points 2 1 1 42).

Definition two_points_two_trees : nn_kdtree :=
  Eval vm_compute in index_or_empty (nn_kdtree_ctor two_points 2 1 2 42).

Definition two_points_no_tree : nn_kdtree :=
  Eval vm_compute in index_or_empty (nn_kdtree_ctor two_points 2 1 0 42).

Definition fifteen_equal_index : nn_kdtree :=
  Eval vm_compute in index_or_empty (nn_kdtree_ctor fifteen_equal 15 1 1 42).

Definition sixteen_points_index : nn_kdtree :=
  Eval vm_compute in index_or_empty (nn_kdtree_ctor sixteen_points 16 1 1 42).

Definition thirty_points_index : nn_kdtree :=
  Eval vm_compute in index_or_empty (nn_kdtree_ctor thirty_points 30 1 1 42).

(** Two address orders: the node with fewer nodes below it lies first,
    or the node with more. *)
Definition fewer_first (a b : kdtree_node) : bool := node_count a <? node_count b.
Definition more_first (a b : kdtree_node) : bool := node_count b <? node_count a.

(** 256 points on a line: 128 at 0, then 128 at 10. *)
Definition two_clusters : list Q := points_of (repeat 0%Z 128 ++ repeat 10%Z 128).

Definition two_clusters_index : nn_kdtree :=
  Eval vm_compute in index_or_empty (nn_kdtree_ctor two_clusters 256 1 1 42).

(** ** Measures of a tree *)

Fixpoint node_depth (n : kdtree_node) : nat :=
  match n with
  | Leaf _ => 0
  | Internal l r _ _ => S (Nat.max (node_depth l) (node_depth r))
  end.

Fixpoint internal_count (n : kdtree_node) : nat :=
  match n with
  | Leaf _ => 0
  | Internal l r _ _ => S (internal_count l + internal_count r)
  end.

(** Every internal node below [n] has more than [leaf_max_points]
    points under it, and at least one under each child. *)
Fixpoint internal_big (n : kdtree_node) : Prop :=
  match n with
  | Leaf _ => True
  | Internal l r _ _ =>
      leaf_max_points < length (node_points l ++ node_points r)
      /\ 1 <= length (node_points l) /\ 1 <= length (node_points r)
      /\ internal_big l /\ internal_big r
  end.

(** One draw of [choose_split] seen from the stream: the state after
    [rk_interval(nrand-1, state)], for [D >= 1]. *)
Definition rk_advance {RK : RandomKit} (D : nat) (state : rk_state) : rk_state :=
  snd (rk_interval (Nat.min varest_max_randsz D - 1) state).

(** The range turned left by one place. *)
Definition rotate_left (inds : list nat) : list nat :=
  match inds with
  | [] => []
  | a :: t => t ++ [a]
  end.

(** The test of the partition loop on one identifier. *)
Definition below (pnts : list Q) (D disc_dim : nat) (disc : Q) (i : nat) : bool :=
  Qltb (coord pnts D disc_dim i) disc.

(** The points of a leaf the scan finds unmarked. *)
Definition unmarked (seen : list bool) (i : nat) : bool := negb (nth i seen false).


(** ** Further example inputs *)

(** The tree built over the sixteen points, and the index array as the
    build leaves it. *)
Definition sixteen_points_tree : kdtree_node :=
  Internal (Leaf [0])
    (Internal (Leaf [2; 3; 4; 5; 6; 7; 1])
       (Leaf [10; 11; 12; 13; 14; 15; 9; 8]) (255 # 15) 0)
    (155 # 16) 0.

Definition sixteen_points_array : list nat :=
  [0; 2; 3; 4; 5; 6; 7; 1; 10; 11; 12; 13; 14; 15; 9; 8].

(** An index over no point with two trees. *)
Definition no_point_index : nn_kdtree :=
  Eval vm_compute in index_or_empty (nn_kdtree_ctor [] 0 1 2 42).

(** ** The path of a descent, and distances along chosen dimensions *)




(** ** Ties on the frontier *)

(** The popped entry [pr] is alone with the least bound: every entry
    left in the queue has a strictly larger one. *)
Definition strict_top (pr : entry) (rest : BPQ) : bool :=
  forallb (fun e : entry => Qltb (fst pr) (fst e)) rest.

(** The loop [while (nns.size() < nchecks)] run under the address order
    [ptr_lt], checking at every [top()] that no other entry ties with the
    one popped. *)
Fixpoint drain_untied (ptr_lt : kdtree_node -> kdtree_node -> bool) (fuel : nat)
    (qu : list Q) (pri_branch : BPQ) (nns : list (nat * Q)) (seen : list bool)
    (pnts : list Q) (D nchecks : nat) : bool :=
  match fuel with
  | O => true
  | S fuel' =>
      if length nns <? nchecks then
        match bpq_pop ptr_lt pri_branch with
        | None => true
        | Some (pr, pri_branch') =>
            strict_top pr pri_branch'
            && match kdtree_node_search (snd pr) qu pri_branch' nns seen pnts D (fst pr) with
               | Ok (pri_branch'', nns', seen') =>
                   drain_untied ptr_lt fuel' qu pri_branch'' nns' seen' pnts D nchecks
               | Fail _ => true
               end
        end
      else true
  end.

(** No pop of the search of [qu] meets a tie. *)
Definition search_untied {RK : RandomKit} (ptr_lt : kdtree_node -> kdtree_node -> bool)
    (index : nn_kdtree) (qu : list Q) (numnn nchecks : nat) : bool :=
  match search_each_tree (trees_ index) qu [] [] (repeat false (N_ index))
          (pnts_ index) (D_ index) with
  | Ok (pri_branch, nns, seen) =>
      drain_untied ptr_lt (S (bpq_weight pri_branch)) qu pri_branch nns seen
        (pnts_ index) (D_ index) (raise_nchecks numnn nchecks)
  | Fail _ => true
  end.

(** ** A grid in the plane *)

(** The 36 points [(i / 6, i mod 6)], [i < 36], and the index over them
    with one tree. *)
Definition grid_points : list Q :=
  points_of (flat_map (fun i => [Z.of_nat (i / 6); Z.of_nat (i mod 6)]) (seq 0 36)).

Definition grid_index : nn_kdtree :=
  Eval vm_compute in index_or_empty (nn_kdtree_ctor grid_points 36 2 1 42).

(** ** Dimensions along the paths of a tree *)



(** Thirty points in the plane: fifteen on the line [x = 0], spread far
    along [y], and fifteen in a row along [x] with [y] at 700 or 701. *)
Definition skewed_points : list Q :=
  points_of (flat_map (fun i => [0%Z; (100 * Z.of_nat i)%Z]) (seq 0 15)
             ++ flat_map (fun i => [(10 + Z.of_nat i)%Z; (700 + Z.of_nat (i mod 2))%Z])
                  (seq 0 15)).

Definition skewed_index : nn_kdtree :=
  Eval vm_compute in index_or_empty (nn_kdtree_ctor skewed_points 30 2 1 43).
(** * Properties *)

Set Default Proof Using "Type".

(** ** Comparisons and outcomes *)

Lemma Qltb_true : forall x y, Qltb x y = true <-> (x < y)%Q.
Proof.
  intros x y. unfold Qltb. rewrite negb_true_iff.
  split; intro H.
  - apply Qnot_le_lt. intro Hle. apply Qle_bool_iff in Hle. congruence.
  - destruct (Qle_bool y x) eqn:E; [|reflexivity].
    apply Qle_bool_iff in E. exfalso. exact (Qlt_not_le _ _ H E).
Qed.

Lemma Qltb_false : forall x y, Qltb x y = false <-> (y <= x)%Q.
Proof.
  intros x y. unfold Qltb. rewrite negb_false_iff. apply Qle_bool_iff.
Qed.

Lemma bind_Ok : forall (A B : Type) (r : result A) (k : A -> result B) (b : B),
  bind r k = Ok b -> exists a, r = Ok a /\ k a = Ok b.
Proof.
  intros A B [a|f] k b H; simpl in H; [eauto | discriminate].
Qed.

Ltac inv_bind H :=
  let a := fresh "a" in
  let Ha := fresh "Hrun" in
  apply bind_Ok in H; destruct H as (a & Ha & H).

(** ** Arrays *)

Lemma list_set_length : forall (A : Type) (l : list A) i x,
  length (list_set l i x) = length l.
Proof.
  induction l as [|h t IH]; intros [|i] x; simpl; auto.
Qed.

Lemma list_set_middle : forall (A : Type) (pre post : list A) a x,
  list_set (pre ++ a :: post) (length pre) x = pre ++ x :: post.
Proof.
  induction pre as [|h t IH]; intros; simpl; [reflexivity | now rewrite IH].
Qed.

Lemma nth_list_set_same : forall (A : Type) (l : list A) i x d,
  i < length l -> nth i (list_set l i x) d = x.
Proof.
  induction l as [|h t IH]; intros [|i] x d Hi; simpl in *; try lia; auto.
  apply IH. lia.
Qed.

Lemma nth_list_set_other : forall (A : Type) (l : list A) i j x d,
  i <> j -> nth j (list_set l i x) d = nth j l d.
Proof.
  induction l as [|h t IH]; intros [|i] [|j] x d Hij; simpl; auto; try congruence.
Qed.

Lemma swap_same : forall pre x post,
  swap (pre ++ x :: post) (length pre) (length pre) = pre ++ x :: post.
Proof.
  intros. unfold swap. rewrite nth_middle.
  now rewrite !list_set_middle.
Qed.

Lemma swap_ends : forall pre x m y post,
  swap (pre ++ x :: m ++ y :: post) (length pre) (length pre + S (length m))
  = pre ++ y :: m ++ x :: post.
Proof.
  intros.
  assert (L : forall z, length pre + S (length m) = length (pre ++ z :: m))
    by (intro z; rewrite length_app; simpl; lia).
  assert (E : forall z w, pre ++ z :: m ++ w :: post = (pre ++ z :: m) ++ w :: post)
    by (intros z w; now rewrite <- app_assoc).
  assert (Hx : nth (length pre) (pre ++ x :: m ++ y :: post) 0 = x)
    by apply nth_middle.
  assert (Hy : nth (length pre + S (length m)) (pre ++ x :: m ++ y :: post) 0 = y)
    by (rewrite E, (L x); apply nth_middle).
  unfold swap. rewrite Hx, Hy.
  rewrite list_set_middle.
  rewrite (E y y), (L y), list_set_middle.
  now rewrite <- app_assoc.
Qed.

Lemma In_firstn : forall (A : Type) n (l : list A) x, In x (firstn n l) -> In x l.
Proof.
  intros A n l x H. rewrite <- (firstn_skipn n l). apply in_or_app. now left.
Qed.

Lemma In_skipn : forall (A : Type) n (l : list A) x, In x (skipn n l) -> In x l.
Proof.
  intros A n l x H. rewrite <- (firstn_skipn n l). apply in_or_app. now right.
Qed.

Lemma list_last_case : forall (A : Type) (l : list A),
  l = [] \/ exists l' a, l = l' ++ [a].
Proof.
  intros A l. destruct l as [|h t]; [now left | right].
  destruct (exists_last (l := h :: t)) as (l' & a & E); [discriminate | eauto].
Qed.

(** ** The partition loop *)

Section Partition.

Context {RK : RandomKit}.
Variable pnts : list Q.
Variables D disc_dim : nat.
Variable disc : Q.

Lemma partition_loop_frame : forall n pre mid post,
  length mid = n ->
  exists lo hi,
    partition_loop n pnts D disc_dim disc (pre ++ mid ++ post)
                   (length pre) (length pre + n)
    = (pre ++ lo ++ hi ++ post, length pre + length lo)
    /\ Permutation mid (lo ++ hi)
    /\ Forall (goes_left pnts D disc_dim disc) lo /\ Forall (goes_right pnts D disc_dim disc) hi.
Proof.
  induction n as [|n IH]; intros pre mid post Hlen.
  - destruct mid; [|discriminate]. exists [], []. simpl.
    rewrite Nat.add_0_r. repeat split; auto.
  - destruct mid as [|x mid]; [discriminate|]. simpl in Hlen.
    injection Hlen as Hlen. cbn [partition_loop].
    replace (nth (length pre) (pre ++ (x :: mid) ++ post) 0) with x
      by (simpl; now rewrite nth_middle).
    fold (coord pnts D disc_dim x).
    destruct (Qltb (coord pnts D disc_dim x) disc) eqn:Ex.
    + destruct (IH (pre ++ [x]) mid post Hlen) as (lo & hi & E & P & Fl & Fr).
      exists (x :: lo), hi.
      rewrite length_app in E. simpl in E.
      replace (length pre + 1) with (S (length pre)) in E by lia.
      replace (S (length pre) + n) with (length pre + S n) in E by lia.
      rewrite <- !app_assoc in E. simpl in E. simpl.
      rewrite E. split; [f_equal; lia|].
      split; [now constructor|].
      split; [now constructor | assumption].
    + replace (length pre + S n - 1) with (length pre + n) by lia.
      destruct (list_last_case _ mid) as [-> | (m & y & ->)].
      * simpl in Hlen. subst n. rewrite Nat.add_0_r. simpl.
        rewrite swap_same. exists [], [x]. simpl.
        rewrite Nat.add_0_r. repeat split; auto.
      * rewrite length_app in Hlen. simpl in Hlen.
        replace ((x :: m ++ [y]) ++ post) with (x :: m ++ y :: post)
          by (simpl; now rewrite <- app_assoc).
        replace (swap (pre ++ x :: m ++ y :: post) (length pre) (length pre + n))
          with (pre ++ y :: m ++ x :: post)
          by (rewrite <- swap_ends; f_equal; lia).
        destruct (IH pre (y :: m) (x :: post)) as (lo & hi & E & P & Fl & Fr);
          [simpl; lia|].
        exists lo, (hi ++ [x]).
        simpl in E. rewrite E. repeat split.
        -- now rewrite <- !app_assoc.
        -- rewrite app_assoc. rewrite <- P.
           rewrite (Permutation_app_comm (y :: m) [x]). simpl.
           constructor. symmetry. apply Permutation_cons_append.
        -- assumption.
        -- apply Forall_app; split; auto.
Qed.

(** What [split_points] knows when the loop has run over the whole
    range. *)
Lemma partition_loop_spec : forall inds,
  exists lo hi,
    partition_loop (length inds) pnts D disc_dim disc inds 0 (length inds)
    = (lo ++ hi, length lo)
    /\ Permutation inds (lo ++ hi)
    /\ Forall (goes_left pnts D disc_dim disc) lo /\ Forall (goes_right pnts D disc_dim disc) hi.
Proof.
  intro inds.
  destruct (partition_loop_frame (length inds) [] inds [] eq_refl)
    as (lo & hi & E & P & Fl & Fr).
  simpl in E. rewrite !app_nil_r in E.
  exists lo, hi. auto.
Qed.

End Partition.

(** ** Sorting *)

Lemma insert_by_perm : forall (A : Type) (before : A -> A -> bool) x l,
  Permutation (x :: l) (insert_by before x l).
Proof.
  intros A before x l. induction l as [|y t IH]; simpl; [reflexivity|].
  destruct (before y x); [|reflexivity].
  rewrite perm_swap. now constructor.
Qed.

Lemma sort_by_perm : forall (A : Type) (before : A -> A -> bool) l,
  Permutation l (sort_by before l).
Proof.
  intros A before l. induction l as [|x t IH]; simpl; [constructor|].
  rewrite <- insert_by_perm. now constructor.
Qed.

Lemma sort_by_length : forall (A : Type) (before : A -> A -> bool) l,
  length (sort_by before l) = length l.
Proof.
  intros. symmetry. apply Permutation_length, sort_by_perm.
Qed.

(** ** The build *)

Section BuildProps.

Context {RK : RandomKit}.

Lemma choose_split_ok : forall pnts inds D st,
  1 <= D ->
  exists d t st', choose_split pnts inds D st = Ok (d, t, st') /\ d < D.
Proof.
  intros pnts inds D st HD. unfold choose_split.
  set (count := Nat.min (length inds) varest_max_points).
  set (var_dim := map (fun d => (variance pnts inds D d count, d)) (seq 0 D)).
  set (nrand := Nat.min varest_max_randsz D).
  assert (Hn : 1 <= nrand) by (unfold nrand, varest_max_randsz; lia).
  assert (HnD : nrand <= D) by (unfold nrand; lia).
  destruct (nrand =? 0) eqn:E0; [apply Nat.eqb_eq in E0; lia|].
  pose proof (rk_interval_le (nrand - 1) st) as Hle.
  destruct (rk_interval (nrand - 1) st) as [r st'] eqn:Er. simpl in Hle.
  assert (Hlen : length (partial_sort pair_greater nrand var_dim) = nrand).
  { unfold partial_sort. rewrite length_firstn, sort_by_length.
    unfold var_dim. rewrite length_map, length_seq. lia. }
  destruct (nth_error (partial_sort pair_greater nrand var_dim) r) as [vd|] eqn:En.
  - exists (snd vd), (sum_x pnts inds D (snd vd) count / inject_Z (Z.of_nat count))%Q, st'.
    split; [reflexivity|].
    apply nth_error_In in En. unfold partial_sort in En.
    apply In_firstn in En.
    apply (Permutation_in _ (Permutation_sym (sort_by_perm _ pair_greater var_dim))) in En.
    unfold var_dim in En. apply in_map_iff in En.
    destruct En as (d & <- & Hd). apply in_seq in Hd. simpl. lia.
  - apply nth_error_None in En. lia.
Qed.

Lemma left_share_bounds : forall N l0,
  leaf_max_points < N -> l0 <= N -> 0 < left_share N l0 < N.
Proof.
  intros N l0 HN Hl. unfold left_share, leaf_max_points in *.
  assert (7 <= N / 2) by (apply Nat.div_le_lower_bound; lia).
  assert (N / 2 < N) by (apply Nat.div_lt; lia).
  destruct (l0 =? 0) eqn:E0; cbn [orb]; [lia|].
  destruct (l0 =? N) eqn:EN; [lia|].
  apply Nat.eqb_neq in E0, EN. lia.
Qed.

(** The two shares [split_points] hands to the children. *)
Lemma split_shares : forall pnts D d disc inds,
  leaf_max_points < length inds ->
  exists inds1 l0,
    partition_loop (length inds) pnts D d disc inds 0 (length inds) = (inds1, l0)
    /\ Permutation inds inds1
    /\ 0 < left_share (length inds) l0 < length inds
    /\ length (firstn (left_share (length inds) l0) inds1)
       = left_share (length inds) l0
    /\ length (skipn (left_share (length inds) l0) inds1)
       = length inds - left_share (length inds) l0.
Proof.
  intros pnts D d disc inds HN.
  destruct (partition_loop_spec pnts D d disc inds) as (lo & hi & E & P & _ & _).
  exists (lo ++ hi), (length lo). split; [exact E|]. split; [exact P|].
  pose proof (Permutation_length P) as HL. rewrite length_app in HL.
  assert (B : 0 < left_share (length inds) (length lo) < length inds)
    by (apply left_share_bounds; lia).
  split; [exact B|].
  rewrite length_firstn, length_skipn, length_app. lia.
Qed.

(** With at least one dimension and fuel for the whole range, the
    constructor returns. *)
Lemma kdtree_node_ctor_total : forall fuel pnts D inds st,
  1 <= D -> length inds <= fuel ->
  exists r, kdtree_node_ctor fuel pnts D inds st = Ok r.
Proof.
  induction fuel as [|fuel IH]; intros pnts D inds st HD Hf.
  - simpl. destruct (leaf_max_points <? length inds) eqn:E; [|eauto].
    apply Nat.ltb_lt in E. lia.
  - simpl. destruct (leaf_max_points <? length inds) eqn:E; [|eauto].
    apply Nat.ltb_lt in E. unfold split_points.
    destruct (choose_split_ok pnts inds D st HD) as (d & t & st1 & Ec & _).
    rewrite Ec. cbn [bind].
    destruct (split_shares pnts D d t inds E) as (inds1 & l0 & Ep & _ & B & Lf & Ls).
    rewrite Ep.
    destruct (IH pnts D (firstn (left_share (length inds) l0) inds1) st1 HD)
      as ([[lft indsl] st2] & El); [lia|].
    rewrite El. cbn [bind].
    destruct (IH pnts D (skipn (left_share (length inds) l0) inds1) st2 HD)
      as ([[rgt indsr] st3] & Er); [lia|].
    rewrite Er. cbn [bind]. eauto.
Qed.

(** Unfolding one successful call of the constructor. *)
Lemma kdtree_node_ctor_inv : forall fuel pnts D inds st T inds' st',
  kdtree_node_ctor fuel pnts D inds st = Ok (T, inds', st') ->
  (length inds <= leaf_max_points /\ T = Leaf inds /\ inds' = inds /\ st' = st)
  \/ (leaf_max_points < length inds /\
      exists fuel' d disc st1 inds1 l0 lft indsl st2 rgt indsr,
        fuel = S fuel'
        /\ choose_split pnts inds D st = Ok (d, disc, st1)
        /\ partition_loop (length inds) pnts D d disc inds 0 (length inds) = (inds1, l0)
        /\ kdtree_node_ctor fuel' pnts D
             (firstn (left_share (length inds) l0) inds1) st1 = Ok (lft, indsl, st2)
        /\ kdtree_node_ctor fuel' pnts D
             (skipn (left_share (length inds) l0) inds1) st2 = Ok (rgt, indsr, st')
        /\ T = Internal lft rgt disc d /\ inds' = indsl ++ indsr).
Proof.
  intros fuel pnts D inds st T inds' st' H.
  destruct fuel as [|fuel]; simpl in H;
    destruct (leaf_max_points <? length inds) eqn:E.
  - discriminate.
  - apply Nat.ltb_ge in E. injection H as <- <- <-. left. auto.
  - apply Nat.ltb_lt in E. right. split; [exact E|].
    unfold split_points in H.
    inv_bind H. destruct a as [[d disc] st1].
    destruct (partition_loop (length inds) pnts D d disc inds 0 (length inds))
      as [inds1 l0] eqn:Ep.
    inv_bind H. destruct a as [[lft indsl] st2].
    inv_bind H. destruct a as [[rgt indsr] st3].
    injection H as <- <- <-.
    exists fuel, d, disc, st1, inds1, l0, lft, indsl, st2, rgt, indsr.
    repeat split; auto.
  - apply Nat.ltb_ge in E. injection H as <- <- <-. left. auto.
Qed.

Lemma kdtree_node_ctor_points : forall fuel pnts D inds st T inds' st',
  kdtree_node_ctor fuel pnts D inds st = Ok (T, inds', st') ->
  node_points T = inds' /\ Permutation inds inds'.
Proof.
  induction fuel as [|fuel IH]; intros pnts D inds st T inds' st' H;
    apply kdtree_node_ctor_inv in H;
    destruct H as [(_ & -> & -> & _) | (HN & f' & d & disc & st1 & inds1 & l0 & lft
                     & indsl & st2 & rgt & indsr & Ef & _ & Ep & El & Er & -> & ->)];
    try (split; [reflexivity | apply Permutation_refl]); try discriminate.
  injection Ef as <-.
  apply IH in El, Er. destruct El as [El Pl], Er as [Er Pr].
  simpl. rewrite El, Er. split; [reflexivity|].
  destruct (split_shares pnts D d disc inds HN) as (i1 & l1 & Ep' & P & _).
  rewrite Ep in Ep'. injection Ep' as <- <-.
  rewrite P. rewrite <- (firstn_skipn (left_share (length inds) l0) inds1) at 1.
  now apply Permutation_app.
Qed.

Lemma left_share_two_sided : forall (lo hi : list nat),
  lo <> [] -> hi <> [] ->
  left_share (length (lo ++ hi)) (length lo) = length lo.
Proof.
  intros lo hi Hlo Hhi. unfold left_share. rewrite length_app.
  destruct lo; [congruence|]. destruct hi; [congruence|]. simpl length.
  destruct (S (length lo) =? 0) eqn:E0; [apply Nat.eqb_eq in E0; lia|].
  destruct (S (length lo) =? S (length lo) + S (length hi)) eqn:E1;
    [apply Nat.eqb_eq in E1; lia | reflexivity].
Qed.

(** At a node with points on both sides of its threshold the partition
    rule holds; this goes for every node below a built one. *)
Lemma kdtree_node_ctor_split : forall fuel pnts D inds st T inds' st',
  kdtree_node_ctor fuel pnts D inds st = Ok (T, inds', st') ->
  forall s, subnode s T -> two_sided pnts D s -> split_holds pnts D s.
Proof.
  induction fuel as [|fuel IH]; intros pnts D inds st T inds' st' H s Hs Ht;
    apply kdtree_node_ctor_inv in H;
    destruct H as [(_ & -> & -> & _) | (HN & f' & d & disc & st1 & inds1 & l0 & lft
                     & indsl & st2 & rgt & indsr & Ef & _ & Ep & El & Er & -> & ->)];
    try discriminate; try (inversion Hs; subst; exact I).
  injection Ef as <-.
  inversion Hs as [n En | s' l r dc dd Hsub | s' l r dc dd Hsub]; subst.
  2: exact (IH _ _ _ _ _ _ _ El s Hsub Ht).
  2: exact (IH _ _ _ _ _ _ _ Er s Hsub Ht).
  destruct (partition_loop_spec pnts D d disc inds) as (lo & hi & E & P & Fl & Fr).
  rewrite Ep in E. injection E as -> ->.
  destruct (kdtree_node_ctor_points _ _ _ _ _ _ _ _ El) as [Pl Ql].
  destruct (kdtree_node_ctor_points _ _ _ _ _ _ _ _ Er) as [Pr Qr].
  simpl in Ht. destruct Ht as [Hlt Hge]. rewrite Pl, Pr in Hlt, Hge.
  rewrite (Permutation_length P) in Ql, Qr.
  assert (Hall : Permutation (lo ++ hi) (indsl ++ indsr)).
  { rewrite <- (firstn_skipn (left_share (length (lo ++ hi)) (length lo)) (lo ++ hi)) at 1.
    now apply Permutation_app. }
  assert (Hlo : lo <> []).
  { intros ->. apply Exists_exists in Hlt. destruct Hlt as (p & Hp & Hpl).
    apply (Permutation_in _ (Permutation_sym Hall)) in Hp. simpl in Hp.
    rewrite Forall_forall in Fr. specialize (Fr p Hp).
    unfold goes_right in Fr. apply Qltb_false in Fr.
    exact (Qlt_not_le _ _ Hpl Fr). }
  assert (Hhi : hi <> []).
  { intros ->. apply Exists_exists in Hge. destruct Hge as (p & Hp & Hpl).
    apply (Permutation_in _ (Permutation_sym Hall)) in Hp. rewrite app_nil_r in Hp.
    rewrite Forall_forall in Fl. specialize (Fl p Hp).
    unfold goes_left in Fl. apply Qltb_true in Fl.
    exact (Qlt_not_le _ _ Fl Hpl). }
  rewrite (left_share_two_sided lo hi Hlo Hhi) in Ql, Qr.
  rewrite firstn_app, Nat.sub_diag, firstn_all, firstn_0, app_nil_r in Ql.
  rewrite skipn_app, Nat.sub_diag, skipn_all, skipn_0 in Qr. simpl in Qr.
  simpl. rewrite Pl, Pr. split.
  - apply Forall_forall. intros p Hp.
    apply (Permutation_in _ (Permutation_sym Ql)) in Hp.
    rewrite Forall_forall in Fl. apply Qltb_true. exact (Fl p Hp).
  - apply Forall_forall. intros p Hp.
    apply (Permutation_in _ (Permutation_sym Qr)) in Hp.
    rewrite Forall_forall in Fr. apply Qltb_false. exact (Fr p Hp).
Qed.

(** What the forest loop hands to, and gets from, every tree. *)
Lemma create_trees_built : forall ntrees pnts D inds st trees inds' st',
  create_trees ntrees pnts D inds st = Ok (trees, inds', st') ->
  Permutation inds inds'
  /\ Forall (fun T => exists inds0 st0 st1,
               Permutation inds inds0
               /\ kdtree_node_ctor (length inds0) pnts D inds0 st0
                  = Ok (T, node_points T, st1)) trees.
Proof.
  induction ntrees as [|n IH]; intros pnts D inds st trees inds' st' H; simpl in H.
  - injection H as <- <- <-. split; [reflexivity | constructor].
  - inv_bind H. destruct a as [[T inds1] st1].
    inv_bind H. destruct a as [[trs inds2] st2].
    injection H as <- <- <-.
    unfold new_node_type in Hrun.
    destruct (kdtree_node_ctor_points _ _ _ _ _ _ _ _ Hrun) as [PT QT].
    destruct (IH _ _ _ _ _ _ _ Hrun0) as [Pn Fn].
    split; [now rewrite QT|].
    constructor.
    + exists inds, st, st1. split; [reflexivity|]. now rewrite PT.
    + eapply Forall_impl; [|exact Fn].
      intros T' (i0 & s0 & s1 & Pi & Ei). exists i0, s0, s1.
      split; [now rewrite QT | exact Ei].
Qed.

End BuildProps.

(** ** The queue *)

Section SearchProps.

Variable ptr_lt : kdtree_node -> kdtree_node -> bool.

Lemma bpq_pop_None : forall q, bpq_pop ptr_lt q = None -> q = [].
Proof.
  intros [|x t] H; [reflexivity|]. simpl in H.
  destruct (bpq_pop ptr_lt t) as [[m t']|]; [|discriminate].
  destruct (entry_lt ptr_lt m x); discriminate.
Qed.

Lemma bpq_pop_perm : forall q e q',
  bpq_pop ptr_lt q = Some (e, q') -> Permutation q (e :: q').
Proof.
  induction q as [|x t IH]; intros e q' H; simpl in H; [discriminate|].
  destruct (bpq_pop ptr_lt t) as [[m t']|] eqn:Et.
  - specialize (IH m t' eq_refl).
    destruct (entry_lt ptr_lt m x); injection H as <- <-.
    + rewrite IH. apply perm_swap.
    + reflexivity.
  - injection H as <- <-. now rewrite (bpq_pop_None t Et).
Qed.

Lemma bpq_weight_app : forall q1 q2,
  bpq_weight (q1 ++ q2) = bpq_weight q1 + bpq_weight q2.
Proof.
  intros. unfold bpq_weight. now rewrite map_app, list_sum_app.
Qed.

Lemma bpq_weight_perm : forall q1 q2,
  Permutation q1 q2 -> bpq_weight q1 = bpq_weight q2.
Proof.
  intros q1 q2 P. unfold bpq_weight.
  induction P; simpl; try lia.
Qed.

Lemma frontier_points_app : forall q1 q2,
  frontier_points (q1 ++ q2) = frontier_points q1 ++ frontier_points q2.
Proof.
  intros. unfold frontier_points. now rewrite map_app, concat_app.
Qed.

Lemma frontier_points_perm : forall q1 q2,
  Permutation q1 q2 -> Permutation (frontier_points q1) (frontier_points q2).
Proof.
  intros q1 q2 P. unfold frontier_points.
  induction P; simpl.
  - constructor.
  - now apply Permutation_app_head.
  - rewrite !app_assoc. apply Permutation_app_tail, Permutation_app_comm.
  - etransitivity; eassumption.
Qed.


(** ** The descent *)

Lemma node_count_pos : forall n, 1 <= node_count n.
Proof. destruct n; simpl; lia. Qed.


Lemma leaves_ok_subnode : forall s n, subnode s n -> leaves_ok n -> leaves_ok s.
Proof.
  intros s n H. induction H; intro Hn; auto; simpl in Hn; destruct Hn; auto.
Qed.

Lemma descend_spec : forall cur qu mindsq pq pq' ci,
  descend cur qu mindsq pq = (pq', ci) ->
  exists pushed,
    pq' = pushed ++ pq
    /\ Permutation (node_points cur) (ci ++ frontier_points pushed)
    /\ bpq_weight pushed < node_count cur
    /\ subnode (Leaf ci) cur
    /\ Forall (fun e : entry => subnode (snd e) cur) pushed.
Proof.
  induction cur as [inds | l IHl r IHr disc d]; intros qu m pq pq' ci H; simpl in H.
  - injection H as <- <-. exists []. simpl.
    rewrite app_nil_r. repeat split; auto. constructor.
  - set (b := (m + (at_ qu d - disc) * (at_ qu d - disc))%Q) in *.
    destruct (Qltb (at_ qu d - disc) 0).
    + apply IHl in H. destruct H as (pushed & -> & P & W & S & F).
      exists (pushed ++ [(b, r)]). rewrite <- app_assoc. split; [reflexivity|].
      split.
      { simpl. rewrite frontier_points_app. unfold frontier_points at 2. simpl.
        rewrite app_nil_r, app_assoc. now apply Permutation_app_tail. }
      split.
      { rewrite bpq_weight_app. unfold bpq_weight at 2. simpl. lia. }
      split; [now apply subnode_left|].
      apply Forall_app. split.
      * eapply Forall_impl; [|exact F]. intros e He. now apply subnode_left.
      * constructor; [|constructor]. simpl. apply subnode_right, subnode_here.
    + apply IHr in H. destruct H as (pushed & -> & P & W & S & F).
      exists (pushed ++ [(b, l)]). rewrite <- app_assoc. split; [reflexivity|].
      split.
      { simpl. rewrite frontier_points_app. unfold frontier_points at 2. simpl.
        rewrite app_nil_r. rewrite P.
        rewrite (Permutation_app_comm (node_points l)).
        now rewrite app_assoc. }
      split.
      { rewrite bpq_weight_app. unfold bpq_weight at 2. simpl. lia. }
      split; [now apply subnode_right|].
      apply Forall_app. split.
      * eapply Forall_impl; [|exact F]. intros e He. now apply subnode_right.
      * constructor; [|constructor]. simpl. apply subnode_left, subnode_here.
Qed.

(** ** The leaf scan *)

Lemma scan_leaf_cons : forall i j rest qu pnts D nns seen,
  scan_leaf (i :: j :: rest) qu pnts D nns seen
  = if nth i seen false then scan_leaf (j :: rest) qu pnts D nns seen
    else scan_leaf (j :: rest) qu pnts D (nns ++ [scored qu pnts D i])
           (list_set seen i true).
Proof. reflexivity. Qed.

Lemma scan_leaf_Fail : forall ci qu pnts D nns seen f,
  scan_leaf ci qu pnts D nns seen = Fail f -> ci = [] /\ f = OutOfBounds.
Proof.
  induction ci as [|i rest IH]; intros qu pnts D nns seen f H.
  - simpl in H. injection H as <-. auto.
  - destruct rest as [|j rest].
    + simpl in H. destruct (nth i seen false); discriminate.
    + rewrite scan_leaf_cons in H.
      destruct (nth i seen false); apply IH in H; destruct H; discriminate.
Qed.

Lemma nth_list_set_true : forall (seen : list bool) i j,
  nth j (list_set seen i true) false = true ->
  nth j seen false = true \/ j = i.
Proof.
  intros seen i j H. destruct (Nat.eq_dec i j) as [->|Hij]; [now right | left].
  now rewrite nth_list_set_other in H.
Qed.

Lemma nth_list_set_keep : forall (seen : list bool) i j,
  nth j seen false = true -> nth j (list_set seen i true) false = true.
Proof.
  intros seen i j H. destruct (Nat.eq_dec i j) as [->|Hij].
  - rewrite nth_list_set_same; [reflexivity|].
    destruct (Nat.lt_ge_cases j (length seen)) as [L|L]; [exact L|].
    rewrite nth_overflow in H; [discriminate | exact L].
  - now rewrite nth_list_set_other.
Qed.

(** What one scan adds: the entries of some of the leaf's points, in
    the order of the leaf. *)
Lemma scan_leaf_spec : forall ci qu pnts D nns seen nns' seen',
  scan_leaf ci qu pnts D nns seen = Ok (nns', seen') ->
  exists new,
    nns' = nns ++ map (scored qu pnts D) new
    /\ incl new ci
    /\ length new <= length ci
    /\ length seen' = length seen
    /\ (forall i, In i ci -> In i new \/ nth i seen false = true)
    /\ (forall i, nth i seen' false = true -> nth i seen false = true \/ In i new)
    /\ (forall i, nth i seen false = true -> nth i seen' false = true)
    /\ ((forall i, In i ci -> nth i seen false = false) -> NoDup ci -> new = ci).
Proof.
  induction ci as [|i rest IH]; intros qu pnts D nns seen nns' seen' H.
  - discriminate.
  - destruct rest as [|j rest].
    + simpl in H. destruct (nth i seen false) eqn:Ei; injection H as <- <-.
      * exists []. simpl. rewrite app_nil_r.
        repeat split; auto using incl_nil_l; try lia.
        -- intros k [<-|[]]. now right.
        -- intros Hall _. rewrite (Hall i) in Ei; [discriminate | now left].
      * exists [i]. simpl. repeat split; auto using incl_refl.
    + rewrite scan_leaf_cons in H. destruct (nth i seen false) eqn:Ei.
      * apply IH in H. destruct H as (new & E & I & L & Ls & C & M & K & F).
        exists new. repeat split; auto.
        -- now apply incl_tl.
        -- simpl in *. lia.
        -- intros k [<-|Hk]; [now right | now apply C].
        -- intros Hall _. rewrite (Hall i) in Ei; [discriminate | now left].
      * apply IH in H. destruct H as (new & E & I & L & Ls & C & M & K & F).
        exists (i :: new). repeat split.
        -- rewrite E. rewrite <- app_assoc. reflexivity.
        -- intros k [<-|Hk]; [now left | right; now apply I].
        -- simpl in *. lia.
        -- rewrite Ls. apply list_set_length.
        -- intros k [<-|Hk]; [left; now left|].
           destruct (C k Hk) as [Hn|Hs]; [left; now right|].
           apply nth_list_set_true in Hs. destruct Hs as [Hs| ->];
             [now right | left; now left].
        -- intros k Hk. destruct (M k Hk) as [Hs|Hn]; [|right; now right].
           apply nth_list_set_true in Hs. destruct Hs as [Hs| ->];
             [now left | right; now left].
        -- intros k Hk. apply K. now apply nth_list_set_keep.
        -- intros Hall Hnd. inversion Hnd as [|x l Hni Hnd']; subst.
           f_equal. apply F; [|exact Hnd'].
           intros k Hk. rewrite nth_list_set_other.
           ++ apply Hall. now right.
           ++ intros ->. contradiction.
Qed.

Lemma ids_app : forall a b, ids (a ++ b) = ids a ++ ids b.
Proof. intros. unfold ids. apply map_app. Qed.

Lemma ids_scored : forall qu pnts D l, ids (map (scored qu pnts D) l) = l.
Proof.
  intros. unfold ids. rewrite map_map. simpl. apply map_id.
Qed.

(** ** One call of kdtree_node::search *)

Lemma kdtree_node_search_spec : forall this qu pq nns seen pnts D mindsq pq' nns' seen',
  kdtree_node_search this qu pq nns seen pnts D mindsq = Ok (pq', nns', seen') ->
  exists pushed ci new,
    descend this qu mindsq pq = (pushed ++ pq, ci)
    /\ pq' = pushed ++ pq
    /\ nns' = nns ++ map (scored qu pnts D) new
    /\ Permutation (node_points this) (ci ++ frontier_points pushed)
    /\ bpq_weight pushed < node_count this
    /\ subnode (Leaf ci) this
    /\ Forall (fun e : entry => subnode (snd e) this) pushed
    /\ incl new ci
    /\ length new <= length ci
    /\ length seen' = length seen
    /\ (forall i, In i ci -> In i new \/ nth i seen false = true)
    /\ (forall i, nth i seen' false = true -> nth i seen false = true \/ In i new)
    /\ (forall i, nth i seen false = true -> nth i seen' false = true)
    /\ ((forall i, In i ci -> nth i seen false = false) -> NoDup ci -> new = ci).
Proof.
  intros this qu pq nns seen pnts D m pq' nns' seen' H.
  unfold kdtree_node_search in H.
  destruct (descend this qu m pq) as [pq1 ci] eqn:Ed.
  inv_bind H. destruct a as [nns1 seen1]. injection H as <- <- <-.
  destruct (descend_spec _ _ _ _ _ _ Ed) as (pushed & -> & P & W & S & F).
  destruct (scan_leaf_spec _ _ _ _ _ _ _ _ Hrun) as (new & E & I & L & Ls & C & M & K & G).
  exists pushed, ci, new. repeat split; auto.
Qed.

Lemma kdtree_node_search_total : forall this qu pq nns seen pnts D mindsq,
  leaves_ok this ->
  exists r, kdtree_node_search this qu pq nns seen pnts D mindsq = Ok r.
Proof.
  intros this qu pq nns seen pnts D m Hok. unfold kdtree_node_search.
  destruct (descend this qu m pq) as [pq1 ci] eqn:Ed.
  destruct (descend_spec _ _ _ _ _ _ Ed) as (pushed & -> & _ & _ & S & _).
  apply (leaves_ok_subnode _ _ S) in Hok. simpl in Hok.
  destruct (scan_leaf ci qu pnts D nns seen) as [[nns1 seen1]|f] eqn:Es.
  - simpl. eauto.
  - apply scan_leaf_Fail in Es. destruct Es as [-> _]. simpl in Hok. lia.
Qed.

Lemma kdtree_node_search_Fail : forall this qu pq nns seen pnts D mindsq f,
  kdtree_node_search this qu pq nns seen pnts D mindsq = Fail f ->
  f = OutOfBounds.
Proof.
  intros this qu pq nns seen pnts D m f H. unfold kdtree_node_search in H.
  destruct (descend this qu m pq) as [pq1 ci].
  destruct (scan_leaf ci qu pnts D nns seen) as [[nns1 seen1]|f'] eqn:Es;
    simpl in H; [discriminate|].
  injection H as <-. now apply scan_leaf_Fail in Es.
Qed.

Section OneQuery.

Variable qu pnts : list Q.
Variable D : nat.

Lemma search_step : forall this pq nns seen mindsq pq' nns' seen',
  kdtree_node_search this qu pq nns seen pnts D mindsq = Ok (pq', nns', seen') ->
  leaves_ok this ->
  search_inv qu pnts D pq nns seen ->
  search_inv qu pnts D pq' nns' seen'
  /\ (exists new, nns' = nns ++ map (scored qu pnts D) new
                  /\ length new <= leaf_max_points)
  /\ (forall p, In p (node_points this) ->
                In p (ids nns') \/ In p (frontier_points pq'))
  /\ (forall p, In p (ids nns) \/ In p (frontier_points pq) ->
                In p (ids nns') \/ In p (frontier_points pq'))
  /\ bpq_weight pq' < bpq_weight pq + node_count this
  /\ length seen' = length seen.
Proof.
  intros this pq nns seen m pq' nns' seen' H Hok (Hs & Hl & Hn).
  destruct (kdtree_node_search_spec _ _ _ _ _ _ _ _ _ _ _ H)
    as (pushed & ci & new & _ & -> & -> & P & W & S & F & I & L & Ls & C & M & K & _).
  pose proof (leaves_ok_subnode _ _ S Hok) as Hci. simpl in Hci.
  split; [|split; [|split; [|split; [|split]]]].
  - split; [|split].
    + intros i Hi. rewrite ids_app, ids_scored. apply in_or_app.
      destruct (M i Hi) as [Hi'|Hi']; [left; now apply Hs | now right].
    + apply Forall_app. split; [|exact Hl].
      eapply Forall_impl; [|exact F]. intros e He.
      exact (leaves_ok_subnode _ _ He Hok).
    + rewrite ids_app, ids_scored, map_app. now rewrite <- Hn.
  - exists new. split; [reflexivity | lia].
  - intros p Hp. apply (Permutation_in _ P) in Hp.
    rewrite ids_app, ids_scored, frontier_points_app.
    apply in_app_or in Hp. destruct Hp as [Hp|Hp].
    + left. apply in_or_app. destruct (C p Hp) as [Hn'|Hs']; [now right|].
      left. now apply Hs.
    + right. apply in_or_app. now left.
  - intros p [Hp|Hp].
    + left. rewrite ids_app. apply in_or_app. now left.
    + right. rewrite frontier_points_app. apply in_or_app. now right.
  - rewrite bpq_weight_app. lia.
  - exact Ls.
Qed.

(** *** The drain loop *)

Lemma drain_no_OutOfFuel : forall fuel pq nns seen nchecks,
  bpq_weight pq < fuel ->
  drain ptr_lt fuel qu pq nns seen pnts D nchecks <> Fail OutOfFuel.
Proof.
  induction fuel as [|fuel IH]; intros pq nns seen nchecks Hw; [lia|].
  simpl. destruct (length nns <? nchecks); [|discriminate].
  destruct (bpq_pop ptr_lt pq) as [[pr pq1]|] eqn:Ep; [|discriminate].
  pose proof (bpq_weight_perm _ _ (bpq_pop_perm _ _ _ Ep)) as Hp.
  unfold bpq_weight in Hp at 2. simpl in Hp. fold (bpq_weight pq1) in Hp.
  destruct (kdtree_node_search (snd pr) qu pq1 nns seen pnts D (fst pr))
    as [[[pq2 nns2] seen2]|f] eqn:Es; simpl.
  - apply IH.
    destruct (kdtree_node_search_spec _ _ _ _ _ _ _ _ _ _ _ Es)
      as (pushed & ci & new & _ & -> & _ & _ & W & _).
    rewrite bpq_weight_app. lia.
  - apply kdtree_node_search_Fail in Es. subst f. discriminate.
Qed.

Lemma pop_inv : forall pq nns seen pr pq1,
  search_inv qu pnts D pq nns seen ->
  bpq_pop ptr_lt pq = Some (pr, pq1) ->
  leaves_ok (snd pr) /\ search_inv qu pnts D pq1 nns seen
  /\ (forall p, In p (frontier_points pq) <->
                In p (node_points (snd pr)) \/ In p (frontier_points pq1)).
Proof.
  intros pq nns seen pr pq1 (Hs & Hl & Hn) Ep.
  pose proof (bpq_pop_perm _ _ _ Ep) as P.
  pose proof (Permutation_Forall P Hl) as Hl'.
  inversion Hl' as [|x l Hx Hr]; subst.
  split; [exact Hx|]. split; [repeat split; assumption|].
  intro p. pose proof (frontier_points_perm _ _ P) as PP.
  unfold frontier_points at 2 in PP. simpl in PP. fold (frontier_points pq1) in PP.
  split; intro Hp.
  - apply (Permutation_in _ PP) in Hp. now apply in_app_or in Hp.
  - apply (Permutation_in _ (Permutation_sym PP)). now apply in_or_app.
Qed.

Lemma drain_spec : forall fuel pq nns seen nchecks pq' nns' seen' pts,
  drain ptr_lt fuel qu pq nns seen pnts D nchecks = Ok (pq', nns', seen') ->
  search_inv qu pnts D pq nns seen ->
  covered pts pq nns ->
  search_inv qu pnts D pq' nns' seen'
  /\ covered pts pq' nns'
  /\ nchecks <= length nns'
  /\ (exists more, nns' = nns ++ more)
  /\ length nns' <= Nat.max (length nns) (nchecks + (leaf_max_points - 1)).
Proof.
  induction fuel as [|fuel IH]; intros pq nns seen nchecks pq' nns' seen' pts H Hinv Hcov;
    [discriminate|].
  simpl in H. destruct (length nns <? nchecks) eqn:El.
  - apply Nat.ltb_lt in El.
    destruct (bpq_pop ptr_lt pq) as [[pr pq1]|] eqn:Ep; [|discriminate].
    inv_bind H. destruct a as [[pq2 nns2] seen2].
    destruct (pop_inv _ _ _ _ _ Hinv Ep) as (Hok & Hinv1 & Hfp).
    destruct (search_step _ _ _ _ _ _ _ _ Hrun Hok Hinv1)
      as (Hinv2 & (new & En & Ln) & Hc1 & Hc2 & _ & _).
    assert (Hcov2 : covered pts pq2 nns2).
    { intros p Hp. destruct (Hcov p Hp) as [Hi|Hf].
      - apply Hc2. now left.
      - apply Hfp in Hf. destruct Hf as [Hf|Hf]; [now apply Hc1|].
        apply Hc2. now right. }
    destruct (IH _ _ _ _ _ _ _ pts H Hinv2 Hcov2) as (Hi & Hc & Hn & (more & Em) & Hb).
    split; [exact Hi|]. split; [exact Hc|]. split; [exact Hn|]. split.
    + exists (map (scored qu pnts D) new ++ more). rewrite Em, En.
      now rewrite app_assoc.
    + rewrite En, length_app, length_map in Hb.
      unfold leaf_max_points in *. lia.
  - apply Nat.ltb_ge in El. injection H as <- <- <-.
    split; [exact Hinv|]. split; [exact Hcov|]. split; [exact El|]. split.
    + exists []. now rewrite app_nil_r.
    + lia.
Qed.

Lemma covered_all_scored : forall N nns,
  covered (seq 0 N) [] nns -> N <= length nns.
Proof.
  intros N nns Hc.
  assert (Hi : incl (seq 0 N) (ids nns)).
  { intros p Hp. unfold covered in Hc. destruct (Hc p Hp) as [H|H]; [exact H | destruct H]. }
  pose proof (NoDup_incl_length (seq_NoDup N 0) Hi) as HL.
  rewrite length_seq in HL. unfold ids in HL. now rewrite length_map in HL.
Qed.

Lemma drain_total : forall fuel pq nns seen nchecks N,
  search_inv qu pnts D pq nns seen ->
  covered (seq 0 N) pq nns ->
  nchecks <= N ->
  bpq_weight pq < fuel ->
  exists r, drain ptr_lt fuel qu pq nns seen pnts D nchecks = Ok r.
Proof.
  induction fuel as [|fuel IH]; intros pq nns seen nchecks N Hinv Hcov HN Hw; [lia|].
  simpl. destruct (length nns <? nchecks) eqn:El; [|eauto].
  apply Nat.ltb_lt in El.
  destruct (bpq_pop ptr_lt pq) as [[pr pq1]|] eqn:Ep.
  - destruct (pop_inv _ _ _ _ _ Hinv Ep) as (Hok & Hinv1 & Hfp).
    destruct (kdtree_node_search_total (snd pr) qu pq1 nns seen pnts D (fst pr) Hok)
      as ([[pq2 nns2] seen2] & Es).
    rewrite Es. simpl.
    destruct (search_step _ _ _ _ _ _ _ _ Es Hok Hinv1)
      as (Hinv2 & _ & Hc1 & Hc2 & W & _).
    apply (IH _ _ _ _ N); auto.
    + intros p Hp. destruct (Hcov p Hp) as [Hi|Hf].
      * apply Hc2. now left.
      * apply Hfp in Hf. destruct Hf as [Hf|Hf]; [now apply Hc1|].
        apply Hc2. now right.
    + pose proof (bpq_weight_perm _ _ (bpq_pop_perm _ _ _ Ep)) as Hp.
      unfold bpq_weight in Hp at 2. simpl in Hp. fold (bpq_weight pq1) in Hp. lia.
  - apply bpq_pop_None in Ep. subst pq.
    apply covered_all_scored in Hcov. lia.
Qed.

Lemma drain_floor : forall fuel pq nns seen nchecks pq' nns' seen',
  drain ptr_lt fuel qu pq nns seen pnts D nchecks = Ok (pq', nns', seen') ->
  nchecks <= length nns'.
Proof.
  induction fuel as [|fuel IH]; intros pq nns seen nchecks pq' nns' seen' H;
    [discriminate|].
  simpl in H. destruct (length nns <? nchecks) eqn:El.
  - destruct (bpq_pop ptr_lt pq) as [[pr pq1]|]; [|discriminate].
    inv_bind H. destruct a as [[pq2 nns2] seen2]. eauto.
  - apply Nat.ltb_ge in El. injection H as <- <- <-. exact El.
Qed.

(** *** The first descent into every tree *)

Lemma search_each_tree_spec : forall trees pq nns seen pq' nns' seen',
  search_each_tree trees qu pq nns seen pnts D = Ok (pq', nns', seen') ->
  Forall leaves_ok trees ->
  search_inv qu pnts D pq nns seen ->
  search_inv qu pnts D pq' nns' seen'
  /\ (forall T, In T trees -> covered (node_points T) pq' nns')
  /\ (forall p, In p (ids nns) \/ In p (frontier_points pq) ->
                In p (ids nns') \/ In p (frontier_points pq'))
  /\ length nns' <= length nns + leaf_max_points * length trees
  /\ length seen' = length seen.
Proof.
  induction trees as [|T rest IH]; intros pq nns seen pq' nns' seen' H Hok Hinv;
    simpl in H.
  - injection H as <- <- <-.
    split; [exact Hinv|]. split; [intros T []|]. split; [auto|]. split; lia.
  - inv_bind H. destruct a as [[pq1 nns1] seen1].
    inversion Hok as [|x l HT Hrest]; subst.
    destruct (search_step _ _ _ _ _ _ _ _ Hrun HT Hinv)
      as (Hinv1 & (new & En & Ln) & Hc1 & Hc2 & _ & Ls1).
    destruct (IH _ _ _ _ _ _ H Hrest Hinv1) as (Hinv2 & Hcov & Hmono & Hlen & Ls2).
    split; [exact Hinv2|]. split; [|split; [|split]].
    + intros T' [<-|HT']; [|now apply Hcov].
      intros p Hp. apply Hmono. now apply Hc1.
    + intros p Hp. apply Hmono. now apply Hc2.
    + rewrite En, length_app, length_map in Hlen. simpl length. lia.
    + congruence.
Qed.

Lemma search_each_tree_total : forall trees pq nns seen,
  Forall leaves_ok trees ->
  exists r, search_each_tree trees qu pq nns seen pnts D = Ok r.
Proof.
  induction trees as [|T rest IH]; intros pq nns seen Hok; simpl; [eauto|].
  inversion Hok as [|x l HT Hrest]; subst.
  destruct (kdtree_node_search_total T qu pq nns seen pnts D 0%Q HT)
    as ([[pq1 nns1] seen1] & Es).
  rewrite Es. simpl. now apply IH.
Qed.

Lemma search_each_tree_Fail : forall trees pq nns seen f,
  search_each_tree trees qu pq nns seen pnts D = Fail f -> f = OutOfBounds.
Proof.
  induction trees as [|T rest IH]; intros pq nns seen f H; simpl in H; [discriminate|].
  destruct (kdtree_node_search T qu pq nns seen pnts D 0) as [[[pq1 nns1] seen1]|f'] eqn:Es;
    simpl in H.
  - eauto.
  - injection H as <-. now apply kdtree_node_search_Fail in Es.
Qed.

Lemma search_inv_init : forall N, search_inv qu pnts D [] [] (repeat false N).
Proof.
  intro N. split; [|split].
  - intros i Hi. exfalso.
    destruct (Nat.lt_ge_cases i N) as [L|L].
    + rewrite nth_repeat_lt in Hi by exact L. discriminate.
    + rewrite nth_overflow in Hi; [discriminate|]. now rewrite repeat_length.
  - constructor.
  - reflexivity.
Qed.

End OneQuery.

End SearchProps.

(** ** Built indexes *)

Section IndexProps.

Context {RK : RandomKit}.

Lemma kdtree_node_ctor_leaves : forall fuel pnts D inds st T inds' st',
  kdtree_node_ctor fuel pnts D inds st = Ok (T, inds', st') ->
  1 <= length inds -> leaves_ok T.
Proof.
  induction fuel as [|fuel IH]; intros pnts D inds st T inds' st' H Hlen;
    apply kdtree_node_ctor_inv in H;
    destruct H as [(Hl & -> & -> & _) | (HN & f' & d & disc & st1 & inds1 & l0 & lft
                     & indsl & st2 & rgt & indsr & Ef & _ & Ep & El & Er & -> & ->)];
    try discriminate; try (simpl; lia).
  injection Ef as <-.
  destruct (split_shares pnts D d disc inds HN) as (i1 & l1 & Ep' & _ & B & Lf & Ls).
  rewrite Ep in Ep'. injection Ep' as <- <-.
  simpl. split; [eapply IH; [exact El | lia] | eapply IH; [exact Er | lia]].
Qed.

Lemma nn_kdtree_ctor_spec : forall pnts N D ntrees seed index,
  nn_kdtree_ctor pnts N D ntrees seed = Ok index ->
  N_ index = N /\ D_ index = D /\ pnts_ index = pnts
  /\ length (trees_ index) = ntrees
  /\ Forall (fun T => Permutation (seq 0 N) (node_points T)) (trees_ index)
  /\ (1 <= N -> Forall leaves_ok (trees_ index)).
Proof.
  intros pnts N D ntrees seed index H. unfold nn_kdtree_ctor in H.
  inv_bind H. destruct a as [[trees inds'] st']. injection H as <-. simpl.
  split; [reflexivity|]. split; [reflexivity|]. split; [reflexivity|].
  destruct (create_trees_built _ _ _ _ _ _ _ _ Hrun) as [_ F].
  assert (L : forall n pn i s t i' s',
             create_trees n pn D i s = Ok (t, i', s') -> length t = n).
  { induction n as [|n IH]; intros pn i s t i' s' E; simpl in E.
    - now injection E as <- <- <-.
    - inv_bind E. destruct a as [[T i1] s1]. inv_bind E. destruct a as [[ts i2] s2].
      injection E as <- <- <-. simpl. f_equal. eauto. }
  split; [eapply L; eassumption|]. split.
  - eapply Forall_impl; [|exact F].
    intros T (i0 & s0 & s1 & P & E).
    destruct (kdtree_node_ctor_points _ _ _ _ _ _ _ _ E) as [_ Q]. now rewrite P.
  - intro HN. eapply Forall_impl; [|exact F].
    intros T (i0 & s0 & s1 & P & E).
    eapply kdtree_node_ctor_leaves; [exact E|].
    rewrite <- (Permutation_length P), length_seq. exact HN.
Qed.

End IndexProps.

(** ** The whole search *)

Section QueryProps.

Context {RK : RandomKit}.
Variable ptr_lt : kdtree_node -> kdtree_node -> bool.

Lemma search_candidates_inv : forall index (qu : list Q) numnn nchecks,
  search_candidates ptr_lt index qu numnn nchecks
  = ('(pq, nns, seen) <-
       search_each_tree (trees_ index) qu [] [] (repeat false (N_ index))
         (pnts_ index) (D_ index) ;;
     drain ptr_lt (S (bpq_weight pq)) qu pq nns seen (pnts_ index) (D_ index)
       (raise_nchecks numnn nchecks)).
Proof. reflexivity. Qed.

Lemma search_candidates_floor : forall index qu numnn nchecks pq nns seen,
  search_candidates ptr_lt index qu numnn nchecks = Ok (pq, nns, seen) ->
  raise_nchecks numnn nchecks <= length nns.
Proof.
  intros index qu numnn nchecks pq nns seen H.
  rewrite search_candidates_inv in H. inv_bind H. destruct a as [[pq0 nns0] seen0].
  eapply drain_floor. exact H.
Qed.

Lemma raise_nchecks_ge : forall numnn nchecks,
  numnn <= raise_nchecks numnn nchecks /\ nchecks <= raise_nchecks numnn nchecks.
Proof.
  intros. unfold raise_nchecks. destruct (nchecks <? numnn) eqn:E.
  - apply Nat.ltb_lt in E. lia.
  - apply Nat.ltb_ge in E. lia.
Qed.

Lemma nn_kdtree_search_length : forall index qu numnn nchecks res,
  nn_kdtree_search ptr_lt index qu numnn nchecks = Ok res -> length res = numnn.
Proof.
  intros index qu numnn nchecks res H. unfold nn_kdtree_search in H.
  inv_bind H. destruct a as [[pq nns] seen]. injection H as <-.
  apply search_candidates_floor in Hrun.
  destruct (raise_nchecks_ge numnn nchecks) as [Hk _].
  unfold partial_sort. rewrite !length_firstn, sort_by_length. lia.
Qed.

(** The search over a built index: what holds when the loop is left. *)
Lemma search_candidates_spec : forall pnts N D ntrees seed index qu numnn nchecks pq nns seen,
  nn_kdtree_ctor pnts N D ntrees seed = Ok index ->
  1 <= N ->
  search_candidates ptr_lt index qu numnn nchecks = Ok (pq, nns, seen) ->
  search_inv qu pnts D pq nns seen
  /\ (1 <= ntrees -> covered (seq 0 N) pq nns)
  /\ raise_nchecks numnn nchecks <= length nns
  /\ length nns <= Nat.max (leaf_max_points * ntrees)
                           (raise_nchecks numnn nchecks + (leaf_max_points - 1)).
Proof.
  intros pnts N D ntrees seed index qu numnn nchecks pq nns seen Hb HN H.
  destruct (nn_kdtree_ctor_spec _ _ _ _ _ _ Hb) as (EN & ED & Ep & Et & Fp & Fl).
  specialize (Fl HN).
  rewrite search_candidates_inv in H. rewrite EN, ED, Ep in H.
  inv_bind H. destruct a as [[pq0 nns0] seen0].
  destruct (search_each_tree_spec qu pnts D _ _ _ _ _ _ _ Hrun Fl (search_inv_init qu pnts D N))
    as (Hinv0 & Hcov0 & _ & Hlen0 & _).
  assert (Hc : 1 <= ntrees -> covered (seq 0 N) pq0 nns0).
  { intro Hnt. destruct (trees_ index) as [|T rest] eqn:ET; [simpl in Et; lia|].
    inversion Fp as [|x l PT _]; subst.
    intros p Hp. apply (Hcov0 T (or_introl eq_refl)).
    now apply (Permutation_in _ PT). }
  destruct (drain_spec ptr_lt qu pnts D _ _ _ _ _ _ _ _ [] H Hinv0)
    as (Hinv & _ & Hn & _ & Hb').
  { intros p []. }
  split; [exact Hinv|]. split; [|split; [exact Hn|]].
  - intro Hnt. 
    destruct (drain_spec ptr_lt qu pnts D _ _ _ _ _ _ _ _ (seq 0 N) H Hinv0 (Hc Hnt))
      as (_ & Hcov & _). exact Hcov.
  - simpl length in Hlen0. rewrite Et in Hlen0. lia.
Qed.

Lemma search_candidates_total : forall pnts N D ntrees seed index qu numnn nchecks,
  nn_kdtree_ctor pnts N D ntrees seed = Ok index ->
  1 <= N -> 1 <= ntrees ->
  raise_nchecks numnn nchecks <= N ->
  exists r, search_candidates ptr_lt index qu numnn nchecks = Ok r.
Proof.
  intros pnts N D ntrees seed index qu numnn nchecks Hb HN Hnt Hr.
  destruct (nn_kdtree_ctor_spec _ _ _ _ _ _ Hb) as (EN & ED & Ep & Et & Fp & Fl).
  specialize (Fl HN).
  rewrite search_candidates_inv. rewrite EN, ED, Ep.
  destruct (search_each_tree_total qu pnts D (trees_ index) [] [] (repeat false N) Fl)
    as ([[pq0 nns0] seen0] & E0).
  rewrite E0. cbn [bind].
  destruct (search_each_tree_spec qu pnts D _ _ _ _ _ _ _ E0 Fl (search_inv_init qu pnts D N))
    as (Hinv0 & Hcov0 & _).
  apply (drain_total ptr_lt qu pnts D _ _ _ _ _ N); auto.
  destruct (trees_ index) as [|T rest] eqn:ET; [simpl in Et; lia|].
  inversion Fp as [|x l PT _]; subst.
  intros p Hp. apply (Hcov0 T (or_introl eq_refl)).
  now apply (Permutation_in _ PT).
Qed.

End QueryProps.

(** * The build: termination, the split rule, the shared array *)

Section BuildClaims.

Context {RK : RandomKit}.

Lemma create_trees_total : forall ntrees pnts D inds st,
  1 <= D -> exists r, create_trees ntrees pnts D inds st = Ok r.
Proof.
  induction ntrees as [|n IH]; intros pnts D inds st HD; simpl; [eauto|].
  destruct (kdtree_node_ctor_total (length inds) pnts D inds st HD (le_n _))
    as ([[T inds1] st1] & E).
  unfold new_node_type. rewrite E. cbn [bind].
  destruct (IH pnts D inds1 st1 HD) as ([[ts inds2] st2] & E2).
  rewrite E2. cbn [bind]. eauto.
Qed.

(** C8: for a point set with at least one point and one dimension, and
    any state of the random stream, the build of a tree returns, and so
    does the build of the forest; when a range of more than 14 points is
    split, whatever the dimension and the threshold, each child receives
    at least one point and fewer points than the range. *)
Theorem build_terminates : forall pnts D inds st,
  1 <= D -> 1 <= length inds ->
  (exists T inds' st', new_node_type pnts D inds st = Ok (T, inds', st'))
  /\ (forall ntrees seed, exists index,
        nn_kdtree_ctor pnts (length inds) D ntrees seed = Ok index)
  /\ (leaf_max_points < length inds ->
      forall d disc,
        let N := length inds in
        let inds1 := fst (partition_loop N pnts D d disc inds 0 N) in
        let l := left_share N (snd (partition_loop N pnts D d disc inds 0 N)) in
        0 < l < N /\ 0 < N - l < N
        /\ length (firstn l inds1) = l /\ length (skipn l inds1) = N - l).
Proof.
  intros pnts D inds st HD HN. split; [|split].
  - destruct (kdtree_node_ctor_total (length inds) pnts D inds st HD (le_n _))
      as ([[T inds'] st'] & E).
    exists T, inds', st'. exact E.
  - intros ntrees seed. unfold nn_kdtree_ctor.
    destruct (create_trees_total ntrees pnts D (seq 0 (length inds)) (rk_seed seed) HD)
      as ([[ts i2] s2] & E).
    rewrite E. cbn [bind]. eauto.
  - intros Hbig d disc N inds1 l. subst N inds1 l.
    destruct (split_shares pnts D d disc inds Hbig) as (i1 & l1 & Ep & _ & B & Lf & Ls).
    rewrite Ep. simpl fst. simpl snd. repeat split; try lia; assumption.
Qed.

(** C3, amended: in every tree of a built index, at every internal node
    that has points on both sides of its threshold, the points of the
    left subtree are below the threshold along the node's dimension and
    the points of the right subtree are not. *)
Theorem split_rule_two_sided : forall pnts N D ntrees seed index T l r disc d,
  nn_kdtree_ctor pnts N D ntrees seed = Ok index ->
  In T (trees_ index) ->
  subnode (Internal l r disc d) T ->
  two_sided pnts D (Internal l r disc d) ->
  Forall (fun p => (coord pnts D d p < disc)%Q) (node_points l)
  /\ Forall (fun p => (disc <= coord pnts D d p)%Q) (node_points r).
Proof.
  intros pnts N D ntrees seed index T l r disc d Hb HT Hs Ht.
  unfold nn_kdtree_ctor in Hb. inv_bind Hb. destruct a as [[trees inds'] st'].
  injection Hb as <-. simpl in HT.
  destruct (create_trees_built _ _ _ _ _ _ _ _ Hrun) as [_ F].
  rewrite Forall_forall in F. destruct (F T HT) as (i0 & s0 & s1 & _ & E).
  exact (kdtree_node_ctor_split _ _ _ _ _ _ _ _ E _ Hs Ht).
Qed.

Lemma create_trees_prefix : forall t k pnts D inds st trees inds' st',
  create_trees (t + S k) pnts D inds st = Ok (trees, inds', st') ->
  exists trees_t inds_t st_t T inds1 st1,
    create_trees t pnts D inds st = Ok (trees_t, inds_t, st_t)
    /\ new_node_type pnts D inds_t st_t = Ok (T, inds1, st1)
    /\ create_trees (S t) pnts D inds st = Ok (trees_t ++ [T], inds1, st1)
    /\ nth_error trees t = Some T.
Proof.
  induction t as [|t IH]; intros k pnts D inds st trees inds' st' H.
  - simpl in H. inv_bind H. destruct a as [[T inds1] st1].
    inv_bind H. destruct a as [[ts inds2] st2]. injection H as <- <- <-.
    exists [], inds, st, T, inds1, st1. simpl. rewrite Hrun. simpl. auto.
  - simpl in H. inv_bind H. destruct a as [[T0 inds0] st0].
    inv_bind H. destruct a as [[ts inds2] st2]. injection H as <- <- <-.
    destruct (IH _ _ _ _ _ _ _ _ Hrun0)
      as (trees_t & inds_t & st_t & T & inds1 & st1 & E1 & E2 & E3 & E4).
    exists (T0 :: trees_t), inds_t, st_t, T, inds1, st1.
    split; [|split; [exact E2|split; [|exact E4]]].
    + simpl. rewrite Hrun. cbn [bind]. rewrite E1. reflexivity.
    + change (create_trees (S (S t)) pnts D inds st)
        with ('(tree, i1, s1) <- new_node_type pnts D inds st ;;
              '(trs, i2, s2) <- create_trees (S t) pnts D i1 s1 ;;
              Ok (tree :: trs, i2, s2)).
      rewrite Hrun. cbn [bind]. rewrite E3. reflexivity.
Qed.

(** C6, amended: the forest loop hands the one array [inds] to every
    tree in turn. The first tree starts from the identity [0, N); tree
    [t] starts from the array as the trees before it left it, which is a
    permutation of [0, N). *)
Theorem trees_share_the_index_array : forall pnts N D ntrees seed index t,
  nn_kdtree_ctor pnts N D ntrees seed = Ok index ->
  t < ntrees ->
  exists trees_t inds_t st_t T inds1 st1,
    create_trees t pnts D (seq 0 N) (rk_seed seed) = Ok (trees_t, inds_t, st_t)
    /\ new_node_type pnts D inds_t st_t = Ok (T, inds1, st1)
    /\ create_trees (S t) pnts D (seq 0 N) (rk_seed seed) = Ok (trees_t ++ [T], inds1, st1)
    /\ nth_error (trees_ index) t = Some T
    /\ Permutation (seq 0 N) inds_t
    /\ (t = 0 -> inds_t = seq 0 N).
Proof.
  intros pnts N D ntrees seed index t Hb Ht.
  unfold nn_kdtree_ctor in Hb. inv_bind Hb. destruct a as [[trees inds'] st'].
  injection Hb as <-. simpl.
  replace ntrees with (t + S (ntrees - S t)) in Hrun by lia.
  destruct (create_trees_prefix _ _ _ _ _ _ _ _ _ Hrun)
    as (trees_t & inds_t & st_t & T & inds1 & st1 & E1 & E2 & E3 & E4).
  exists trees_t, inds_t, st_t, T, inds1, st1.
  repeat split; auto.
  - now destruct (create_trees_built _ _ _ _ _ _ _ _ E1).
  - intros ->. simpl in E1. now injection E1 as <- <- <-.
Qed.

End BuildClaims.

(** The build of one tree over the sixteen points returns. *)
Lemma build_terminates_witness :
  exists T inds' st', new_node_type sixteen_points 1 (seq 0 16) (rk_seed 42) = Ok (T, inds', st').
Proof.
  apply (build_terminates sixteen_points 1 (seq 0 16) (rk_seed 42)).
  - apply le_n.
  - vm_compute. lia.
Defined.

Lemma one_point_index_built : nn_kdtree_ctor one_point 1 1 1 42 = Ok one_point_index.
Proof. vm_compute. reflexivity. Qed.

Lemma two_points_index_built : nn_kdtree_ctor two_points 2 1 1 42 = Ok two_points_index.
Proof. vm_compute. reflexivity. Qed.

Lemma two_points_two_trees_built :
  nn_kdtree_ctor two_points 2 1 2 42 = Ok two_points_two_trees.
Proof. vm_compute. reflexivity. Qed.

Lemma two_points_no_tree_built :
  nn_kdtree_ctor two_points 2 1 0 42 = Ok two_points_no_tree.
Proof. vm_compute. reflexivity. Qed.

Lemma fifteen_equal_index_built :
  nn_kdtree_ctor fifteen_equal 15 1 1 42 = Ok fifteen_equal_index.
Proof. vm_compute. reflexivity. Qed.

Lemma sixteen_points_index_built :
  nn_kdtree_ctor sixteen_points 16 1 1 42 = Ok sixteen_points_index.
Proof. vm_compute. reflexivity. Qed.

(** C3 as stated fails at a node made by the fallback: the fifteen equal
    points all sit on the threshold, the partition loop ends with
    [l = 0], and the left child receives seven points that are not
    below the threshold. *)
Lemma split_rule_fallback_counterexample :
  exists T l r disc d p,
    In T (trees_ fifteen_equal_index)
    /\ subnode (Internal l r disc d) T
    /\ In p (node_points l)
    /\ ~ (coord fifteen_equal 1 d p < disc)%Q.
Proof.
  exists (Internal (Leaf [1; 2; 3; 4; 5; 6; 7]) (Leaf [8; 9; 10; 11; 12; 13; 14; 0])
            (75 # 15) 0),
    (Leaf [1; 2; 3; 4; 5; 6; 7]), (Leaf [8; 9; 10; 11; 12; 13; 14; 0]), (75 # 15)%Q, 0, 1.
  split; [left; reflexivity|]. split; [apply subnode_here|].
  split; [left; reflexivity|].
  apply Qle_not_lt. vm_compute. discriminate.
Qed.

Lemma split_rule_two_sided_witness :
  Forall (fun p => (coord sixteen_points 1 0 p < 255 # 15)%Q)
         (node_points (Leaf [2; 3; 4; 5; 6; 7; 1]))
  /\ Forall (fun p => (255 # 15 <= coord sixteen_points 1 0 p)%Q)
            (node_points (Leaf [10; 11; 12; 13; 14; 15; 9; 8])).
Proof.
  apply (split_rule_two_sided sixteen_points 16 1 1 42 sixteen_points_index
           (Internal (Leaf [0])
              (Internal (Leaf [2; 3; 4; 5; 6; 7; 1])
                 (Leaf [10; 11; 12; 13; 14; 15; 9; 8]) (255 # 15) 0)
              (155 # 16) 0)).
  - vm_compute. reflexivity.
  - left. reflexivity.
  - apply subnode_right, subnode_here.
  - split.
    + apply Exists_cons_hd. vm_compute. reflexivity.
    + simpl. do 7 apply Exists_cons_tl. apply Exists_cons_hd.
      vm_compute. discriminate.
Defined.

(** C6 as stated fails for the second tree: the first tree's partition
    has rearranged the array it starts from. *)
Lemma second_tree_array_counterexample :
  exists trees inds st,
    create_trees 1 sixteen_points 1 (seq 0 16) (rk_seed 42) = Ok (trees, inds, st)
    /\ inds = [0; 2; 3; 4; 5; 6; 7; 1; 10; 11; 12; 13; 14; 15; 9; 8]
    /\ inds <> seq 0 16.
Proof.
  eexists. eexists. eexists. split; [vm_compute; reflexivity|].
  split; [reflexivity | discriminate].
Qed.

Lemma trees_share_the_index_array_witness :
  exists trees_t inds_t st_t T inds1 st1,
    create_trees 1 sixteen_points 1 (seq 0 16) (rk_seed 42) = Ok (trees_t, inds_t, st_t)
    /\ new_node_type sixteen_points 1 inds_t st_t = Ok (T, inds1, st1)
    /\ create_trees 2 sixteen_points 1 (seq 0 16) (rk_seed 42)
       = Ok (trees_t ++ [T], inds1, st1)
    /\ nth_error (trees_ (index_or_empty (nn_kdtree_ctor sixteen_points 16 1 2 42))) 1
       = Some T
    /\ Permutation (seq 0 16) inds_t
    /\ (1 = 0 -> inds_t = seq 0 16).
Proof.
  apply (trees_share_the_index_array sixteen_points 16 1 2 42
           (index_or_empty (nn_kdtree_ctor sixteen_points 16 1 2 42)) 1).
  - vm_compute. reflexivity.
  - lia.
Defined.

(** * The search: results, budget, the empty queue *)

Section SearchClaims.

Context {RK : RandomKit}.
Variable ptr_lt : kdtree_node -> kdtree_node -> bool.

(** C2, amended: a search that returns yields exactly [numnn] pairs,
    whatever the number of points; over an index with at least one tree
    and at least one point it does return when neither [numnn] nor the
    budget exceeds the number of points, and [numnn] is then
    [min numnn N]. *)
Theorem search_returns_numnn : forall pnts N D ntrees seed index qu numnn nchecks,
  nn_kdtree_ctor pnts N D ntrees seed = Ok index ->
  (forall res, nn_kdtree_search ptr_lt index qu numnn nchecks = Ok res ->
               length res = numnn)
  /\ (1 <= N -> 1 <= ntrees -> numnn <= N -> nchecks <= N ->
      exists res, nn_kdtree_search ptr_lt index qu numnn nchecks = Ok res
                  /\ length res = Nat.min numnn N).
Proof.
  intros pnts N D ntrees seed index qu numnn nchecks Hb.
  split; [intros res; apply nn_kdtree_search_length|].
  intros HN Hnt Hk Hc.
  assert (Hr : raise_nchecks numnn nchecks <= N)
    by (unfold raise_nchecks; destruct (nchecks <? numnn); assumption).
  destruct (search_candidates_total ptr_lt _ _ _ _ _ _ qu numnn nchecks Hb HN Hnt Hr)
    as ([[pq nns] seen] & E).
  unfold nn_kdtree_search. rewrite E. cbn [bind].
  eexists. split; [reflexivity|].
  apply (search_candidates_floor ptr_lt) in E.
  destruct (raise_nchecks_ge numnn nchecks) as [Hk' _].
  unfold partial_sort. rewrite !length_firstn, sort_by_length. lia.
Qed.

(** C5, amended: the raised budget is a floor on the number of
    distances computed, and the loop checks it between leaves only: a
    search that returns has computed at least [max nchecks numnn]
    distances, and at most [14 * ntrees] or [max nchecks numnn + 13] of
    them, whichever is larger. *)
Theorem budget_is_a_floor : forall pnts N D ntrees seed index qu numnn nchecks pq nns seen,
  nn_kdtree_ctor pnts N D ntrees seed = Ok index ->
  1 <= N ->
  search_candidates ptr_lt index qu numnn nchecks = Ok (pq, nns, seen) ->
  Nat.max nchecks numnn <= length nns
  /\ length nns <= Nat.max (leaf_max_points * ntrees)
                           (Nat.max nchecks numnn + (leaf_max_points - 1)).
Proof.
  intros pnts N D ntrees seed index qu numnn nchecks pq nns seen Hb HN H.
  destruct (search_candidates_spec ptr_lt _ _ _ _ _ _ _ _ _ _ _ _ Hb HN H)
    as (_ & _ & Hlo & Hhi).
  assert (E : raise_nchecks numnn nchecks = Nat.max nchecks numnn).
  { unfold raise_nchecks. destruct (nchecks <? numnn) eqn:E.
    - apply Nat.ltb_lt in E. lia.
    - apply Nat.ltb_ge in E. lia. }
  rewrite E in *. split; assumption.
Qed.

End SearchClaims.

(** C2 as stated fails: with one point and [numnn = 2] the claim
    promises one pair; the loop pops the empty queue instead. *)
Lemma fewer_points_than_numnn_counterexample :
  nn_kdtree_ctor one_point 1 1 1 42 = Ok one_point_index
  /\ nn_kdtree_search no_order one_point_index [0%Q] 2 2 = Fail EmptyQueue
  /\ ~ (exists res, nn_kdtree_search no_order one_point_index [0%Q] 2 2 = Ok res
                    /\ length res = Nat.min 2 1).
Proof.
  split; [vm_compute; reflexivity|].
  assert (E : nn_kdtree_search no_order one_point_index [0%Q] 2 2 = Fail EmptyQueue)
    by (vm_compute; reflexivity).
  split; [exact E|]. intros (res & H & _). rewrite E in H. discriminate.
Qed.

Lemma search_returns_numnn_witness :
  exists res, nn_kdtree_search no_order sixteen_points_index [(-50)%Q] 3 10 = Ok res
              /\ length res = Nat.min 3 16.
Proof.
  apply (search_returns_numnn no_order sixteen_points 16 1 1 42 sixteen_points_index
           [(-50)%Q] 3 10).
  - vm_compute. reflexivity.
  - lia.
  - lia.
  - lia.
  - lia.
Defined.

(** C5 as stated fails: with a budget of one, the search over the two
    points scores both of them. *)
Lemma budget_exceeded_counterexample :
  exists pq nns seen,
    search_candidates no_order two_points_index [1%Q] 1 1 = Ok (pq, nns, seen)
    /\ ids nns = [0; 1]
    /\ raise_nchecks 1 1 < length (ids nns).
Proof.
  eexists. eexists. eexists. split; [vm_compute; reflexivity|].
  split; [reflexivity | vm_compute; lia].
Qed.

Lemma budget_is_a_floor_witness :
  Nat.max 1 1 <= length [(0, 1%Q); (1, 0%Q)]
  /\ length [(0, 1%Q); (1, 0%Q)]
     <= Nat.max (leaf_max_points * 1) (Nat.max 1 1 + (leaf_max_points - 1)).
Proof.
  apply (budget_is_a_floor no_order two_points 2 1 1 42 two_points_index [1%Q] 1 1
           [] [(0, 1%Q); (1, 0%Q)] [true; false]).
  - vm_compute. reflexivity.
  - lia.
  - vm_compute. reflexivity.
Defined.

(** C10: the loop pops an empty queue on an index without trees, and on
    an index with one tree when the budget exceeds the number of
    points. *)
Theorem empty_queue_pop_reachable :
  (nn_kdtree_ctor two_points 2 1 0 42 = Ok two_points_no_tree
   /\ nn_kdtree_search no_order two_points_no_tree [1%Q] 1 1 = Fail EmptyQueue)
  /\ (nn_kdtree_ctor two_points 2 1 1 42 = Ok two_points_index
      /\ nn_kdtree_search no_order two_points_index [1%Q] 1 3 = Fail EmptyQueue).
Proof.
  repeat split; vm_compute; reflexivity.
Qed.

(** C1 at the failing input: two trees over the two points. The last
    index of the first tree's leaf is scored and not marked, the second
    tree scores it again, and the result holds point 1 twice. *)
Theorem last_leaf_index_scored_twice :
  nn_kdtree_ctor two_points 2 1 2 42 = Ok two_points_two_trees
  /\ nn_kdtree_search no_order two_points_two_trees [1%Q] 2 2 = Ok [(1, 0%Q); (1, 0%Q)]
  /\ ~ NoDup (ids [(1, 0%Q); (1, 0%Q)]).
Proof.
  split; [vm_compute; reflexivity|]. split; [vm_compute; reflexivity|].
  intro H. inversion H as [|x l Hn _]; subst. apply Hn. left. reflexivity.
Qed.

(** * Sorted candidate lists *)

Lemma second_cmp_false : forall a b, second_cmp a b = false -> by_distance b a.
Proof. intros a b H. unfold second_cmp in H. now apply Qltb_false in H. Qed.

Lemma second_cmp_true : forall a b, second_cmp a b = true -> by_distance a b.
Proof.
  intros a b H. unfold second_cmp in H. apply Qltb_true in H.
  unfold by_distance. now apply Qlt_le_weak.
Qed.

Lemma by_distance_trans : forall a b c, by_distance a b -> by_distance b c -> by_distance a c.
Proof. unfold by_distance. intros a b c. apply Qle_trans. Qed.

Lemma insert_by_sorted : forall x l,
  StronglySorted by_distance l -> StronglySorted by_distance (insert_by second_cmp x l).
Proof.
  intros x l H. induction H as [|y t Ht IH Hy]; simpl.
  - constructor; constructor.
  - destruct (second_cmp y x) eqn:E.
    + constructor; [exact IH|].
      apply (Permutation_Forall (insert_by_perm _ second_cmp x t)).
      constructor; [now apply second_cmp_true | exact Hy].
    + apply second_cmp_false in E. constructor; [now constructor|].
      constructor; [exact E|].
      eapply Forall_impl; [|exact Hy]. intros z. now apply by_distance_trans.
Qed.

Lemma sort_by_sorted : forall l, StronglySorted by_distance (sort_by second_cmp l).
Proof.
  induction l as [|x t IH]; simpl; [constructor | now apply insert_by_sorted].
Qed.

Lemma StronglySorted_firstn : forall (A : Type) (R : A -> A -> Prop) k l,
  StronglySorted R l -> StronglySorted R (firstn k l).
Proof.
  intros A R k l H. revert k. induction H as [|x t Ht IH Hx]; intros [|k]; simpl;
    try constructor; auto.
  rewrite Forall_forall in *. intros y Hy. apply Hx. eapply In_firstn. exact Hy.
Qed.

Lemma StronglySorted_firstn_skipn : forall (A : Type) (R : A -> A -> Prop) k l x y,
  StronglySorted R l -> In x (firstn k l) -> In y (skipn k l) -> R x y.
Proof.
  intros A R k l x y H. revert k. induction H as [|z t Ht IH Hz]; intros [|k] Hx Hy;
    simpl in *; try contradiction.
  destruct Hx as [<-|Hx].
  - rewrite Forall_forall in Hz. apply Hz. eapply In_skipn. exact Hy.
  - eapply IH; eassumption.
Qed.

Lemma StronglySorted_remove : forall (A : Type) (R : A -> A -> Prop) u a v,
  StronglySorted R (u ++ a :: v) ->
  StronglySorted R (u ++ v) /\ Forall (fun x => R x a) u.
Proof.
  intros A R u a v. induction u as [|c u IH]; simpl; intro H.
  - apply StronglySorted_inv in H. destruct H as [H _]. split; [exact H | constructor].
  - apply StronglySorted_inv in H. destruct H as [H Hc].
    destruct (IH H) as [Hs Hf]. split.
    + constructor; [exact Hs|].
      rewrite Forall_forall in *. intros x Hx. apply Hc.
      apply in_app_or in Hx. apply in_or_app. destruct Hx; [now left | right; now right].
    + constructor; [|exact Hf].
      rewrite Forall_forall in Hc. apply Hc. apply in_or_app. right. now left.
Qed.

Lemma Forall2_same_distance_refl : forall l, Forall2 same_distance l l.
Proof.
  induction l; constructor; auto. unfold same_distance. reflexivity.
Qed.

Lemma Forall2_same_distance_trans : forall l1 l2 l3,
  Forall2 same_distance l1 l2 -> Forall2 same_distance l2 l3 ->
  Forall2 same_distance l1 l3.
Proof.
  intros l1 l2 l3 H. revert l3. induction H as [|a b t1 t2 Hab _ IH]; intros l3 H3;
    inversion H3; subst; constructor; auto.
  unfold same_distance in *. etransitivity; eassumption.
Qed.

(** Moving an element along a run of equal distances. *)
Lemma same_distance_shift : forall u b a v,
  same_distance b a ->
  Forall (fun x => by_distance b x /\ by_distance x a) u ->
  Forall2 same_distance (b :: u ++ v) (u ++ a :: v).
Proof.
  induction u as [|c u IH]; intros b a v Hba Hu; simpl.
  - constructor; [exact Hba | apply Forall2_same_distance_refl].
  - inversion Hu as [|x l [Hbc Hca] Hu']; subst.
    unfold same_distance, by_distance in *.
    assert (Hcb : (snd b == snd c)%Q).
    { apply Qle_antisym; [exact Hbc|]. rewrite Hba. exact Hca. }
    constructor; [exact Hcb|].
    apply IH.
    + rewrite <- Hcb. exact Hba.
    + eapply Forall_impl; [|exact Hu']. intros x [H1 H2]. split; [|exact H2].
      rewrite <- Hcb. exact H1.
Qed.

(** Two sorted arrangements of the same candidates show the same
    distances place by place. *)
Lemma sorted_perm_same_distance : forall l1 l2,
  Permutation l1 l2 ->
  StronglySorted by_distance l1 -> StronglySorted by_distance l2 ->
  Forall2 same_distance l1 l2.
Proof.
  induction l1 as [|a l1 IH]; intros l2 P S1 S2.
  - apply Permutation_nil in P. subst. constructor.
  - destruct l2 as [|b l2].
    { apply Permutation_sym, Permutation_nil in P. discriminate. }
    apply StronglySorted_inv in S1. destruct S1 as [S1 Ha].
    pose proof S2 as S2full.
    apply StronglySorted_inv in S2. destruct S2 as [S2 Hb].
    rewrite Forall_forall in Ha, Hb.
    assert (Iab : In a (b :: l2)) by (apply (Permutation_in _ P); now left).
    assert (Iba : In b (a :: l1))
      by (apply (Permutation_in _ (Permutation_sym P)); now left).
    assert (Hab : same_distance a b).
    { unfold same_distance. apply Qle_antisym.
      - destruct Iba as [<-|Hb1]; [apply Qle_refl | now apply Ha].
      - destruct Iab as [<-|Ha2]; [apply Qle_refl | now apply Hb]. }
    constructor; [exact Hab|].
    destruct Iab as [->|Ha2].
    + apply IH; auto. eapply Permutation_cons_inv. exact P.
    + apply in_split in Ha2. destruct Ha2 as (u & v & ->).
      assert (P' : Permutation l1 (b :: u ++ v)).
      { apply (Permutation_cons_inv (a := a)).
        rewrite P. rewrite (Permutation_middle (b :: u) v a). reflexivity. }
      destruct (StronglySorted_remove _ _ (b :: u) a v S2full) as [Srem Hua].
      apply (Forall2_same_distance_trans _ (b :: u ++ v)).
      * apply IH; auto.
      * apply same_distance_shift.
        -- unfold same_distance in *. now symmetry.
        -- inversion Hua as [|x l _ Hu]; subst.
           rewrite Forall_forall in *. intros x Hx. split; [|now apply Hu].
           apply Hb. apply in_or_app. now left.
Qed.

Lemma Forall2_firstn : forall (A B : Type) (R : A -> B -> Prop) k l1 l2,
  Forall2 R l1 l2 -> Forall2 R (firstn k l1) (firstn k l2).
Proof.
  intros A B R k l1 l2 H. revert k. induction H; intros [|k]; simpl; constructor; auto.
Qed.

Lemma NoDup_app_disjoint : forall (A : Type) (l1 l2 : list A) x,
  NoDup (l1 ++ l2) -> In x l1 -> In x l2 -> False.
Proof.
  induction l1 as [|a l1 IH]; intros l2 x H H1 H2; [contradiction|].
  simpl in H. inversion H as [|y l Hn Hd]; subst.
  destruct H1 as [->|H1].
  - apply Hn. apply in_or_app. now right.
  - eapply IH; eassumption.
Qed.

(** * Budgets compared, and the exhaustive budget *)

Section BudgetProps.

Variable ptr_lt : kdtree_node -> kdtree_node -> bool.
Variable qu pnts : list Q.
Variable D : nat.

Lemma drain_extends : forall fuel pq nns seen nchecks pq' nns' seen',
  drain ptr_lt fuel qu pq nns seen pnts D nchecks = Ok (pq', nns', seen') ->
  exists more, nns' = nns ++ more.
Proof.
  induction fuel as [|fuel IH]; intros pq nns seen nchecks pq' nns' seen' H;
    [discriminate|].
  simpl in H. destruct (length nns <? nchecks).
  - destruct (bpq_pop ptr_lt pq) as [[pr pq1]|]; [|discriminate].
    inv_bind H. destruct a as [[pq2 nns2] seen2].
    destruct (kdtree_node_search_spec _ _ _ _ _ _ _ _ _ _ _ Hrun)
      as (pushed & ci & new & _ & _ & -> & _).
    destruct (IH _ _ _ _ _ _ _ H) as (more & ->).
    exists (map (scored qu pnts D) new ++ more). now rewrite app_assoc.
  - injection H as <- <- <-. exists []. now rewrite app_nil_r.
Qed.

(** A larger budget continues the run of a smaller one. *)
Lemma drain_mono : forall fuel pq nns seen n1 n2 pq1 nns1 seen1 pq2 nns2 seen2,
  n1 <= n2 ->
  drain ptr_lt fuel qu pq nns seen pnts D n1 = Ok (pq1, nns1, seen1) ->
  drain ptr_lt fuel qu pq nns seen pnts D n2 = Ok (pq2, nns2, seen2) ->
  exists more, nns2 = nns1 ++ more.
Proof.
  induction fuel as [|fuel IH];
    intros pq nns seen n1 n2 pq1 nns1 seen1 pq2 nns2 seen2 Hn H1 H2; [discriminate|].
  pose proof H2 as H2'.
  simpl in H1, H2. destruct (length nns <? n1) eqn:E1.
  - apply Nat.ltb_lt in E1.
    assert (E2 : (length nns <? n2) = true) by (apply Nat.ltb_lt; lia).
    rewrite E2 in H2.
    destruct (bpq_pop ptr_lt pq) as [[pr pq0]|]; [|discriminate].
    destruct (kdtree_node_search (snd pr) qu pq0 nns seen pnts D (fst pr))
      as [[[pqa nnsa] seena]|f]; simpl in H1, H2; [|discriminate].
    exact (IH _ _ _ n1 n2 _ _ _ _ _ _ Hn H1 H2).
  - injection H1 as <- <- <-. eapply drain_extends. exact H2'.
Qed.

(** *** One tree: the candidates and the queue split the points *)

Lemma part_step : forall this pq nns seen mindsq pq' nns' seen' pts,
  kdtree_node_search this qu pq nns seen pnts D mindsq = Ok (pq', nns', seen') ->
  NoDup pts ->
  seen_scored nns seen ->
  Permutation (ids nns ++ node_points this ++ frontier_points pq) pts ->
  Permutation (ids nns' ++ frontier_points pq') pts.
Proof.
  intros this pq nns seen m pq' nns' seen' pts H Hnd Hs P.
  destruct (kdtree_node_search_spec _ _ _ _ _ _ _ _ _ _ _ H)
    as (pushed & ci & new & _ & -> & -> & Pn & _ & _ & _ & _ & _ & _ & _ & _ & _ & G).
  pose proof (Permutation_NoDup (Permutation_sym P) Hnd) as Hnd'.
  assert (Hci : NoDup ci).
  { apply NoDup_app_remove_l, NoDup_app_remove_r in Hnd'.
    apply (Permutation_NoDup Pn) in Hnd'. now apply NoDup_app_remove_r in Hnd'. }
  assert (Hun : forall i, In i ci -> nth i seen false = false).
  { intros i Hi. destruct (nth i seen false) eqn:E; [|reflexivity]. exfalso.
    apply (NoDup_app_disjoint _ _ _ i Hnd'); [now apply Hs|].
    apply in_or_app. left. apply (Permutation_in _ (Permutation_sym Pn)).
    apply in_or_app. now left. }
  rewrite (G Hun Hci). rewrite ids_app, ids_scored, frontier_points_app.
  rewrite <- P. rewrite <- app_assoc. apply Permutation_app_head.
  rewrite Pn. rewrite !app_assoc. reflexivity.
Qed.

Lemma drain_part : forall fuel pq nns seen nchecks pq' nns' seen' pts,
  drain ptr_lt fuel qu pq nns seen pnts D nchecks = Ok (pq', nns', seen') ->
  NoDup pts ->
  search_inv qu pnts D pq nns seen ->
  Permutation (ids nns ++ frontier_points pq) pts ->
  Permutation (ids nns' ++ frontier_points pq') pts.
Proof.
  induction fuel as [|fuel IH]; intros pq nns seen nchecks pq' nns' seen' pts H Hnd Hinv P;
    [discriminate|].
  simpl in H. destruct (length nns <? nchecks).
  - destruct (bpq_pop ptr_lt pq) as [[pr pq1]|] eqn:Ep; [|discriminate].
    inv_bind H. destruct a as [[pq2 nns2] seen2].
    destruct (pop_inv ptr_lt qu pnts D _ _ _ _ _ Hinv Ep) as (Hok & Hinv1 & _).
    destruct (search_step qu pnts D _ _ _ _ _ _ _ _ Hrun Hok Hinv1) as (Hinv2 & _).
    apply (IH _ _ _ _ _ _ _ pts H Hnd Hinv2).
    apply (part_step _ _ _ _ _ _ _ _ pts Hrun Hnd).
    + now destruct Hinv.
    + rewrite <- P. apply Permutation_app_head.
      pose proof (frontier_points_perm _ _ (bpq_pop_perm _ _ _ _ Ep)) as PP.
      unfold frontier_points at 2 in PP. simpl in PP. now rewrite PP.
  - injection H as <- <- <-. exact P.
Qed.

End BudgetProps.

Section BudgetClaims.

Context {RK : RandomKit}.
Variable ptr_lt : kdtree_node -> kdtree_node -> bool.

Lemma nn_kdtree_search_shape : forall index qu numnn nchecks res,
  nn_kdtree_search ptr_lt index qu numnn nchecks = Ok res ->
  exists pq nns seen,
    search_candidates ptr_lt index qu numnn nchecks = Ok (pq, nns, seen)
    /\ res = firstn numnn (sort_by second_cmp nns).
Proof.
  intros index qu numnn nchecks res H. unfold nn_kdtree_search in H.
  inv_bind H. destruct a as [[pq nns] seen]. injection H as <-.
  exists pq, nns, seen. split; [exact Hrun|].
  unfold partial_sort. rewrite firstn_firstn.
  destruct (raise_nchecks_ge numnn nchecks) as [Hk _].
  f_equal. lia.
Qed.

Lemma raise_nchecks_mono : forall numnn b1 b2,
  b1 <= b2 -> raise_nchecks numnn b1 <= raise_nchecks numnn b2.
Proof.
  intros numnn b1 b2 H. unfold raise_nchecks.
  destruct (Nat.ltb_spec b1 numnn); destruct (Nat.ltb_spec b2 numnn); lia.
Qed.

Lemma search_top1_mono : forall index qu numnn b1 b2 r1 r2 e1,
  b1 <= b2 ->
  nn_kdtree_search ptr_lt index qu numnn b1 = Ok r1 ->
  nn_kdtree_search ptr_lt index qu numnn b2 = Ok r2 ->
  hd_error r1 = Some e1 ->
  exists e2, hd_error r2 = Some e2 /\ (snd e2 <= snd e1)%Q.
Proof.
  intros index qu numnn b1 b2 r1 r2 e1 Hb H1 H2 He.
  apply nn_kdtree_search_shape in H1, H2.
  destruct H1 as (pq1 & nns1 & seen1 & C1 & ->).
  destruct H2 as (pq2 & nns2 & seen2 & C2 & ->).
  rewrite search_candidates_inv in C1, C2.
  destruct (search_each_tree (trees_ index) qu [] [] (repeat false (N_ index))
              (pnts_ index) (D_ index)) as [[[pq0 nns0] seen0]|f]; [|discriminate].
  cbn [bind] in C1, C2.
  destruct (drain_mono ptr_lt qu (pnts_ index) (D_ index) _ _ _ _ _ _ _ _ _ _ _ _
              (raise_nchecks_mono numnn b1 b2 Hb) C1 C2) as (more & ->).
  destruct numnn as [|k]; [discriminate|].
  assert (I1 : In e1 (sort_by second_cmp nns1)).
  { destruct (sort_by second_cmp nns1); [discriminate|]. simpl in He.
    injection He as ->. now left. }
  assert (I2 : In e1 (sort_by second_cmp (nns1 ++ more))).
  { apply (Permutation_in _ (sort_by_perm _ second_cmp (nns1 ++ more))).
    apply in_or_app. left.
    now apply (Permutation_in _ (Permutation_sym (sort_by_perm _ second_cmp nns1))). }
  pose proof (sort_by_sorted (nns1 ++ more)) as S.
  destruct (sort_by second_cmp (nns1 ++ more)) as [|e2 t]; [contradiction|].
  exists e2. split; [reflexivity|].
  apply StronglySorted_inv in S. destruct S as [_ S].
  destruct I2 as [->|I2]; [apply Qle_refl|].
  rewrite Forall_forall in S. exact (S e1 I2).
Qed.

Lemma NoDup_firstn : forall (A : Type) k (l : list A), NoDup l -> NoDup (firstn k l).
Proof.
  intros A k l H. rewrite <- (firstn_skipn k l) in H.
  now apply NoDup_app_remove_r in H.
Qed.

(** One tree and the budget [N]: every point is scored once, and the
    result is an exact answer. *)
Lemma single_tree_exhaustive : forall pnts N D seed index qu numnn,
  nn_kdtree_ctor pnts N D 1 seed = Ok index ->
  1 <= N -> numnn <= N ->
  exists res, nn_kdtree_search ptr_lt index qu numnn N = Ok res
              /\ exact_knn qu pnts N D numnn res.
Proof.
  intros pnts N D seed index qu numnn Hb HN Hk.
  assert (Hr : raise_nchecks numnn N = N).
  { unfold raise_nchecks. destruct (N <? numnn) eqn:E; [|reflexivity].
    apply Nat.ltb_lt in E. lia. }
  destruct (search_candidates_total ptr_lt _ _ _ _ _ _ qu numnn N Hb HN (le_n 1))
    as ([[pq nns] seen] & E); [rewrite Hr; apply le_n|].
  unfold nn_kdtree_search. rewrite E. cbn [bind]. rewrite Hr.
  eexists. split; [reflexivity|].
  unfold partial_sort. rewrite firstn_firstn.
  replace (Nat.min (Nat.min numnn N) numnn) with numnn by lia.
  (* the candidates are the points of the tree, each once *)
  destruct (search_candidates_spec ptr_lt _ _ _ _ _ _ _ _ _ _ _ _ Hb HN E)
    as ((_ & _ & Hmap) & _ & Hlo & _).
  rewrite Hr in Hlo.
  destruct (nn_kdtree_ctor_spec _ _ _ _ _ _ Hb) as (EN & ED & Ep & Et & Fp & Fl).
  specialize (Fl HN).
  rewrite search_candidates_inv in E. rewrite EN, ED, Ep, Hr in E.
  destruct (trees_ index) as [|T [|T' rest]]; try discriminate.
  inversion Fp as [|x l PT _]; subst x l.
  inversion Fl as [|x l HT _]; subst x l.
  cbn [search_each_tree] in E. inv_bind E. destruct a as [[pq0 nns0] seen0].
  inv_bind Hrun. destruct a as [[pq0' nns0'] seen0'].
  cbn [search_each_tree] in Hrun. injection Hrun as -> -> ->.
  assert (Hnd : NoDup (node_points T))
    by (apply (Permutation_NoDup PT), seq_NoDup).
  pose proof (search_inv_init qu pnts D N) as Hinit.
  destruct (search_step qu pnts D _ _ _ _ _ _ _ _ Hrun0 HT Hinit) as (Hinv0 & _).
  assert (P0 : Permutation (ids nns0 ++ frontier_points pq0) (node_points T)).
  { apply (part_step qu pnts D _ _ _ _ _ _ _ _ (node_points T) Hrun0 Hnd).
    - now destruct Hinit.
    - simpl. now rewrite app_nil_r. }
  pose proof (drain_part ptr_lt qu pnts D _ _ _ _ _ _ _ _ (node_points T) E Hnd Hinv0 P0)
    as P1.
  assert (Pids : Permutation (ids nns) (seq 0 N)).
  { pose proof (Permutation_length P1) as L.
    rewrite length_app, <- (Permutation_length PT), length_seq in L.
    unfold ids in L at 1. rewrite length_map in L.
    destruct (frontier_points pq) as [|p fp]; [|simpl in L; lia].
    rewrite app_nil_r in P1. now rewrite P1. }
  set (srt := sort_by second_cmp nns).
  assert (Psrt : Permutation nns srt) by apply sort_by_perm.
  assert (Ssrt : StronglySorted by_distance srt) by apply sort_by_sorted.
  assert (Hin : forall e, In e srt -> In (fst e) (seq 0 N) /\ e = scored qu pnts D (fst e)).
  { intros e He. apply (Permutation_in _ (Permutation_sym Psrt)) in He.
    rewrite Hmap in He. apply in_map_iff in He. destruct He as (i & <- & Hi).
    simpl. split; [|reflexivity]. now apply (Permutation_in _ Pids). }
  split; [|split; [|split; [|split; [|split]]]].
  - rewrite length_firstn. unfold srt. rewrite sort_by_length. lia.
  - unfold ids. rewrite <- firstn_map. apply NoDup_firstn.
    apply (Permutation_NoDup (l := seq 0 N)); [|apply seq_NoDup].
    rewrite <- Pids. unfold ids. now apply Permutation_map.
  - now apply StronglySorted_firstn.
  - intros e He. apply In_firstn in He. destruct (Hin e He) as [Hi Hs].
    apply in_seq in Hi. split; [lia | exact Hs].
  - intros j e Hj Hout He.
    assert (Hjs : In (scored qu pnts D j) srt).
    { apply (Permutation_in _ Psrt). rewrite Hmap. apply in_map.
      apply (Permutation_in _ (Permutation_sym Pids)). apply in_seq. lia. }
    rewrite <- (firstn_skipn numnn srt) in Hjs. apply in_app_or in Hjs.
    destruct Hjs as [Hjs|Hjs].
    + exfalso. apply Hout. unfold ids.
      change j with (fst (scored qu pnts D j)). now apply in_map.
    + exact (StronglySorted_firstn_skipn _ _ numnn srt e _ Ssrt He Hjs).
  - unfold brute_force. apply Forall2_firstn.
    apply sorted_perm_same_distance; [|exact Ssrt | apply sort_by_sorted].
    rewrite <- Psrt. rewrite <- (sort_by_perm _ second_cmp).
    rewrite Hmap. now apply Permutation_map.
Qed.

(** Budgets by design. Of two budgets over one index and one query the
    larger one continues the run of the smaller one, so when both
    searches return, the first distance returned with the larger budget
    is at most the first distance returned with the smaller one. Over
    an index with a single tree and at least one point, and with
    [numnn <= N], the search with budget [N] returns and its result is
    an exact answer, with the distances of the exhaustive search. *)
Lemma budget_monotone_and_single_tree_exact : forall pnts N D ntrees seed index qu numnn,
  nn_kdtree_ctor pnts N D ntrees seed = Ok index ->
  (forall b1 b2 r1 r2 e1,
      b1 < b2 ->
      nn_kdtree_search ptr_lt index qu numnn b1 = Ok r1 ->
      nn_kdtree_search ptr_lt index qu numnn b2 = Ok r2 ->
      hd_error r1 = Some e1 ->
      exists e2, hd_error r2 = Some e2 /\ (snd e2 <= snd e1)%Q)
  /\ (ntrees = 1 -> 1 <= N -> numnn <= N ->
      exists res, nn_kdtree_search ptr_lt index qu numnn N = Ok res
                  /\ exact_knn qu pnts N D numnn res).
Proof.
  intros pnts N D ntrees seed index qu numnn Hb. split.
  - intros b1 b2 r1 r2 e1 Hlt H1 H2 He.
    apply (search_top1_mono index qu numnn b1 b2 r1 r2 e1); auto. lia.
  - intros -> HN Hk. now apply (single_tree_exhaustive pnts N D seed).
Qed.

End BudgetClaims.

(** A budget the leaves cannot supply: over the two points with one
    tree, the budget 2 returns a result and the larger budget 3 returns
    none, the loop having popped the empty queue. *)
Example larger_budget_example :
  nn_kdtree_ctor two_points 2 1 1 42 = Ok two_points_index
  /\ nn_kdtree_search no_order two_points_index [1%Q] 1 2 = Ok [(1, 0%Q)]
  /\ nn_kdtree_search no_order two_points_index [1%Q] 1 3 = Fail EmptyQueue
  /\ ~ (exists r2, nn_kdtree_search no_order two_points_index [1%Q] 1 3 = Ok r2).
Proof.
  split; [vm_compute; reflexivity|]. split; [vm_compute; reflexivity|].
  assert (E : nn_kdtree_search no_order two_points_index [1%Q] 1 3 = Fail EmptyQueue)
    by (vm_compute; reflexivity).
  split; [exact E|]. intros (r2 & H). rewrite E in H. discriminate.
Qed.

Example single_tree_exhaustive_example :
  exists res, nn_kdtree_search no_order sixteen_points_index [(-50)%Q] 3 16 = Ok res
              /\ exact_knn [(-50)%Q] sixteen_points 16 1 3 res.
Proof.
  apply (budget_monotone_and_single_tree_exact no_order sixteen_points 16 1 1 42
           sixteen_points_index [(-50)%Q] 3).
  - vm_compute. reflexivity.
  - reflexivity.
  - lia.
  - lia.
Defined.

(** C7 at the failing input: two trees over the two points, two
    neighbours, budget [N = 2]. The last index of the first tree's leaf
    is scored and not marked, the second tree scores it again, the
    candidate list reaches the budget with point 1 twice, and the
    result is not the answer of the exhaustive search. *)
Theorem exhaustive_budget_not_exact :
  nn_kdtree_ctor two_points 2 1 2 42 = Ok two_points_two_trees
  /\ nn_kdtree_search no_order two_points_two_trees [1%Q] 2 2 = Ok [(1, 0%Q); (1, 0%Q)]
  /\ brute_force [1%Q] two_points 2 1 2 = [(1, 0%Q); (0, 1%Q)]
  /\ ~ exact_knn [1%Q] two_points 2 1 2 [(1, 0%Q); (1, 0%Q)].
Proof.
  split; [vm_compute; reflexivity|].
  split; [vm_compute; reflexivity|].
  split; [vm_compute; reflexivity|].
  intros (_ & Hnd & _). simpl in Hnd.
  inversion Hnd as [|x l Hn _]; subst. apply Hn. left. reflexivity.
Qed.

(** * The bounds on the frontier *)

Lemma Qsquare_nonneg : forall x : Q, (0 <= x * x)%Q.
Proof. intros. nra. Qed.

















Section BoundClaims.

Context {RK : RandomKit}.

Lemma choose_split_dim : forall pnts inds D st d disc st',
  choose_split pnts inds D st = Ok (d, disc, st') -> d < D.
Proof.
  intros pnts inds D st d disc st' H. unfold choose_split in H.
  destruct (rk_interval _ st) as [r st1].
  destruct (nth_error _ r) as [vd|] eqn:En; [|discriminate].
  injection H as <- _ _.
  apply nth_error_In in En. unfold partial_sort in En. apply In_firstn in En.
  apply (Permutation_in _ (Permutation_sym (sort_by_perm _ pair_greater _))) in En.
  apply in_map_iff in En. destruct En as (d & <- & Hd). apply in_seq in Hd.
  simpl. lia.
Qed.



End BoundClaims.



Lemma grid_index_built : nn_kdtree_ctor grid_points 36 2 1 42 = Ok grid_index.
Proof. vm_compute. reflexivity. Qed.


Lemma thirty_points_index_built :
  nn_kdtree_ctor thirty_points 30 1 1 42 = Ok thirty_points_index.
Proof. vm_compute. reflexivity. Qed.


(** * Two builds, two searches *)

Section AddressOrder.

Variables ptr1 ptr2 : kdtree_node -> kdtree_node -> bool.

(** An entry that is alone with the least bound is popped under every
    address order, and leaves the same queue. *)
Lemma bpq_pop_strict : forall q pr rest,
  bpq_pop ptr1 q = Some (pr, rest) ->
  strict_top pr rest = true ->
  bpq_pop ptr2 q = Some (pr, rest).
Proof.
  induction q as [|e t IH]; intros pr rest H Hs; [discriminate|].
  simpl in H. simpl.
  destruct (bpq_pop ptr1 t) as [[m t']|] eqn:E1.
  - destruct (entry_lt ptr1 m e) eqn:El.
    + injection H as <- <-.
      unfold strict_top in Hs. simpl in Hs. apply andb_true_iff in Hs.
      destruct Hs as [Hme Ht'].
      rewrite (IH m t' eq_refl Ht').
      unfold entry_lt. rewrite Hme. reflexivity.
    + injection H as <- <-.
      destruct (bpq_pop ptr2 t) as [[m2 t2]|] eqn:E2;
        [|apply bpq_pop_None in E2; subst t; discriminate E1].
      assert (Hin : In m2 t).
      { apply (Permutation_in _ (Permutation_sym (bpq_pop_perm _ _ _ _ E2))). now left. }
      unfold strict_top in Hs. rewrite forallb_forall in Hs.
      pose proof (Hs m2 Hin) as Hlt.
      assert (Hge : Qltb (fst m2) (fst e) = false).
      { apply Qltb_false. apply Qltb_true in Hlt. lra. }
      unfold entry_lt. rewrite Hge, Hlt. reflexivity.
  - injection H as <- <-. apply bpq_pop_None in E1. subst t. reflexivity.
Qed.

(** A run that meets no tie is the same run under every address order. *)
Lemma drain_untied_agree : forall fuel qu pq nns seen pnts D nchecks,
  drain_untied ptr1 fuel qu pq nns seen pnts D nchecks = true ->
  drain ptr1 fuel qu pq nns seen pnts D nchecks
  = drain ptr2 fuel qu pq nns seen pnts D nchecks
  /\ drain_untied ptr2 fuel qu pq nns seen pnts D nchecks = true.
Proof.
  induction fuel as [|fuel IH]; intros qu pq nns seen pnts D nchecks H;
    [split; reflexivity|].
  cbn [drain drain_untied] in *.
  destruct (length nns <? nchecks); [|split; reflexivity].
  destruct (bpq_pop ptr1 pq) as [[pr pq1]|] eqn:Ep.
  - apply andb_true_iff in H. destruct H as [Hs H].
    rewrite (bpq_pop_strict _ _ _ Ep Hs). rewrite Hs.
    destruct (kdtree_node_search (snd pr) qu pq1 nns seen pnts D (fst pr))
      as [[[pq2 nns2] seen2]|f]; [|split; reflexivity].
    cbn [bind andb]. exact (IH _ _ _ _ _ _ _ H).
  - apply bpq_pop_None in Ep. subst pq. split; reflexivity.
Qed.

End AddressOrder.

Section TwoBuilds.

Context {RK : RandomKit}.

(** C9, amended: the search reads one thing besides the index, the
    query, the count and the budget, namely the order of the node
    addresses, and it reads it only to break a tie between frontier
    entries of equal bound. [ptr1] and [ptr2] are the address orders of
    two builds of one index. If no [top()] of the search under [ptr1]
    meets a tie, the search under [ptr2] meets none either and both
    return the same outcome, whatever the two orders are. *)
Theorem untied_search_ignores_addresses : forall index qu numnn nchecks ptr1 ptr2,
  search_untied ptr1 index qu numnn nchecks = true ->
  nn_kdtree_search ptr1 index qu numnn nchecks
  = nn_kdtree_search ptr2 index qu numnn nchecks
  /\ search_untied ptr2 index qu numnn nchecks = true.
Proof.
  intros index qu numnn nchecks ptr1 ptr2 H.
  unfold nn_kdtree_search. rewrite !search_candidates_inv.
  unfold search_untied in *.
  destruct (search_each_tree (trees_ index) qu [] [] (repeat false (N_ index))
              (pnts_ index) (D_ index)) as [[[pq0 nns0] seen0]|f];
    [|split; reflexivity].
  cbn [bind].
  destruct (drain_untied_agree ptr1 ptr2 _ _ _ _ _ _ _ _ H) as [E U].
  rewrite E. split; [reflexivity | exact U].
Qed.

End TwoBuilds.

(** C9 as stated fails: over the thirty points the query 10.75 leaves
    two frontier entries with the same bound, and with nine neighbours
    and a budget of nine the one popped decides the ninth neighbour:
    point 6 under one address order, point 15 under the other. *)
Lemma address_order_counterexample :
  nn_kdtree_ctor thirty_points 30 1 1 42 = Ok thirty_points_index
  /\ ids (match nn_kdtree_search fewer_first thirty_points_index [(43 # 4)%Q] 9 9 with
          | Ok res => res
          | Fail _ => []
          end) = [11; 10; 12; 9; 13; 8; 14; 7; 6]
  /\ ids (match nn_kdtree_search more_first thirty_points_index [(43 # 4)%Q] 9 9 with
          | Ok res => res
          | Fail _ => []
          end) = [11; 10; 12; 9; 13; 8; 14; 7; 15]
  /\ nn_kdtree_search fewer_first thirty_points_index [(43 # 4)%Q] 9 9
     <> nn_kdtree_search more_first thirty_points_index [(43 # 4)%Q] 9 9.
Proof.
  split; [vm_compute; reflexivity|].
  split; [vm_compute; reflexivity|].
  split; [vm_compute; reflexivity|].
  vm_compute. discriminate.
Qed.

(** The run of the counterexample does meet a tie. *)
Example address_order_tie_example :
  search_untied fewer_first thirty_points_index [(43 # 4)%Q] 9 9 = false
  /\ search_untied more_first thirty_points_index [(43 # 4)%Q] 9 9 = false.
Proof. split; vm_compute; reflexivity. Qed.

Lemma untied_search_ignores_addresses_witness :
  nn_kdtree_search fewer_first thirty_points_index [10%Q] 9 20
  = nn_kdtree_search more_first thirty_points_index [10%Q] 9 20
  /\ search_untied more_first thirty_points_index [10%Q] 9 20 = true.
Proof.
  apply (untied_search_ignores_addresses thirty_points_index [10%Q] 9 20
           fewer_first more_first).
  vm_compute. reflexivity.
Defined.

(** The first descent from a root is not safe at a node made by the
    fallback: over the two clusters the sample is the 128 points at 0,
    the threshold is 0, no point is below it, and the left child gets
    128 points of which point 128 lies at 10. The query 10 follows the
    right child and pushes the left one with bound 100; point 128 is at
    distance 0. Hence the restriction of the bound to trees without
    such nodes. *)
Example fallback_bound_example :
  exists T pq ci b node,
    trees_ two_clusters_index = [T]
    /\ descend T [10%Q] 0 [] = (pq, ci)
    /\ In (b, node) pq
    /\ In 128 (node_points node)
    /\ (dist_l2 [10%Q] two_clusters (128 * 1) 1 < b)%Q.
Proof.
  eexists. eexists. eexists. eexists. eexists.
  split; [vm_compute; reflexivity|].
  split; [vm_compute; reflexivity|].
  split; [do 5 right; left; reflexivity|].
  split.
  - assert (E : existsb (Nat.eqb 128)
                  (node_points (snd (nth 5 (fst (descend
                     (hd (Leaf []) (trees_ two_clusters_index)) [10%Q] 0 [])) (0%Q, Leaf []))))
                = true) by (vm_compute; reflexivity).
    apply existsb_exists in E. destruct E as (x & Hx & Ex).
    apply Nat.eqb_eq in Ex. subst x. exact Hx.
  - vm_compute. reflexivity.
Qed.

(** * Fuel is never what stops a run *)

Section Fuel.

Context {RK : RandomKit}.

Lemma choose_split_Fail : forall pnts inds D st f,
  choose_split pnts inds D st = Fail f -> f = OutOfBounds.
Proof.
  intros pnts inds D st f H. unfold choose_split in H.
  destruct (rk_interval _ st) as [r st1].
  destruct (nth_error _ r); [discriminate|]. now injection H as <-.
Qed.

Lemma kdtree_node_ctor_no_OutOfFuel : forall fuel pnts D inds st,
  length inds <= fuel ->
  kdtree_node_ctor fuel pnts D inds st <> Fail OutOfFuel.
Proof.
  induction fuel as [|fuel IH]; intros pnts D inds st Hf; simpl;
    destruct (leaf_max_points <? length inds) eqn:E; try discriminate.
  - apply Nat.ltb_lt in E. lia.
  - apply Nat.ltb_lt in E. unfold split_points.
    destruct (choose_split pnts inds D st) as [[[d disc] st1]|f] eqn:Ec; cbn [bind].
    2: { apply choose_split_Fail in Ec. subst f. discriminate. }
    destruct (split_shares pnts D d disc inds E) as (inds1 & l0 & Ep & _ & B & Lf & Ls).
    rewrite Ep.
    destruct (kdtree_node_ctor fuel pnts D (firstn (left_share (length inds) l0) inds1) st1)
      as [[[lft indsl] st2]|f] eqn:El; cbn [bind].
    2: { intro H. injection H as ->. revert El. apply IH. lia. }
    destruct (kdtree_node_ctor fuel pnts D (skipn (left_share (length inds) l0) inds1) st2)
      as [[[rgt indsr] st3]|f] eqn:Er; cbn [bind]; [discriminate|].
    intro H. injection H as ->. revert Er. apply IH. lia.
Qed.

Lemma new_node_type_no_OutOfFuel : forall pnts D inds st,
  new_node_type pnts D inds st <> Fail OutOfFuel.
Proof.
  intros. apply kdtree_node_ctor_no_OutOfFuel. apply le_n.
Qed.

Lemma search_candidates_no_OutOfFuel : forall ptr_lt index qu numnn nchecks,
  search_candidates ptr_lt index qu numnn nchecks <> Fail OutOfFuel.
Proof.
  intros ptr_lt index qu numnn nchecks. rewrite search_candidates_inv.
  destruct (search_each_tree (trees_ index) qu [] [] (repeat false (N_ index))
              (pnts_ index) (D_ index)) as [[[pq0 nns0] seen0]|f] eqn:E0; cbn [bind].
  - apply drain_no_OutOfFuel. lia.
  - apply search_each_tree_Fail in E0. subst f. discriminate.
Qed.

(** The loop has no test for an empty queue. *)
Lemma drain_empty_queue : forall ptr_lt fuel qu nns seen pnts D nchecks,
  length nns < nchecks ->
  drain ptr_lt (S fuel) qu [] nns seen pnts D nchecks = Fail EmptyQueue.
Proof.
  intros ptr_lt fuel qu nns seen pnts D nchecks H. simpl.
  apply Nat.ltb_lt in H. now rewrite H.
Qed.

End Fuel.

(** * Which nodes the fallback makes *)

Section Fallback.

Context {RK : RandomKit}.

(** A built internal node has points on both sides of its threshold
    exactly when the partition loop over its range ended with
    [0 < l < N], that is, when the fallback [l = N/2] was not taken. *)
Lemma two_sided_iff_partition : forall fuel pnts D inds st l r disc d inds' st',
  kdtree_node_ctor fuel pnts D inds st = Ok (Internal l r disc d, inds', st') ->
  two_sided pnts D (Internal l r disc d)
  <-> 0 < snd (partition_loop (length inds) pnts D d disc inds 0 (length inds))
      < length inds.
Proof.
  intros fuel pnts D inds st l r disc d inds' st' H.
  apply kdtree_node_ctor_inv in H.
  destruct H as [(_ & Hleaf & _) | (HN & f' & d0 & disc0 & st1 & inds1 & l0 & lft
                   & indsl & st2 & rgt & indsr & Ef & _ & Ep & El & Er & ET & ->)];
    [discriminate|].
  injection ET as -> -> -> ->.
  destruct (partition_loop_spec pnts D d0 disc0 inds) as (lo & hi & E & P & Fl & Fr).
  rewrite Ep in E. injection E as -> ->. rewrite Ep. simpl snd.
  destruct (kdtree_node_ctor_points _ _ _ _ _ _ _ _ El) as [Pl Ql].
  destruct (kdtree_node_ctor_points _ _ _ _ _ _ _ _ Er) as [Pr Qr].
  assert (Hall : Permutation (lo ++ hi) (node_points lft ++ node_points rgt)).
  { rewrite Pl, Pr.
    rewrite <- (firstn_skipn (left_share (length inds) (length lo)) (lo ++ hi)) at 1.
    now apply Permutation_app. }
  pose proof (Permutation_length P) as HL. rewrite length_app in HL.
  rewrite Forall_forall in Fl, Fr. unfold goes_left, goes_right in Fl, Fr.
  simpl. split.
  - intros [Hlt Hge]. apply Exists_exists in Hlt, Hge.
    destruct Hlt as (p & Hp & Hpl), Hge as (q & Hq & Hql).
    apply (Permutation_in _ (Permutation_sym Hall)) in Hp, Hq.
    apply in_app_or in Hp, Hq.
    destruct Hp as [Hp|Hp].
    2: { apply Fr, Qltb_false in Hp. exfalso. exact (Qlt_not_le _ _ Hpl Hp). }
    destruct Hq as [Hq|Hq].
    1: { apply Fl, Qltb_true in Hq. exfalso. exact (Qlt_not_le _ _ Hq Hql). }
    destruct lo; [contradiction|]. destruct hi; [contradiction|]. simpl in *. lia.
  - intros [H0 H1]. split; apply Exists_exists.
    + destruct lo as [|p lo]; [simpl in H0; lia|].
      exists p. split.
      * apply (Permutation_in _ Hall). now left.
      * apply Qltb_true, Fl. now left.
    + destruct hi as [|q hi]; [simpl in HL; lia|].
      exists q. split.
      * apply (Permutation_in _ Hall). apply in_or_app. right. now left.
      * apply Qltb_false, Fr. now left.
Qed.

End Fallback.

(** * The last index of a leaf *)

(** The statement after the [for] loop scores the last index of the
    leaf and returns [seen] as it found it. *)
Lemma scan_leaf_last_unmarked : forall i qu pnts D nns seen,
  nth i seen false = false ->
  scan_leaf [i] qu pnts D nns seen = Ok (nns ++ [scored qu pnts D i], seen).
Proof.
  intros i qu pnts D nns seen H. simpl. now rewrite H.
Qed.

(** * Further properties of the build *)

Lemma filter_length_perm : forall (A : Type) (f : A -> bool) (l1 l2 : list A),
  Permutation l1 l2 -> length (filter f l1) = length (filter f l2).
Proof.
  intros A f l1 l2 P. induction P; simpl.
  - reflexivity.
  - destruct (f x); simpl; congruence.
  - destruct (f x); destruct (f y); reflexivity.
  - congruence.
Qed.

Lemma filter_all_true : forall (A : Type) (f : A -> bool) (l : list A),
  Forall (fun x => f x = true) l -> filter f l = l.
Proof.
  intros A f l H. induction H; simpl; [reflexivity|]. rewrite H. now f_equal.
Qed.

Lemma filter_all_false : forall (A : Type) (f : A -> bool) (l : list A),
  Forall (fun x => f x = false) l -> filter f l = [].
Proof.
  intros A f l H. induction H; simpl; [reflexivity|]. now rewrite H.
Qed.

(** X1: when the partition loop of [split_points] has run over a range,
    the range is a permutation of what it was, its first [l] places hold
    the points below the threshold and the other places the points at or
    above it, and [l] is the number of points of the range below the
    threshold. *)
Theorem partition_loop_postcondition : forall pnts D disc_dim disc inds,
  let N := length inds in
  let inds1 := fst (partition_loop N pnts D disc_dim disc inds 0 N) in
  let l := snd (partition_loop N pnts D disc_dim disc inds 0 N) in
  Permutation inds inds1
  /\ l <= N
  /\ l = length (filter (below pnts D disc_dim disc) inds)
  /\ Forall (fun i => (coord pnts D disc_dim i < disc)%Q) (firstn l inds1)
  /\ Forall (fun i => (disc <= coord pnts D disc_dim i)%Q) (skipn l inds1).
Proof.
  intros pnts D d disc inds N inds1 l. subst N inds1 l.
  destruct (partition_loop_spec pnts D d disc inds) as (lo & hi & E & P & Fl & Fr).
  rewrite E. simpl fst. simpl snd.
  pose proof (Permutation_length P) as HL. rewrite length_app in HL.
  split; [exact P|]. split; [lia|]. split; [|split].
  - rewrite (filter_length_perm _ (below pnts D d disc) _ _ P), filter_app.
    rewrite (filter_all_true _ (below pnts D d disc) lo Fl),
      (filter_all_false _ (below pnts D d disc) hi Fr), app_nil_r.
    reflexivity.
  - rewrite firstn_app, Nat.sub_diag, firstn_all, firstn_0, app_nil_r.
    eapply Forall_impl; [|exact Fl]. intros i Hi. now apply Qltb_true.
  - rewrite skipn_app, Nat.sub_diag, skipn_all, skipn_0. simpl.
    eapply Forall_impl; [|exact Fr]. intros i Hi. now apply Qltb_false.
Qed.

Section OneSided.

Variable pnts : list Q.
Variables D disc_dim : nat.
Variable disc : Q.

Lemma partition_loop_all_left : forall n pre mid post,
  length mid = n ->
  Forall (goes_left pnts D disc_dim disc) mid ->
  partition_loop n pnts D disc_dim disc (pre ++ mid ++ post)
                 (length pre) (length pre + n)
  = (pre ++ mid ++ post, length pre + n).
Proof.
  induction n as [|n IH]; intros pre mid post Hlen F.
  - simpl. now rewrite Nat.add_0_r.
  - destruct mid as [|x mid]; [discriminate|]. injection Hlen as Hlen.
    inversion F as [|y l Hx Hm]; subst. cbn [partition_loop].
    replace (nth (length pre) (pre ++ (x :: mid) ++ post) 0) with x
      by (simpl; now rewrite nth_middle).
    fold (coord pnts D disc_dim x). unfold goes_left in Hx. rewrite Hx.
    specialize (IH (pre ++ [x]) mid post eq_refl Hm).
    rewrite length_app in IH. simpl in IH.
    replace (length pre + 1) with (S (length pre)) in IH by lia.
    replace (S (length pre) + length mid) with (length pre + S (length mid)) in IH by lia.
    rewrite <- !app_assoc in IH. simpl in IH. simpl. exact IH.
Qed.

Lemma partition_loop_all_right : forall n mid post,
  length mid = n ->
  Forall (goes_right pnts D disc_dim disc) mid ->
  partition_loop n pnts D disc_dim disc (mid ++ post) 0 n
  = (rotate_left mid ++ post, 0).
Proof.
  induction n as [|n IH]; intros mid post Hlen F.
  - destruct mid; [reflexivity | discriminate].
  - destruct mid as [|x mid]; [discriminate|]. injection Hlen as Hlen.
    inversion F as [|y l Hx Hm]; subst. cbn [partition_loop].
    change (nth 0 ((x :: mid) ++ post) 0) with x.
    fold (coord pnts D disc_dim x). unfold goes_right in Hx. rewrite Hx.
    replace (S (length mid) - 1) with (length mid) by lia.
    destruct (list_last_case _ mid) as [-> | (m & y & ->)].
    + simpl. change (swap (x :: post) 0 0) with (swap ([] ++ x :: post) (length (@nil nat)) (length (@nil nat))).
      rewrite swap_same. reflexivity.
    + assert (Hl : length (m ++ [y]) = length m + 1) by (rewrite length_app; reflexivity).
      replace ((x :: m ++ [y]) ++ post) with ([] ++ x :: m ++ y :: post)
        by (simpl; now rewrite <- app_assoc).
      replace (swap ([] ++ x :: m ++ y :: post) 0 (length (m ++ [y])))
        with ([] ++ y :: m ++ x :: post)
        by (rewrite <- swap_ends; f_equal; simpl; lia).
      apply Forall_app in Hm. destruct Hm as [Hm Hy].
      assert (F' : Forall (goes_right pnts D disc_dim disc) (y :: m)).
      { inversion Hy; subst. now constructor. }
      specialize (IH (y :: m) (x :: post)).
      change ([] ++ y :: m ++ x :: post) with ((y :: m) ++ x :: post).
      rewrite IH; [|simpl; lia | exact F'].
      simpl. now rewrite <- !app_assoc.
Qed.

End OneSided.

Lemma partition_loop_rotates : forall pnts D disc_dim disc inds,
  Forall (fun i => below pnts D disc_dim disc i = false) inds ->
  partition_loop (length inds) pnts D disc_dim disc inds 0 (length inds)
  = (rotate_left inds, 0).
Proof.
  intros pnts D d disc inds F.
  pose proof (partition_loop_all_right pnts D d disc (length inds) inds [] eq_refl F) as H.
  now rewrite !app_nil_r in H.
Qed.

(** X2: on a range with no point below the threshold the partition loop
    ends with [l = 0] and leaves the range turned left by one place:
    the first identifier has moved to the end. This is the state in
    which [split_points] falls back to [l = N/2]. *)
Theorem partition_loop_none_below : forall pnts D disc_dim disc inds,
  Forall (fun i => below pnts D disc_dim disc i = false) inds ->
  partition_loop (length inds) pnts D disc_dim disc inds 0 (length inds)
  = (rotate_left inds, 0).
Proof.
  intros pnts D d disc inds F. exact (partition_loop_rotates pnts D d disc inds F).
Qed.

Lemma partition_loop_none_below_witness :
  partition_loop 15 fifteen_equal 1 0 5 (seq 0 15) 0 15
  = ([1; 2; 3; 4; 5; 6; 7; 8; 9; 10; 11; 12; 13; 14; 0], 0).
Proof.
  apply (partition_loop_none_below fifteen_equal 1 0 5 (seq 0 15)).
  repeat constructor.
Defined.

Section BuildExtras.

Context {RK : RandomKit}.

(** X3: every tree of a built index holds every point of [0, N) exactly
    once: its leaves, read left to right, are a permutation of [0, N).
    The index has [ntrees] trees and, when there is at least one point,
    every leaf holds between 1 and 14 points. *)
Theorem forest_leaves_partition_points : forall pnts N D ntrees seed index,
  nn_kdtree_ctor pnts N D ntrees seed = Ok index ->
  length (trees_ index) = ntrees
  /\ Forall (fun T => Permutation (seq 0 N) (node_points T)
                      /\ NoDup (node_points T)
                      /\ (forall p, In p (node_points T) <-> p < N)
                      /\ (1 <= N -> leaves_ok T)) (trees_ index).
Proof.
  intros pnts N D ntrees seed index H.
  destruct (nn_kdtree_ctor_spec _ _ _ _ _ _ H) as (_ & _ & _ & Et & Fp & Fl).
  split; [exact Et|].
  apply Forall_forall. intros T HT. rewrite Forall_forall in Fp.
  pose proof (Fp T HT) as P.
  split; [exact P|]. split; [apply (Permutation_NoDup P), seq_NoDup|]. split.
  - intro p. split; intro Hp.
    + apply (Permutation_in _ (Permutation_sym P)) in Hp. apply in_seq in Hp. lia.
    + apply (Permutation_in _ P). apply in_seq. lia.
  - intro HN. specialize (Fl HN). rewrite Forall_forall in Fl. now apply Fl.
Qed.

Lemma kdtree_node_ctor_big : forall fuel pnts D inds st T inds' st',
  kdtree_node_ctor fuel pnts D inds st = Ok (T, inds', st') ->
  internal_big T /\ is_leaf T = (length inds <=? leaf_max_points).
Proof.
  induction fuel as [|fuel IH]; intros pnts D inds st T inds' st' H;
    pose proof H as Hfull;
    apply kdtree_node_ctor_inv in H;
    destruct H as [(Hl & -> & -> & _) | (HN & f' & d & disc & st1 & inds1 & l0 & lft
                     & indsl & st2 & rgt & indsr & Ef & _ & Ep & El & Er & -> & ->)];
    try discriminate;
    try (split; [exact I | simpl; symmetry; now apply Nat.leb_le]).
  injection Ef as <-.
  destruct (split_shares pnts D d disc inds HN) as (i1 & l1 & Ep' & _ & B & Lf & Ls).
  rewrite Ep in Ep'. injection Ep' as <- <-.
  destruct (kdtree_node_ctor_points _ _ _ _ _ _ _ _ El) as [Pl Ql].
  destruct (kdtree_node_ctor_points _ _ _ _ _ _ _ _ Er) as [Pr Qr].
  destruct (kdtree_node_ctor_points _ _ _ _ _ _ _ _ Hfull) as [Pf Qf].
  simpl in Pf.
  destruct (IH _ _ _ _ _ _ _ El) as [Bl _]. destruct (IH _ _ _ _ _ _ _ Er) as [Br _].
  split.
  - simpl. rewrite Pf, <- (Permutation_length Qf).
    rewrite Pl, Pr, <- (Permutation_length Ql), <- (Permutation_length Qr).
    repeat split; auto; lia.
  - simpl. symmetry. apply Nat.leb_gt. exact HN.
Qed.

(** X4: in a built tree a node is a leaf exactly when its range has at
    most 14 points; every internal node has more than 14 points under it
    and at least one under each child. *)
Theorem leaf_iff_small_range : forall pnts D inds st T inds' st',
  new_node_type pnts D inds st = Ok (T, inds', st') ->
  is_leaf T = (length inds <=? leaf_max_points) /\ internal_big T.
Proof.
  intros pnts D inds st T inds' st' H. unfold new_node_type in H.
  destruct (kdtree_node_ctor_big _ _ _ _ _ _ _ _ H). auto.
Qed.

Lemma node_count_le_points : forall n,
  leaves_ok n -> node_count n + 1 <= 2 * length (node_points n).
Proof.
  induction n as [inds | l IHl r IHr disc d]; simpl; intro H.
  - lia.
  - destruct H as [Hl Hr]. specialize (IHl Hl). specialize (IHr Hr).
    rewrite length_app. lia.
Qed.

Lemma node_depth_le_points : forall n,
  internal_big n -> node_depth n <= length (node_points n) - leaf_max_points.
Proof.
  induction n as [inds | l IHl r IHr disc d]; simpl; intro H.
  - lia.
  - destruct H as (Hb & H1 & H2 & Hl & Hr). specialize (IHl Hl). specialize (IHr Hr).
    rewrite length_app in *. unfold leaf_max_points in *. lia.
Qed.

(** X5: a tree built over [N >= 1] points has at most [2N - 1] nodes,
    and its depth is at most [N - 14]. *)
Theorem tree_size_bounds : forall pnts D inds st T inds' st',
  new_node_type pnts D inds st = Ok (T, inds', st') ->
  1 <= length inds ->
  node_count T <= 2 * length inds - 1
  /\ node_depth T <= length inds - leaf_max_points.
Proof.
  intros pnts D inds st T inds' st' H HN. unfold new_node_type in H.
  destruct (kdtree_node_ctor_points _ _ _ _ _ _ _ _ H) as [P Q].
  pose proof (kdtree_node_ctor_leaves _ _ _ _ _ _ _ _ H HN) as Hok.
  destruct (kdtree_node_ctor_big _ _ _ _ _ _ _ _ H) as [Hb _].
  pose proof (node_count_le_points T Hok) as Hc.
  pose proof (node_depth_le_points T Hb) as Hd.
  rewrite P, <- (Permutation_length Q) in Hc, Hd. split; [lia | exact Hd].
Qed.

(** X6: the array a tree build returns lists the leaves of the tree from
    left to right, and is a permutation of the array the build was
    given: the build moves identifiers and neither adds nor drops one. *)
Theorem built_array_lists_leaves : forall pnts D inds st T inds' st',
  new_node_type pnts D inds st = Ok (T, inds', st') ->
  node_points T = inds' /\ Permutation inds inds'.
Proof.
  intros pnts D inds st T inds' st' H. unfold new_node_type in H.
  exact (kdtree_node_ctor_points _ _ _ _ _ _ _ _ H).
Qed.

Lemma choose_split_state : forall pnts inds D st d disc st1,
  1 <= D ->
  choose_split pnts inds D st = Ok (d, disc, st1) -> st1 = rk_advance D st.
Proof.
  intros pnts inds D st d disc st1 HD H. unfold choose_split in H.
  unfold rk_advance.
  destruct (Nat.min varest_max_randsz D =? 0) eqn:E0.
  { apply Nat.eqb_eq in E0. unfold varest_max_randsz in E0. lia. }
  destruct (rk_interval (Nat.min varest_max_randsz D - 1) st) as [r st'].
  destruct (nth_error _ r); [|discriminate]. now injection H as _ _ <-.
Qed.

Lemma kdtree_node_ctor_state : forall fuel pnts D inds st T inds' st',
  1 <= D ->
  kdtree_node_ctor fuel pnts D inds st = Ok (T, inds', st') ->
  st' = Nat.iter (internal_count T) (rk_advance D) st.
Proof.
  induction fuel as [|fuel IH]; intros pnts D inds st T inds' st' HD H;
    apply kdtree_node_ctor_inv in H;
    destruct H as [(Hl & -> & -> & ->) | (HN & f' & d & disc & st1 & inds1 & l0 & lft
                     & indsl & st2 & rgt & indsr & Ef & Ec & Ep & El & Er & -> & ->)];
    try discriminate; try reflexivity.
  injection Ef as <-.
  apply (choose_split_state _ _ _ _ _ _ _ HD) in Ec.
  apply (IH _ _ _ _ _ _ _ HD) in El, Er. subst st1 st2 st'.
  simpl internal_count.
  rewrite Nat.iter_succ_r, (Nat.add_comm (internal_count lft)), Nat.iter_add.
  reflexivity.
Qed.

(** X7: a tree build advances the random stream once for every internal
    node it creates and not at all for a leaf: the state it returns is
    the state it was given after as many draws as the tree has internal
    nodes. *)
Theorem one_draw_per_internal_node : forall pnts D inds st T inds' st',
  1 <= D ->
  new_node_type pnts D inds st = Ok (T, inds', st') ->
  st' = Nat.iter (internal_count T) (rk_advance D) st.
Proof.
  intros pnts D inds st T inds' st' HD H.
  exact (kdtree_node_ctor_state _ _ _ _ _ _ _ _ HD H).
Qed.

Lemma create_trees_add : forall a b pnts D inds st,
  create_trees (a + b) pnts D inds st
  = ('(ts, inds1, st1) <- create_trees a pnts D inds st ;;
     '(ts', inds2, st2) <- create_trees b pnts D inds1 st1 ;;
     Ok (ts ++ ts', inds2, st2)).
Proof.
  induction a as [|a IH]; intros b pnts D inds st.
  - simpl. destruct (create_trees b pnts D inds st) as [[[ts i] s]|f]; reflexivity.
  - simpl. destruct (new_node_type pnts D inds st) as [[[T i1] s1]|f]; [|reflexivity].
    cbn [bind]. rewrite IH.
    destruct (create_trees a pnts D i1 s1) as [[[ts i2] s2]|f]; [|reflexivity].
    cbn [bind].
    destruct (create_trees b pnts D i2 s2) as [[[ts' i3] s3]|f]; reflexivity.
Qed.

(** X8: the trees of a forest do not depend on how many trees follow
    them: the index built with [n] trees holds the first [n] trees of
    the index built with [n + m] trees from the same points and seed. *)
Theorem forest_is_prefix_of_larger_forest : forall pnts N D n m seed index1 index2,
  nn_kdtree_ctor pnts N D n seed = Ok index1 ->
  nn_kdtree_ctor pnts N D (n + m) seed = Ok index2 ->
  trees_ index1 = firstn n (trees_ index2).
Proof.
  intros pnts N D n m seed index1 index2 H1 H2. unfold nn_kdtree_ctor in *.
  rewrite create_trees_add in H2.
  destruct (create_trees n pnts D (seq 0 N) (rk_seed seed)) as [[[ts i1] s1]|f] eqn:E;
    [|discriminate].
  cbn [bind] in H1, H2. injection H1 as <-.
  destruct (create_trees m pnts D i1 s1) as [[[ts' i2] s2]|f]; [|discriminate].
  cbn [bind] in H2. injection H2 as <-. simpl.
  assert (L : forall k pn i s t i' s',
             create_trees k pn D i s = Ok (t, i', s') -> length t = k).
  { induction k as [|k IHk]; intros pn i s t i' s' Ek; simpl in Ek.
    - now injection Ek as <- <- <-.
    - inv_bind Ek. destruct a as [[T j1] r1]. inv_bind Ek. destruct a as [[tl j2] r2].
      injection Ek as <- <- <-. simpl. f_equal. eauto. }
  rewrite <- (L _ _ _ _ _ _ _ E) at 1.
  now rewrite firstn_app, Nat.sub_diag, firstn_all, firstn_0, app_nil_r.
Qed.

End BuildExtras.

(** * Identical points *)

Lemma rotate_left_perm : forall inds, Permutation inds (rotate_left inds).
Proof.
  intros [|a t]; simpl; [constructor | apply Permutation_cons_append].
Qed.

Section Identical.

Context {RK : RandomKit}.

(** Over identical points every threshold leaves the partition loop
    one-sided, whatever its value: the points are all below it or none
    is, and [split_points] takes the middle. *)
Lemma identical_points_split : forall pnts inds D d disc (v : nat -> Q),
  d < D ->
  Forall (fun i => forall d', d' < D -> (coord pnts D d' i == v d')%Q) inds ->
  exists inds1 l0,
    partition_loop (length inds) pnts D d disc inds 0 (length inds) = (inds1, l0)
    /\ Permutation inds inds1
    /\ left_share (length inds) l0 = length inds / 2.
Proof.
  intros pnts inds D d disc v Hd Hv. rewrite Forall_forall in Hv.
  destruct (Qltb (v d) disc) eqn:E.
  - exists inds, (length inds). split; [|split; [reflexivity|]].
    + pose proof (partition_loop_all_left pnts D d disc (length inds) [] inds [] eq_refl)
        as H.
      simpl in H. rewrite app_nil_r in H. apply H.
      apply Forall_forall. intros i Hi. unfold goes_left.
      apply Qltb_true in E. apply Qltb_true. unfold coord in *. rewrite (Hv i Hi d Hd). exact E.
    + unfold left_share. rewrite Nat.eqb_refl, orb_true_r. reflexivity.
  - exists (rotate_left inds), 0. split; [|split; [apply rotate_left_perm | reflexivity]].
    apply partition_loop_rotates.
    apply Forall_forall. intros i Hi. unfold below. apply Qltb_false.
    apply Qltb_false in E. rewrite (Hv i Hi d Hd). exact E.
Qed.

Lemma identical_points_depth : forall fuel pnts D inds st T inds' st' (v : nat -> Q) k,
  Forall (fun i => forall d, d < D -> (coord pnts D d i == v d)%Q) inds ->
  length inds <= leaf_max_points * 2 ^ k ->
  kdtree_node_ctor fuel pnts D inds st = Ok (T, inds', st') ->
  node_depth T <= k.
Proof.
  induction fuel as [|fuel IH]; intros pnts D inds st T inds' st' v k Hv Hk H;
    apply kdtree_node_ctor_inv in H;
    destruct H as [(Hl & -> & -> & _) | (HN & f' & d & disc & st1 & inds1 & l0 & lft
                     & indsl & st2 & rgt & indsr & Ef & Ec & Ep & El & Er & -> & ->)];
    try discriminate; try (simpl; lia).
  injection Ef as <-.
  destruct (identical_points_split pnts inds D d disc v
              (choose_split_dim _ _ _ _ _ _ _ Ec) Hv) as (inds1' & l0' & Ep' & Perm & Hhalf).
  rewrite Ep in Ep'. injection Ep' as <- <-.
  destruct k as [|k]; [unfold leaf_max_points in *; simpl in Hk; lia|].
  rewrite Hhalf in El, Er.
  assert (Hsub : forall l', incl l' inds1 ->
            Forall (fun i => forall d, d < D -> (coord pnts D d i == v d)%Q) l').
  { intros l' Hl'. rewrite Forall_forall in *. intros i Hi. apply Hv.
    apply (Permutation_in _ (Permutation_sym Perm)). now apply Hl'. }
  pose proof (Permutation_length Perm) as HL.
  pose proof (Nat.div_mod_eq (length inds) 2) as Hdm.
  pose proof (Nat.mod_upper_bound (length inds) 2) as Hmod.
  assert (H2k : 2 ^ S k = 2 * 2 ^ k) by reflexivity.
  simpl node_depth. apply le_n_S. apply Nat.max_lub.
  - apply (IH _ _ _ _ _ _ _ v k (Hsub _ (fun x => In_firstn _ _ _ x)) ) in El;
      [exact El|].
    rewrite length_firstn. unfold leaf_max_points in *. lia.
  - apply (IH _ _ _ _ _ _ _ v k (Hsub _ (fun x => In_skipn _ _ _ x))) in Er;
      [exact Er|].
    rewrite length_skipn. unfold leaf_max_points in *. lia.
Qed.

(** X10: over points that are all equal the fallback of [split_points]
    halves every range, so the tree is balanced: a range of at most
    [14 * 2^k] equal points builds a tree of depth at most [k]. *)
Theorem identical_points_logarithmic_depth :
  forall pnts D inds st T inds' st' (v : nat -> Q) k,
  Forall (fun i => forall d, d < D -> (coord pnts D d i == v d)%Q) inds ->
  length inds <= leaf_max_points * 2 ^ k ->
  new_node_type pnts D inds st = Ok (T, inds', st') ->
  node_depth T <= k.
Proof.
  intros pnts D inds st T inds' st' v k Hv Hk H.
  exact (identical_points_depth _ _ _ _ _ _ _ _ v k Hv Hk H).
Qed.

End Identical.

(** * No dimension, no point *)

Section Edges.

Context {RK : RandomKit}.
Variable ptr_lt : kdtree_node -> kdtree_node -> bool.

Lemma choose_split_no_dimension : forall pnts inds st,
  choose_split pnts inds 0 st = Fail OutOfBounds.
Proof.
  intros pnts inds st. unfold choose_split.
  change (Nat.min varest_max_randsz 0) with 0.
  unfold partial_sort. rewrite firstn_0.
  destruct (rk_interval _ st) as [r st'].
  destruct r; reflexivity.
Qed.

(** X11: with [D = 0] the build of a range of more than 14 points fails
    at its first split, where [var_dim] is empty and
    [var_dim[rk_interval(nrand-1, state)]] reads outside it; no tree is
    returned. *)
Theorem no_dimension_no_split : forall pnts inds st,
  leaf_max_points < length inds ->
  new_node_type pnts 0 inds st = Fail OutOfBounds.
Proof.
  intros pnts inds st HN. unfold new_node_type.
  destruct (length inds) as [|fuel] eqn:E; [unfold leaf_max_points in HN; lia|].
  cbn [kdtree_node_ctor]. rewrite E.
  apply Nat.ltb_lt in HN. rewrite HN.
  unfold split_points. now rewrite choose_split_no_dimension.
Qed.

Lemma create_trees_no_point : forall ntrees pnts D st,
  create_trees ntrees pnts D [] st = Ok (repeat (Leaf []) ntrees, [], st).
Proof.
  induction ntrees as [|n IH]; intros pnts D st; [reflexivity|].
  simpl. now rewrite IH.
Qed.

(** X12: over an empty point set the build returns an index whose trees
    are empty leaves, and every search over it with at least one tree
    fails in the first leaf scan, where [ncur_inds-1] wraps and the loop
    reads outside [indices_]. *)
Theorem no_point_no_search : forall pnts D ntrees seed index qu numnn nchecks,
  1 <= ntrees ->
  nn_kdtree_ctor pnts 0 D ntrees seed = Ok index ->
  trees_ index = repeat (Leaf []) ntrees
  /\ nn_kdtree_search ptr_lt index qu numnn nchecks = Fail OutOfBounds.
Proof.
  intros pnts D ntrees seed index qu numnn nchecks Hn H.
  unfold nn_kdtree_ctor in H. simpl seq in H.
  rewrite create_trees_no_point in H. cbn [bind] in H. injection H as <-.
  split; [reflexivity|].
  unfold nn_kdtree_search. rewrite search_candidates_inv. simpl trees_.
  destruct ntrees as [|n]; [lia|]. reflexivity.
Qed.

End Edges.

(** * Further properties of the search *)

Section SearchExtras.

Variable ptr_lt : kdtree_node -> kdtree_node -> bool.

Lemma entry_lt_true : forall a b, entry_lt ptr_lt a b = true -> (fst a <= fst b)%Q.
Proof.
  intros a b H. unfold entry_lt in H. apply orb_true_iff in H. destruct H as [H|H].
  - apply Qltb_true in H. lra.
  - apply andb_true_iff in H. destruct H as [H _].
    apply negb_true_iff in H. now apply Qltb_false in H.
Qed.

Lemma entry_lt_false : forall a b, entry_lt ptr_lt a b = false -> (fst b <= fst a)%Q.
Proof.
  intros a b H. unfold entry_lt in H. apply orb_false_iff in H. destruct H as [H _].
  now apply Qltb_false in H.
Qed.

Lemma bpq_pop_min : forall q e q',
  bpq_pop ptr_lt q = Some (e, q') -> Forall (fun e' : entry => (fst e <= fst e')%Q) q'.
Proof.
  induction q as [|x t IH]; intros e q' H; simpl in H; [discriminate|].
  destruct (bpq_pop ptr_lt t) as [[m t']|] eqn:Et.
  - specialize (IH m t' eq_refl).
    destruct (entry_lt ptr_lt m x) eqn:E; injection H as <- <-.
    + constructor; [now apply entry_lt_true | exact IH].
    + apply entry_lt_false in E.
      apply (Permutation_Forall (Permutation_sym (bpq_pop_perm _ _ _ _ Et))).
      constructor; [exact E|].
      eapply Forall_impl; [|exact IH]. intros z Hz. cbv beta in *. lra.
  - injection H as <- <-. constructor.
Qed.

Lemma descend_pushed : forall cur qu mindsq pq pq' ci,
  descend cur qu mindsq pq = (pq', ci) ->
  exists pushed,
    pq' = pushed ++ pq
    /\ length pushed <= node_depth cur
    /\ Forall (fun e : entry => (mindsq <= fst e)%Q) pushed.
Proof.
  induction cur as [inds | l IHl r IHr disc d]; intros qu m pq pq' ci H; simpl in H.
  - injection H as <- <-. exists []. simpl. repeat split; auto.
  - set (b := (m + (at_ qu d - disc) * (at_ qu d - disc))%Q) in *.
    assert (Hb : (m <= b)%Q).
    { unfold b. pose proof (Qsquare_nonneg (at_ qu d - disc)). lra. }
    destruct (Qltb (at_ qu d - disc) 0).
    + apply IHl in H. destruct H as (pushed & -> & L & F).
      exists (pushed ++ [(b, r)]). rewrite <- app_assoc. split; [reflexivity|].
      split; [rewrite length_app; simpl; lia|].
      apply Forall_app. split; [exact F | now repeat constructor].
    + apply IHr in H. destruct H as (pushed & -> & L & F).
      exists (pushed ++ [(b, l)]). rewrite <- app_assoc. split; [reflexivity|].
      split; [rewrite length_app; simpl; lia|].
      apply Forall_app. split; [exact F | now repeat constructor].
Qed.

(** X14: the loop of [nn_kdtree::search] explores the frontier best
    first. The entry it pops has the least bound of the queue, the rest
    of the queue is the queue without that entry, and the descent below
    the popped node pushes only bounds at least as large as the popped
    one: after the step no entry of the queue has a bound below the one
    just explored. *)
Theorem frontier_is_explored_best_first :
  forall pq pr pq1 qu nns seen pnts D pq2 nns2 seen2,
  bpq_pop ptr_lt pq = Some (pr, pq1) ->
  kdtree_node_search (snd pr) qu pq1 nns seen pnts D (fst pr) = Ok (pq2, nns2, seen2) ->
  Permutation pq (pr :: pq1)
  /\ Forall (fun e : entry => (fst pr <= fst e)%Q) pq
  /\ Forall (fun e : entry => (fst pr <= fst e)%Q) pq2.
Proof.
  intros pq pr pq1 qu nns seen pnts D pq2 nns2 seen2 Hp Hs.
  pose proof (bpq_pop_perm _ _ _ _ Hp) as P.
  pose proof (bpq_pop_min _ _ _ Hp) as M.
  split; [exact P|]. split.
  - apply (Permutation_Forall (Permutation_sym P)).
    constructor; [apply Qle_refl | exact M].
  - unfold kdtree_node_search in Hs.
    destruct (descend (snd pr) qu (fst pr) pq1) as [pq' ci] eqn:Ed.
    inv_bind Hs. destruct a as [n1 s1]. injection Hs as <- _ _.
    destruct (descend_pushed _ _ _ _ _ _ Ed) as (pushed & -> & _ & F).
    apply Forall_app. split; assumption.
Qed.

End SearchExtras.

(** X15: a descent loses no point. It pushes one entry for every
    internal node on its path, at most as many as the node is deep; the
    leaf it reaches and the subtrees it pushed hold between them every
    point below the node it started from, each as often as the node
    does; and every bound it pushes is at least its base [mindsq]. *)
Theorem descent_splits_the_subtree : forall cur qu mindsq pq,
  exists pushed,
    fst (descend cur qu mindsq pq) = pushed ++ pq
    /\ length pushed <= node_depth cur
    /\ Permutation (node_points cur)
         (snd (descend cur qu mindsq pq) ++ frontier_points pushed)
    /\ Forall (fun e : entry => subnode (snd e) cur /\ (mindsq <= fst e)%Q) pushed.
Proof.
  intros cur qu m pq.
  destruct (descend cur qu m pq) as [pq' ci] eqn:E.
  destruct (descend_spec _ _ _ _ _ _ E) as (pushed & -> & P & _ & _ & Fs).
  destruct (descend_pushed _ _ _ _ _ _ E) as (pushed' & E' & L & Fb).
  apply app_inv_tail in E'. subst pushed'.
  exists pushed. simpl. repeat split; auto.
  rewrite Forall_forall in *. intros e He. split; [now apply Fs | now apply Fb].
Qed.

Lemma nth_list_set_iff : forall (seen : list bool) i j,
  nth j (list_set seen i true) false = true
  <-> nth j seen false = true \/ (j = i /\ i < length seen).
Proof.
  intros seen i j. split.
  - intro H. destruct (Nat.eq_dec i j) as [->|Hij].
    + destruct (Nat.lt_ge_cases j (length seen)) as [L|L]; [right; auto|].
      rewrite nth_overflow in H; [discriminate|]. now rewrite list_set_length.
    + left. now rewrite nth_list_set_other in H.
  - intros [H|[-> H]].
    + now apply nth_list_set_keep.
    + now apply nth_list_set_same.
Qed.

Lemma scan_leaf_unmarked : forall ci qu pnts D nns seen,
  ci <> [] -> NoDup ci ->
  exists seen',
    scan_leaf ci qu pnts D nns seen
    = Ok (nns ++ map (scored qu pnts D) (filter (unmarked seen) ci), seen')
    /\ length seen' = length seen
    /\ (forall j, nth j seen' false = true
                  <-> nth j seen false = true
                      \/ (In j (removelast ci) /\ j < length seen)).
Proof.
  induction ci as [|i rest IH]; intros qu pnts D nns seen Hne Hnd; [congruence|].
  destruct rest as [|k rest].
  - exists seen. simpl. unfold unmarked.
    destruct (nth i seen false); simpl.
    + rewrite app_nil_r. repeat split; auto. intros [H|[[] _]]. exact H.
    + repeat split; auto. intros [H|[[] _]]. exact H.
  - rewrite scan_leaf_cons. inversion Hnd as [|x l Hni Hnd']; subst.
    assert (Hne' : k :: rest <> []) by discriminate.
    change (removelast (i :: k :: rest)) with (i :: removelast (k :: rest)).
    cbn [filter]. unfold unmarked at 1.
    destruct (nth i seen false) eqn:Ei; cbn [negb].
    + destruct (IH qu pnts D nns seen Hne' Hnd') as (seen' & E & L & M).
      exists seen'. split; [exact E|]. split; [exact L|].
      intro j. rewrite M. split.
      * intros [H|[H1 H2]]; [now left | right; split; [now right | exact H2]].
      * intros [H|[[<-|H1] H2]]; [now left | now left | right; auto].
    + destruct (IH qu pnts D (nns ++ [scored qu pnts D i]) (list_set seen i true) Hne' Hnd')
        as (seen' & E & L & M).
      exists seen'. split; [|split].
      * assert (Hf : filter (unmarked (list_set seen i true)) (k :: rest)
                     = filter (unmarked seen) (k :: rest)).
        { apply filter_ext_in. intros a Ha. unfold unmarked.
          rewrite nth_list_set_other; [reflexivity|]. intros ->. contradiction. }
        rewrite Hf in E. rewrite E, <- app_assoc. reflexivity.
      * rewrite L. apply list_set_length.
      * intro j. rewrite M, nth_list_set_iff, list_set_length. split.
        -- intros [[H|[-> H]]|[H1 H2]];
             [now left | right; split; [now left | exact H]
             | right; split; [now right | exact H2]].
        -- intros [H|[[<-|H1] H2]];
             [left; now left | left; right; auto | right; auto].
Qed.

(** X16: the scan of a leaf with distinct indices scores exactly the
    points of the leaf that are not marked in [seen], in the order of
    the leaf, each with its distance to the query; a marked point is
    never scored again. It marks every index of the leaf but the last
    one, and changes no other mark. *)
Theorem leaf_scan_scores_the_unmarked : forall ci qu pnts D nns seen,
  ci <> [] -> NoDup ci ->
  exists seen',
    scan_leaf ci qu pnts D nns seen
    = Ok (nns ++ map (scored qu pnts D) (filter (unmarked seen) ci), seen')
    /\ length seen' = length seen
    /\ (forall j, nth j seen' false = true
                  <-> nth j seen false = true
                      \/ (In j (removelast ci) /\ j < length seen)).
Proof.
  exact scan_leaf_unmarked.
Qed.

Section ResultExtras.

Context {RK : RandomKit}.
Variable ptr_lt : kdtree_node -> kdtree_node -> bool.

(** X17: a search that returns gives its results in ascending order of
    distance, and they are the nearest of the candidates it scored: the
    candidate list is the result together with candidates none of which
    is nearer than a returned one. *)
Theorem results_are_the_nearest_candidates : forall index qu numnn nchecks res,
  nn_kdtree_search ptr_lt index qu numnn nchecks = Ok res ->
  StronglySorted by_distance res
  /\ exists pq nns seen rest,
       search_candidates ptr_lt index qu numnn nchecks = Ok (pq, nns, seen)
       /\ Permutation nns (res ++ rest)
       /\ Forall (fun far => Forall (fun near => by_distance near far) res) rest.
Proof.
  intros index qu numnn nchecks res H.
  apply nn_kdtree_search_shape in H. destruct H as (pq & nns & seen & Hc & ->).
  pose proof (sort_by_sorted nns) as S.
  split; [now apply StronglySorted_firstn|].
  exists pq, nns, seen, (skipn numnn (sort_by second_cmp nns)).
  split; [exact Hc|]. split.
  - rewrite firstn_skipn. apply sort_by_perm.
  - apply Forall_forall. intros far Hfar. apply Forall_forall. intros near Hnear.
    exact (StronglySorted_firstn_skipn _ _ numnn _ near far S Hnear Hfar).
Qed.

Section Bounded.

Variable qu pnts : list Q.
Variable D : nat.
Variable pts : list nat.

Lemma search_step_incl : forall this pq nns seen mindsq pq' nns' seen',
  kdtree_node_search this qu pq nns seen pnts D mindsq = Ok (pq', nns', seen') ->
  incl (node_points this) pts ->
  incl (ids nns) pts -> incl (frontier_points pq) pts ->
  incl (ids nns') pts /\ incl (frontier_points pq') pts.
Proof.
  intros this pq nns seen m pq' nns' seen' H Ht Hn Hq.
  destruct (kdtree_node_search_spec _ _ _ _ _ _ _ _ _ _ _ H)
    as (pushed & ci & new & _ & -> & -> & P & _ & _ & _ & I & _).
  split.
  - rewrite ids_app, ids_scored. apply incl_app; [exact Hn|].
    intros p Hp. apply Ht. apply (Permutation_in _ (Permutation_sym P)).
    apply in_or_app. left. now apply I.
  - rewrite frontier_points_app. apply incl_app; [|exact Hq].
    intros p Hp. apply Ht. apply (Permutation_in _ (Permutation_sym P)).
    apply in_or_app. now right.
Qed.

Lemma search_each_tree_incl : forall trees pq nns seen pq' nns' seen',
  search_each_tree trees qu pq nns seen pnts D = Ok (pq', nns', seen') ->
  Forall (fun T => incl (node_points T) pts) trees ->
  incl (ids nns) pts -> incl (frontier_points pq) pts ->
  incl (ids nns') pts /\ incl (frontier_points pq') pts.
Proof.
  induction trees as [|T rest IH]; intros pq nns seen pq' nns' seen' H Ft Hn Hq;
    simpl in H.
  - injection H as <- <- <-. auto.
  - inv_bind H. destruct a as [[pq1 nns1] seen1].
    inversion Ft as [|x l HT Hrest]; subst.
    destruct (search_step_incl _ _ _ _ _ _ _ _ Hrun HT Hn Hq) as [Hn1 Hq1].
    exact (IH _ _ _ _ _ _ H Hrest Hn1 Hq1).
Qed.

Lemma drain_incl : forall fuel pq nns seen nchecks pq' nns' seen',
  drain ptr_lt fuel qu pq nns seen pnts D nchecks = Ok (pq', nns', seen') ->
  incl (ids nns) pts -> incl (frontier_points pq) pts ->
  incl (ids nns') pts /\ incl (frontier_points pq') pts.
Proof.
  induction fuel as [|fuel IH]; intros pq nns seen nchecks pq' nns' seen' H Hn Hq;
    [discriminate|].
  simpl in H. destruct (length nns <? nchecks).
  - destruct (bpq_pop ptr_lt pq) as [[pr pq1]|] eqn:Ep; [|discriminate].
    inv_bind H. destruct a as [[pq2 nns2] seen2].
    pose proof (frontier_points_perm _ _ (bpq_pop_perm _ _ _ _ Ep)) as PP.
    unfold frontier_points at 2 in PP. simpl in PP. fold (frontier_points pq1) in PP.
    assert (Hpr : incl (node_points (snd pr)) pts).
    { intros p Hp. apply Hq. apply (Permutation_in _ (Permutation_sym PP)).
      apply in_or_app. now left. }
    assert (Hq1 : incl (frontier_points pq1) pts).
    { intros p Hp. apply Hq. apply (Permutation_in _ (Permutation_sym PP)).
      apply in_or_app. now right. }
    destruct (search_step_incl _ _ _ _ _ _ _ _ Hrun Hpr Hn Hq1) as [Hn2 Hq2].
    exact (IH _ _ _ _ _ _ _ H Hn2 Hq2).
  - injection H as <- <- <-. auto.
Qed.

End Bounded.

(** X18: every pair a search over a built index returns names a point
    of the index and carries that point's squared distance to the query:
    for a returned [(i, d)], [i < N] and [d] is the distance computed
    from [qu] and the [D] values at [pnts + i*D]. *)
Theorem results_are_points_with_their_distance :
  forall pnts N D ntrees seed index qu numnn nchecks res,
  nn_kdtree_ctor pnts N D ntrees seed = Ok index ->
  1 <= N ->
  nn_kdtree_search ptr_lt index qu numnn nchecks = Ok res ->
  Forall (fun e => fst e < N /\ snd e = dist_l2 qu pnts (fst e * D) D) res.
Proof.
  intros pnts N D ntrees seed index qu numnn nchecks res Hb HN H.
  apply nn_kdtree_search_shape in H. destruct H as (pq & nns & seen & Hc & ->).
  destruct (search_candidates_spec ptr_lt _ _ _ _ _ _ _ _ _ _ _ _ Hb HN Hc)
    as ((_ & _ & Hmap) & _).
  destruct (nn_kdtree_ctor_spec _ _ _ _ _ _ Hb) as (EN & ED & Ep & _ & Fp & _).
  rewrite search_candidates_inv in Hc. rewrite EN, ED, Ep in Hc.
  inv_bind Hc. destruct a as [[pq0 nns0] seen0].
  assert (Ft : Forall (fun T => incl (node_points T) (seq 0 N)) (trees_ index)).
  { eapply Forall_impl; [|exact Fp]. intros T PT p Hp.
    now apply (Permutation_in _ (Permutation_sym PT)). }
  destruct (search_each_tree_incl qu pnts D (seq 0 N) _ _ _ _ _ _ _ Hrun Ft)
    as [Hn0 Hq0]; [intros p [] | intros p [] |].
  destruct (drain_incl qu pnts D (seq 0 N) _ _ _ _ _ _ _ _ Hc Hn0 Hq0) as [Hn _].
  apply Forall_forall. intros e He. apply In_firstn in He.
  apply (Permutation_in _ (Permutation_sym (sort_by_perm _ second_cmp nns))) in He.
  assert (Hi : In (fst e) (seq 0 N)) by (apply Hn; unfold ids; now apply in_map).
  apply in_seq in Hi. split; [lia|].
  rewrite Hmap in He. apply in_map_iff in He. destruct He as (i & <- & _). reflexivity.
Qed.

(** X19: over an index with a single tree no point is scored twice,
    whatever the budget: the candidate list of a search that returns
    holds no identifier twice, and neither does its result. *)
Theorem single_tree_scores_each_point_once :
  forall pnts N D seed index qu numnn nchecks res,
  nn_kdtree_ctor pnts N D 1 seed = Ok index ->
  1 <= N ->
  nn_kdtree_search ptr_lt index qu numnn nchecks = Ok res ->
  NoDup (ids res)
  /\ exists pq nns seen,
       search_candidates ptr_lt index qu numnn nchecks = Ok (pq, nns, seen)
       /\ NoDup (ids nns ++ frontier_points pq)
       /\ Permutation (ids nns ++ frontier_points pq) (seq 0 N).
Proof.
  intros pnts N D seed index qu numnn nchecks res Hb HN H.
  apply nn_kdtree_search_shape in H. destruct H as (pq & nns & seen & Hc & ->).
  pose proof Hc as Hc'.
  destruct (nn_kdtree_ctor_spec _ _ _ _ _ _ Hb) as (EN & ED & Ep & Et & Fp & Fl).
  specialize (Fl HN).
  rewrite search_candidates_inv in Hc. rewrite EN, ED, Ep in Hc.
  destruct (trees_ index) as [|T [|T' rest]]; try discriminate.
  inversion Fp as [|x l PT _]; subst x l.
  inversion Fl as [|x l HT _]; subst x l.
  cbn [search_each_tree] in Hc. inv_bind Hc. destruct a as [[pq0 nns0] seen0].
  inv_bind Hrun. destruct a as [[pq0' nns0'] seen0'].
  cbn [search_each_tree] in Hrun. injection Hrun as -> -> ->.
  assert (Hnd : NoDup (node_points T))
    by (apply (Permutation_NoDup PT), seq_NoDup).
  pose proof (search_inv_init qu pnts D N) as Hinit.
  destruct (search_step qu pnts D _ _ _ _ _ _ _ _ Hrun0 HT Hinit) as (Hinv0 & _).
  assert (P0 : Permutation (ids nns0 ++ frontier_points pq0) (node_points T)).
  { apply (part_step qu pnts D _ _ _ _ _ _ _ _ (node_points T) Hrun0 Hnd).
    - now destruct Hinit.
    - simpl. now rewrite app_nil_r. }
  pose proof (drain_part ptr_lt qu pnts D _ _ _ _ _ _ _ _ (node_points T) Hc Hnd Hinv0 P0)
    as P1.
  assert (Hall : NoDup (ids nns ++ frontier_points pq))
    by exact (Permutation_NoDup (Permutation_sym P1) Hnd).
  split.
  - unfold ids. rewrite <- firstn_map. apply NoDup_firstn.
    apply (Permutation_NoDup (l := ids nns)).
    + unfold ids. apply Permutation_map, sort_by_perm.
    + now apply NoDup_app_remove_r in Hall.
  - exists pq, nns, seen. split; [exact Hc'|]. split; [exact Hall|].
    now rewrite P1, PT.
Qed.

Lemma drain_Fail : forall fuel qu pnts D pq nns seen nchecks f,
  search_inv qu pnts D pq nns seen ->
  bpq_weight pq < fuel ->
  drain ptr_lt fuel qu pq nns seen pnts D nchecks = Fail f ->
  f = EmptyQueue.
Proof.
  induction fuel as [|fuel IH]; intros qu pnts D pq nns seen nchecks f Hinv Hw H; [lia|].
  simpl in H. destruct (length nns <? nchecks); [|discriminate].
  destruct (bpq_pop ptr_lt pq) as [[pr pq1]|] eqn:Ep; [|now injection H as <-].
  destruct (pop_inv ptr_lt qu pnts D _ _ _ _ _ Hinv Ep) as (Hok & Hinv1 & _).
  destruct (kdtree_node_search_total (snd pr) qu pq1 nns seen pnts D (fst pr) Hok)
    as ([[pq2 nns2] seen2] & Es).
  rewrite Es in H. cbn [bind] in H.
  destruct (search_step qu pnts D _ _ _ _ _ _ _ _ Es Hok Hinv1) as (Hinv2 & _ & _ & _ & W & _).
  apply (IH _ _ _ _ _ _ _ _ Hinv2) in H; [exact H|].
  pose proof (bpq_weight_perm _ _ (bpq_pop_perm _ _ _ _ Ep)) as Hp.
  unfold bpq_weight in Hp at 2. simpl in Hp. fold (bpq_weight pq1) in Hp. lia.
Qed.

(** X20: over a built index with at least one point no leaf is empty,
    so the leaf loop's bound never wraps, and the one way a search can
    fail is the [top()] on an empty queue: a search returns a result or
    stops on the empty queue. *)
Theorem search_fails_only_on_the_empty_queue :
  forall pnts N D ntrees seed index qu numnn nchecks,
  nn_kdtree_ctor pnts N D ntrees seed = Ok index ->
  1 <= N ->
  (exists res, nn_kdtree_search ptr_lt index qu numnn nchecks = Ok res)
  \/ nn_kdtree_search ptr_lt index qu numnn nchecks = Fail EmptyQueue.
Proof.
  intros pnts N D ntrees seed index qu numnn nchecks Hb HN.
  unfold nn_kdtree_search.
  destruct (search_candidates ptr_lt index qu numnn nchecks) as [[[pq nns] seen]|f] eqn:Hc.
  - left. cbn [bind]. eexists. reflexivity.
  - right. cbn [bind]. f_equal.
    destruct (nn_kdtree_ctor_spec _ _ _ _ _ _ Hb) as (EN & ED & Ep & _ & _ & Fl).
    specialize (Fl HN).
    rewrite search_candidates_inv in Hc. rewrite EN, ED, Ep in Hc.
    destruct (search_each_tree_total qu pnts D (trees_ index) [] [] (repeat false N) Fl)
      as ([[pq0 nns0] seen0] & E0).
    rewrite E0 in Hc. cbn [bind] in Hc.
    destruct (search_each_tree_spec qu pnts D _ _ _ _ _ _ _ E0 Fl (search_inv_init qu pnts D N))
      as (Hinv0 & _).
    apply (drain_Fail _ _ _ _ _ _ _ _ _ Hinv0) in Hc; [exact Hc | lia].
Qed.

End ResultExtras.

(** ** Ranks, budgets and small indexes *)

Lemma sorted_rank_le : forall (s1 s2 rest : list (nat * Q)) j e1,
  StronglySorted by_distance s1 -> StronglySorted by_distance s2 ->
  Permutation s2 (s1 ++ rest) ->
  nth_error s1 j = Some e1 ->
  exists e2, nth_error s2 j = Some e2 /\ by_distance e2 e1.
Proof.
  induction s1 as [|a t1 IH]; intros s2 rest j e1 S1 S2 P Hj.
  - destruct j; discriminate.
  - assert (Ia : In a s2).
    { apply (Permutation_in _ (Permutation_sym P)). now left. }
    destruct (in_split _ _ Ia) as (u & v & ->).
    destruct (StronglySorted_remove _ _ _ _ _ S2) as [S2' Fu].
    apply StronglySorted_inv in S1. destruct S1 as [S1 Fa].
    assert (Ha : by_distance a e1).
    { destruct j as [|j]; simpl in Hj.
      - injection Hj as <-. apply Qle_refl.
      - rewrite Forall_forall in Fa. apply Fa. eapply nth_error_In. exact Hj. }
    destruct (Nat.le_gt_cases j (length u)) as [Hle|Hgt].
    + assert (Hlt : j < length (u ++ a :: v)) by (rewrite length_app; simpl; lia).
      apply nth_error_Some in Hlt.
      destruct (nth_error (u ++ a :: v) j) as [e2|] eqn:E2; [|congruence].
      exists e2. split; [reflexivity|].
      apply (by_distance_trans _ a); [|exact Ha].
      rewrite nth_error_app in E2. destruct (Nat.ltb_spec j (length u)) as [Hu|Hu].
      * rewrite Forall_forall in Fu. apply Fu. eapply nth_error_In. exact E2.
      * replace (j - length u) with 0 in E2 by lia. simpl in E2.
        injection E2 as <-. apply Qle_refl.
    + destruct j as [|j]; [lia|]. simpl in Hj.
      assert (P' : Permutation (u ++ v) (t1 ++ rest)).
      { apply (Permutation_cons_inv (a := a)).
        apply (Permutation_trans (Permutation_middle u v a)). exact P. }
      destruct (IH (u ++ v) rest j e1 S1 S2' P' Hj) as (e2 & E2 & He2).
      exists e2. split; [|exact He2].
      rewrite nth_error_app2 in E2 by lia.
      rewrite nth_error_app2 by lia.
      replace (S j - length u) with (S (j - length u)) by lia. exact E2.
Qed.

Section RankExtras.

Context {RK : RandomKit}.
Variable ptr_lt : kdtree_node -> kdtree_node -> bool.

(** X21: a larger budget continues the search of a smaller one and
    improves every rank: when both searches return, the candidates of
    the smaller budget are the first candidates of the larger one, and
    the distance returned at each rank with the larger budget is at
    most the distance returned at that rank with the smaller one. *)
Theorem larger_budget_improves_every_rank : forall index qu numnn b1 b2 r1 r2,
  b1 <= b2 ->
  nn_kdtree_search ptr_lt index qu numnn b1 = Ok r1 ->
  nn_kdtree_search ptr_lt index qu numnn b2 = Ok r2 ->
  (exists pq1 nns1 seen1 pq2 seen2 more,
      search_candidates ptr_lt index qu numnn b1 = Ok (pq1, nns1, seen1)
      /\ search_candidates ptr_lt index qu numnn b2 = Ok (pq2, nns1 ++ more, seen2))
  /\ forall j e1, nth_error r1 j = Some e1 ->
       exists e2, nth_error r2 j = Some e2 /\ (snd e2 <= snd e1)%Q.
Proof.
  intros index qu numnn b1 b2 r1 r2 Hb H1 H2.
  apply nn_kdtree_search_shape in H1, H2.
  destruct H1 as (pq1 & nns1 & seen1 & C1 & ->).
  destruct H2 as (pq2 & nns2 & seen2 & C2 & ->).
  pose proof C1 as C1'. pose proof C2 as C2'.
  rewrite search_candidates_inv in C1, C2.
  destruct (search_each_tree (trees_ index) qu [] [] (repeat false (N_ index))
              (pnts_ index) (D_ index)) as [[[pq0 nns0] seen0]|f]; [|discriminate].
  cbn [bind] in C1, C2.
  destruct (drain_mono ptr_lt qu (pnts_ index) (D_ index) _ _ _ _ _ _ _ _ _ _ _ _
              (raise_nchecks_mono numnn b1 b2 Hb) C1 C2) as (more & ->).
  split.
  - exists pq1, nns1, seen1, pq2, seen2, more. split; [exact C1' | exact C2'].
  - intros j e1 Hj. rewrite nth_error_firstn in Hj. rewrite nth_error_firstn.
    destruct (j <? numnn); [|discriminate].
    apply (sorted_rank_le (sort_by second_cmp nns1) (sort_by second_cmp (nns1 ++ more))
             more j e1 (sort_by_sorted _) (sort_by_sorted _)); [|exact Hj].
    apply (Permutation_trans (Permutation_sym (sort_by_perm _ second_cmp (nns1 ++ more)))).
    apply Permutation_app_tail. apply sort_by_perm.
Qed.

(** X22: one tree and the budget [N]: over an index of at least one
    point built with a single tree, a search for [numnn <= N] neighbours
    with [nchecks = N] returns, and its result is an exact answer:
    [numnn] distinct points, nearest first, no point left out nearer
    than one returned, with the distances of the exhaustive search. *)
Theorem single_tree_full_budget_is_exact : forall pnts N D seed index qu numnn,
  nn_kdtree_ctor pnts N D 1 seed = Ok index ->
  1 <= N -> numnn <= N ->
  exists res, nn_kdtree_search ptr_lt index qu numnn N = Ok res
              /\ exact_knn qu pnts N D numnn res.
Proof.
  intros pnts N D seed index qu numnn Hb HN Hk.
  exact (single_tree_exhaustive ptr_lt pnts N D seed index qu numnn Hb HN Hk).
Qed.

(** The model's run over an index that is one leaf. *)
Lemma small_index_run : forall pnts N D seed index qu numnn nchecks,
  nn_kdtree_ctor pnts N D 1 seed = Ok index ->
  1 <= N -> N <= leaf_max_points ->
  trees_ index = [Leaf (seq 0 N)]
  /\ (exists seen,
        search_candidates ptr_lt index qu numnn nchecks
        = if (N <? numnn) || (N <? nchecks) then Fail EmptyQueue
          else Ok ([], map (scored qu pnts D) (seq 0 N), seen))
  /\ nn_kdtree_search ptr_lt index qu numnn nchecks
     = if (N <? numnn) || (N <? nchecks) then Fail EmptyQueue
       else Ok (firstn numnn (sort_by second_cmp (map (scored qu pnts D) (seq 0 N)))).
Proof.
  intros pnts N D seed index qu numnn nchecks Hb HN Hs.
  assert (Hc : forall fuel st,
             kdtree_node_ctor fuel pnts D (seq 0 N) st = Ok (Leaf (seq 0 N), seq 0 N, st)).
  { intros fuel st. destruct fuel; cbn [kdtree_node_ctor]; rewrite length_seq;
      destruct (Nat.ltb_spec leaf_max_points N); try lia; reflexivity. }
  unfold nn_kdtree_ctor in Hb. cbn [create_trees] in Hb.
  unfold new_node_type in Hb. rewrite Hc in Hb.
  cbn [bind] in Hb. injection Hb as <-.
  split; [reflexivity|].
  assert (Hn : seq 0 N <> []).
  { intro E. apply (f_equal (@length nat)) in E. rewrite length_seq in E. simpl in E. lia. }
  destruct (scan_leaf_unmarked (seq 0 N) qu pnts D [] (repeat false N) Hn
              (seq_NoDup _ _)) as (seen' & Es & _).
  rewrite filter_all_true in Es.
  2:{ apply Forall_forall. intros i _. unfold unmarked.
      now rewrite nth_repeat. }
  cbn [app] in Es.
  assert (Hcand : search_candidates ptr_lt
                 {| trees_ := [Leaf (seq 0 N)]; N_ := N; D_ := D; pnts_ := pnts;
                    state_ := rk_seed seed |} qu numnn nchecks
               = if N <? raise_nchecks numnn nchecks then Fail EmptyQueue
                 else Ok ([], map (scored qu pnts D) (seq 0 N), seen')).
  { rewrite search_candidates_inv.
    cbn [trees_ N_ D_ pnts_ search_each_tree].
    unfold kdtree_node_search. cbn [descend]. rewrite Es. cbn [bind].
    cbn [bpq_weight drain]. rewrite length_map, length_seq.
    destruct (N <? raise_nchecks numnn nchecks); reflexivity. }
  assert (Hr : (N <? raise_nchecks numnn nchecks)
               = ((N <? numnn) || (N <? nchecks))%bool).
  { unfold raise_nchecks.
    destruct (Nat.ltb_spec nchecks numnn); destruct (Nat.ltb_spec N numnn);
      destruct (Nat.ltb_spec N nchecks); simpl;
      try reflexivity; try (apply Nat.ltb_lt; lia); try (apply Nat.ltb_ge; lia); lia. }
  rewrite Hr in Hcand. split; [exists seen'; exact Hcand|].
  unfold nn_kdtree_search. rewrite Hcand.
  destruct ((N <? numnn) || (N <? nchecks))%bool eqn:Eb.
  - reflexivity.
  - cbn [bind]. unfold partial_sort. rewrite firstn_firstn.
    destruct (raise_nchecks_ge numnn nchecks) as [Hk _].
    do 2 f_equal. lia.
Qed.

(** X23: an index of at most [leaf_max_points] points built with one
    tree is one leaf, and every search over it is the exhaustive one.
    With [numnn <= N] and [nchecks <= N] it scores every point once, in
    the order of the leaf, and returns an exact answer: [numnn]
    distinct points, nearest first, with the distances of the
    exhaustive search. With a larger [numnn] or [nchecks] the loop pops
    the empty queue. *)
Theorem small_index_is_searched_exhaustively :
  forall pnts N D seed index qu numnn nchecks,
  nn_kdtree_ctor pnts N D 1 seed = Ok index ->
  1 <= N -> N <= leaf_max_points ->
  trees_ index = [Leaf (seq 0 N)]
  /\ if (N <? numnn) || (N <? nchecks)
     then nn_kdtree_search ptr_lt index qu numnn nchecks = Fail EmptyQueue
     else (exists seen,
             search_candidates ptr_lt index qu numnn nchecks
             = Ok ([], map (scored qu pnts D) (seq 0 N), seen))
          /\ exists res,
               nn_kdtree_search ptr_lt index qu numnn nchecks = Ok res
               /\ exact_knn qu pnts N D numnn res.
Proof.
  intros pnts N D seed index qu numnn nchecks Hb HN Hs.
  destruct (small_index_run pnts N D seed index qu numnn nchecks Hb HN Hs)
    as (Ht & (seen & Hc) & Hr).
  split; [exact Ht|].
  destruct ((N <? numnn) || (N <? nchecks))%bool eqn:Eb; [exact Hr|].
  split; [exists seen; exact Hc|].
  apply orb_false_iff in Eb. destruct Eb as [Ek _]. apply Nat.ltb_ge in Ek.
  destruct (single_tree_exhaustive ptr_lt pnts N D seed index qu numnn Hb HN Ek)
    as (res & Hres & Hex).
  destruct (small_index_run pnts N D seed index qu numnn N Hb HN Hs) as (_ & _ & HrN).
  assert (EN : ((N <? numnn) || (N <? N))%bool = false).
  { apply orb_false_iff. split; [now apply Nat.ltb_ge | apply Nat.ltb_irrefl]. }
  rewrite EN in HrN. rewrite HrN in Hres. injection Hres as <-.
  eexists. split; [exact Hr | exact Hex].
Qed.


End RankExtras.

(** ** The sample of choose_split *)

Section SampleExtras.

Context {RK : RandomKit}.

Lemma sample_firstn : forall pnts inds D d count k,
  count <= k ->
  sample pnts (firstn k inds) D d count = sample pnts inds D d count.
Proof.
  intros pnts inds D d count k Hk. unfold sample. apply map_ext_in.
  intros n Hn. apply in_seq in Hn.
  rewrite <- (firstn_skipn k inds) at 2.
  destruct (Nat.lt_ge_cases n (length (firstn k inds))) as [Hlt|Hge].
  - now rewrite app_nth1 by exact Hlt.
  - rewrite (nth_overflow (firstn k inds)) by exact Hge.
    rewrite length_firstn in Hge.
    assert (Hl : length inds <= n) by lia.
    rewrite firstn_skipn. now rewrite nth_overflow by exact Hl.
Qed.

(** X24: the split of a range is estimated from its first
    [varest_max_points] indices and from nothing else: two ranges that
    agree on their first 128 indices are given the same dimension, the
    same threshold and the same state of the stream. *)
Theorem split_reads_the_first_indices_only : forall pnts inds1 inds2 D st,
  firstn varest_max_points inds1 = firstn varest_max_points inds2 ->
  choose_split pnts inds1 D st = choose_split pnts inds2 D st.
Proof.
  assert (H : forall pnts inds D st,
             choose_split pnts inds D st
             = choose_split pnts (firstn varest_max_points inds) D st).
  { intros pnts inds D st. unfold choose_split.
    rewrite length_firstn.
    replace (Nat.min (Nat.min varest_max_points (length inds)) varest_max_points)
      with (Nat.min (length inds) varest_max_points) by lia.
    set (count := Nat.min (length inds) varest_max_points).
    assert (Hc : count <= varest_max_points) by (unfold count; lia).
    assert (Hx : forall d, sum_x pnts (firstn varest_max_points inds) D d count
                           = sum_x pnts inds D d count).
    { intro d. unfold sum_x. now rewrite sample_firstn. }
    assert (Hv : forall d, variance pnts (firstn varest_max_points inds) D d count
                           = variance pnts inds D d count).
    { intro d. unfold variance, sum_xx. now rewrite !Hx, sample_firstn. }
    rewrite (map_ext _ _ (fun d => f_equal (fun v => (v, d)) (Hv d))).
    destruct (rk_interval _ st) as [r st'].
    destruct (nth_error _ r) as [vd|]; [|reflexivity].
    now rewrite Hx. }
  intros pnts inds1 inds2 D st E.
  rewrite (H pnts inds1), (H pnts inds2), E. reflexivity.
Qed.

End SampleExtras.

(** * Bounds over a whole search *)


Lemma splits_hold_subnode : forall pnts D s n,
  subnode s n -> splits_hold pnts D n -> splits_hold pnts D s.
Proof.
  intros pnts D s n H. induction H; intro Hn; auto;
    simpl in Hn; destruct Hn as (_ & _ & Hl & Hr); auto.
Qed.



Section SoundFrontier.

Variable ptr_lt : kdtree_node -> kdtree_node -> bool.
Variable qu pnts : list Q.
Variable D : nat.




End SoundFrontier.

Section FrontierBounds.

Context {RK : RandomKit}.
Variable ptr_lt : kdtree_node -> kdtree_node -> bool.



End FrontierBounds.

(** * The properties at work on the example inputs *)

Lemma sixteen_points_tree_built :
  new_node_type sixteen_points 1 (seq 0 16) (rk_seed 42)
  = Ok (sixteen_points_tree, sixteen_points_array, rk_seed 44).
Proof. vm_compute. reflexivity. Qed.

Lemma forest_leaves_partition_points_witness :
  length (trees_ sixteen_points_index) = 1
  /\ Forall (fun T => Permutation (seq 0 16) (node_points T)
                      /\ NoDup (node_points T)
                      /\ (forall p, In p (node_points T) <-> p < 16)
                      /\ (1 <= 16 -> leaves_ok T)) (trees_ sixteen_points_index).
Proof.
  apply (forest_leaves_partition_points sixteen_points 16 1 1 42 sixteen_points_index).
  vm_compute. reflexivity.
Defined.

Lemma leaf_iff_small_range_witness :
  is_leaf sixteen_points_tree = (length (seq 0 16) <=? leaf_max_points)
  /\ internal_big sixteen_points_tree.
Proof.
  apply (leaf_iff_small_range sixteen_points 1 (seq 0 16) (rk_seed 42)
           sixteen_points_tree sixteen_points_array (rk_seed 44)).
  vm_compute. reflexivity.
Defined.

Lemma tree_size_bounds_witness :
  node_count sixteen_points_tree <= 2 * length (seq 0 16) - 1
  /\ node_depth sixteen_points_tree <= length (seq 0 16) - leaf_max_points.
Proof.
  apply (tree_size_bounds sixteen_points 1 (seq 0 16) (rk_seed 42)
           sixteen_points_tree sixteen_points_array (rk_seed 44)).
  - vm_compute. reflexivity.
  - simpl. lia.
Defined.

Lemma built_array_lists_leaves_witness :
  node_points sixteen_points_tree = sixteen_points_array
  /\ Permutation (seq 0 16) sixteen_points_array.
Proof.
  apply (built_array_lists_leaves sixteen_points 1 (seq 0 16) (rk_seed 42)
           sixteen_points_tree sixteen_points_array (rk_seed 44)).
  vm_compute. reflexivity.
Defined.

Lemma one_draw_per_internal_node_witness :
  rk_seed 44 = Nat.iter (internal_count sixteen_points_tree) (rk_advance 1) (rk_seed 42).
Proof.
  apply (one_draw_per_internal_node sixteen_points 1 (seq 0 16) (rk_seed 42)
           sixteen_points_tree sixteen_points_array (rk_seed 44)).
  - lia.
  - vm_compute. reflexivity.
Defined.

Lemma forest_is_prefix_of_larger_forest_witness :
  trees_ two_points_index = firstn 1 (trees_ two_points_two_trees).
Proof.
  apply (forest_is_prefix_of_larger_forest two_points 2 1 1 1 42
           two_points_index two_points_two_trees).
  - vm_compute. reflexivity.
  - vm_compute. reflexivity.
Defined.

Lemma identical_points_logarithmic_depth_witness :
  node_depth (Internal (Leaf [1; 2; 3; 4; 5; 6; 7])
                (Leaf [8; 9; 10; 11; 12; 13; 14; 0]) (75 # 15) 0) <= 1.
Proof.
  apply (identical_points_logarithmic_depth fifteen_equal 1 (seq 0 15) (rk_seed 42)
           (Internal (Leaf [1; 2; 3; 4; 5; 6; 7])
              (Leaf [8; 9; 10; 11; 12; 13; 14; 0]) (75 # 15) 0)
           [1; 2; 3; 4; 5; 6; 7; 8; 9; 10; 11; 12; 13; 14; 0] (rk_seed 43)
           (fun _ => 5%Q) 1).
  - simpl seq.
    repeat (constructor; [intros d Hd; replace d with 0 by lia; reflexivity|]).
    constructor.
  - vm_compute. lia.
  - vm_compute. reflexivity.
Defined.

Lemma no_dimension_no_split_witness :
  new_node_type [] 0 (seq 0 15) (rk_seed 42) = Fail OutOfBounds.
Proof.
  apply (no_dimension_no_split [] (seq 0 15) (rk_seed 42)).
  vm_compute. lia.
Defined.

Lemma no_point_no_search_witness :
  trees_ no_point_index = repeat (Leaf []) 2
  /\ nn_kdtree_search no_order no_point_index [1%Q] 1 1 = Fail OutOfBounds.
Proof.
  apply (no_point_no_search no_order [] 1 2 42 no_point_index [1%Q] 1 1).
  - lia.
  - vm_compute. reflexivity.
Defined.

Lemma frontier_is_explored_best_first_witness :
  Permutation [(1%Q, Leaf [1]); (0%Q, Leaf [0])] [(0%Q, Leaf [0]); (1%Q, Leaf [1])]
  /\ Forall (fun e : entry => (fst (0, Leaf [0%nat]) <= fst e)%Q)
            [(1%Q, Leaf [1]); (0%Q, Leaf [0])]
  /\ Forall (fun e : entry => (fst (0, Leaf [0%nat]) <= fst e)%Q) [(1%Q, Leaf [1])].
Proof.
  apply (frontier_is_explored_best_first no_order
           [(1%Q, Leaf [1]); (0%Q, Leaf [0])] (0%Q, Leaf [0]) [(1%Q, Leaf [1])]
           [0%Q] [] [false; false] two_points 1
           [(1%Q, Leaf [1])] [(0, 0%Q)] [false; false]).
  - vm_compute. reflexivity.
  - vm_compute. reflexivity.
Defined.

Lemma leaf_scan_scores_the_unmarked_witness :
  exists seen',
    scan_leaf [0; 1] [1%Q] two_points 1 [] [false; false]
    = Ok ([] ++ map (scored [1%Q] two_points 1)
                  (filter (unmarked [false; false]) [0; 1]), seen')
    /\ length seen' = length [false; false]
    /\ (forall j, nth j seen' false = true
                  <-> nth j [false; false] false = true
                      \/ (In j (removelast [0; 1]) /\ j < length [false; false])).
Proof.
  apply (leaf_scan_scores_the_unmarked [0; 1] [1%Q] two_points 1 [] [false; false]).
  - discriminate.
  - repeat constructor; simpl; intuition lia.
Defined.

Lemma results_are_the_nearest_candidates_witness :
  StronglySorted by_distance [(9, (1 # 16)%Q); (10, (9 # 16)%Q); (8, (25 # 16)%Q)]
  /\ exists pq nns seen rest,
       search_candidates no_order sixteen_points_index [(73 # 4)%Q] 3 10 = Ok (pq, nns, seen)
       /\ Permutation nns ([(9, (1 # 16)%Q); (10, (9 # 16)%Q); (8, (25 # 16)%Q)] ++ rest)
       /\ Forall (fun far => Forall (fun near => by_distance near far)
                               [(9, (1 # 16)%Q); (10, (9 # 16)%Q); (8, (25 # 16)%Q)]) rest.
Proof.
  apply (results_are_the_nearest_candidates no_order sixteen_points_index [(73 # 4)%Q] 3 10
           [(9, (1 # 16)%Q); (10, (9 # 16)%Q); (8, (25 # 16)%Q)]).
  vm_compute. reflexivity.
Defined.

Lemma results_are_points_with_their_distance_witness :
  Forall (fun e => fst e < 16 /\ snd e = dist_l2 [(73 # 4)%Q] sixteen_points (fst e * 1) 1)
         [(9, (1 # 16)%Q); (10, (9 # 16)%Q); (8, (25 # 16)%Q)].
Proof.
  apply (results_are_points_with_their_distance no_order sixteen_points 16 1 1 42
           sixteen_points_index [(73 # 4)%Q] 3 10 [(9, (1 # 16)%Q); (10, (9 # 16)%Q); (8, (25 # 16)%Q)]).
  - vm_compute. reflexivity.
  - lia.
  - vm_compute. reflexivity.
Defined.

Lemma single_tree_scores_each_point_once_witness :
  NoDup (ids [(9, (1 # 16)%Q); (10, (9 # 16)%Q); (8, (25 # 16)%Q)])
  /\ exists pq nns seen,
       search_candidates no_order sixteen_points_index [(73 # 4)%Q] 3 10 = Ok (pq, nns, seen)
       /\ NoDup (ids nns ++ frontier_points pq)
       /\ Permutation (ids nns ++ frontier_points pq) (seq 0 16).
Proof.
  apply (single_tree_scores_each_point_once no_order sixteen_points 16 1 42
           sixteen_points_index [(73 # 4)%Q] 3 10 [(9, (1 # 16)%Q); (10, (9 # 16)%Q); (8, (25 # 16)%Q)]).
  - vm_compute. reflexivity.
  - lia.
  - vm_compute. reflexivity.
Defined.

Lemma search_fails_only_on_the_empty_queue_witness :
  (exists res, nn_kdtree_search no_order two_points_index [1%Q] 1 3 = Ok res)
  \/ nn_kdtree_search no_order two_points_index [1%Q] 1 3 = Fail EmptyQueue.
Proof.
  apply (search_fails_only_on_the_empty_queue no_order two_points 2 1 1 42
           two_points_index [1%Q] 1 3).
  - vm_compute. reflexivity.
  - lia.
Defined.

Lemma larger_budget_improves_every_rank_witness :
  (exists pq1 nns1 seen1 pq2 seen2 more,
      search_candidates no_order sixteen_points_index [(73 # 4)%Q] 3 3 = Ok (pq1, nns1, seen1)
      /\ search_candidates no_order sixteen_points_index [(73 # 4)%Q] 3 10
         = Ok (pq2, nns1 ++ more, seen2))
  /\ forall j e1, nth_error [(9, (1 # 16)%Q); (10, (9 # 16)%Q); (8, (25 # 16)%Q)] j = Some e1 ->
       exists e2, nth_error [(9, (1 # 16)%Q); (10, (9 # 16)%Q); (8, (25 # 16)%Q)] j = Some e2
                  /\ (snd e2 <= snd e1)%Q.
Proof.
  apply (larger_budget_improves_every_rank no_order sixteen_points_index [(73 # 4)%Q] 3 3 10
           [(9, (1 # 16)%Q); (10, (9 # 16)%Q); (8, (25 # 16)%Q)] [(9, (1 # 16)%Q); (10, (9 # 16)%Q); (8, (25 # 16)%Q)]).
  - lia.
  - vm_compute. reflexivity.
  - vm_compute. reflexivity.
Defined.

Lemma single_tree_full_budget_is_exact_witness :
  exists res, nn_kdtree_search no_order sixteen_points_index [18%Q] 3 16 = Ok res
              /\ exact_knn [18%Q] sixteen_points 16 1 3 res.
Proof.
  apply (single_tree_full_budget_is_exact no_order sixteen_points 16 1 42
           sixteen_points_index [18%Q] 3).
  - vm_compute. reflexivity.
  - lia.
  - lia.
Defined.

Lemma small_index_is_searched_exhaustively_witness :
  trees_ two_points_index = [Leaf (seq 0 2)]
  /\ if (2 <? 1) || (2 <? 2)
     then nn_kdtree_search no_order two_points_index [1%Q] 1 2 = Fail EmptyQueue
     else (exists seen,
             search_candidates no_order two_points_index [1%Q] 1 2
             = Ok ([], map (scored [1%Q] two_points 1) (seq 0 2), seen))
          /\ exists res,
               nn_kdtree_search no_order two_points_index [1%Q] 1 2 = Ok res
               /\ exact_knn [1%Q] two_points 2 1 1 res.
Proof.
  apply (small_index_is_searched_exhaustively no_order two_points 2 1 42
           two_points_index [1%Q] 1 2).
  - vm_compute. reflexivity.
  - lia.
  - vm_compute. lia.
Defined.

Lemma split_reads_the_first_indices_only_witness :
  choose_split two_clusters (seq 0 128 ++ [200]) 1 (rk_seed 42)
  = choose_split two_clusters (seq 0 128 ++ [5; 6]) 1 (rk_seed 42).
Proof.
  apply (split_reads_the_first_indices_only two_clusters
           (seq 0 128 ++ [200]) (seq 0 128 ++ [5; 6]) 1 (rk_seed 42)).
  vm_compute. reflexivity.
Defined.

Lemma skewed_index_built : nn_kdtree_ctor skewed_points 30 2 1 43 = Ok skewed_index.
Proof. vm_compute. reflexivity. Qed.

